(** * DBSTREAM (river/cluster/dbstream.py): an embedding and its properties

    The Python class [DBSTREAM] keeps a store of micro-clusters, a shared
    density graph and a clock.  This development embeds the class the way
    it is written:

    - Python [int]s (identifiers, labels, time stamps) are [Z];
    - Python [float]s are the real numbers of the Standard Library
      ([2 ** x] is [Rpower 2 x], [math.exp] is [exp], [math.sqrt] is
      [sqrt]): rounding, overflow and NaN are outside the model.  The
      float operation [2 ** x] raises [OverflowError] once the exponent
      reaches 1024, where [Rpower 2 x] has a value: a property that
      states that a method returns bounds the exponents that the method
      evaluates ([update_in_range], [cleanup_in_range]);
    - a Python [dict] is an association list in insertion order
      (module [Dict]): iteration order, [len] and in-place overwriting of a
      key are what the code relies on;
    - micro-cluster objects live in a heap of addresses, because the code
      keeps several references to one object ([micro_clusters],
      [neighbor_clusters], [mcs_with_label_i], [clusters]);
    - a method of the class is a function from the state of the instance
      to an outcome (a value or a Python exception) and the state at that
      moment: a raising method still leaves its partial effects behind. *)

From Stdlib Require Import Reals Lra ZArith List Lia Bool Permutation.
From Stdlib Require Import FunctionalExtensionality.
Import ListNotations.

Set Implicit Arguments.

(** ** Python exceptions and outcomes *)

Inductive exn : Type :=
| KeyError
| ValueError
| TypeError
| RuntimeError
| ZeroDivisionError
| DimensionError.

Inductive result (A : Type) : Type :=
| Ok (a : A)
| Raise (e : exn).

Arguments Ok {A} a.
Arguments Raise {A} e.

Definition rbind {A B} (r : result A) (k : A -> result B) : result B :=
  match r with
  | Ok a => k a
  | Raise e => Raise e
  end.

Definition of_option {A} (e : exn) (o : option A) : result A :=
  match o with
  | Some a => Ok a
  | None => Raise e
  end.

Declare Scope result_scope.
Delimit Scope result_scope with result.
Notation "x <-- c ;; k" := (rbind c (fun x => k))
  (at level 61, c at next level, right associativity) : result_scope.

(** ** Insertion-ordered dictionaries with integer keys *)

Module Dict.
Section Dict.
Variable V : Type.

Definition t : Type := list (Z * V).

Definition empty : t := [].

(** [d.get(k)] *)
Fixpoint get (k : Z) (d : t) : option V :=
  match d with
  | [] => None
  | (k', v) :: r => if Z.eqb k k' then Some v else get k r
  end.

(** [k in d] *)
Definition mem (k : Z) (d : t) : bool :=
  match get k d with
  | Some _ => true
  | None => false
  end.

(** [d[k]], raising [KeyError] *)
Definition getitem (k : Z) (d : t) : result V :=
  of_option KeyError (get k d).

(** [d[k] = v]: an existing key keeps its position, a new key goes last *)
Fixpoint set (k : Z) (v : V) (d : t) : t :=
  match d with
  | [] => [(k, v)]
  | (k', v') :: r =>
      if Z.eqb k k' then (k, v) :: r else (k', v') :: set k v r
  end.

(** [d.pop(k)] for a key that is present *)
Fixpoint pop (k : Z) (d : t) : t :=
  match d with
  | [] => []
  | (k', v') :: r => if Z.eqb k k' then r else (k', v') :: pop k r
  end.

Definition keys (d : t) : list Z := map fst d.
Definition values (d : t) : list V := map snd d.
Definition items (d : t) : list (Z * V) := d.

(** [len(d)] *)
Definition len (d : t) : Z := Z.of_nat (length d).
End Dict.

Arguments empty {V}.
End Dict.

Definition dict (V : Type) : Type := Dict.t V.

(** ** Floats as real numbers *)

Open Scope R_scope.

Definition Rltb (a b : R) : bool := if Rlt_dec a b then true else false.
Definition Rgeb (a b : R) : bool := if Rge_dec a b then true else false.
Definition Rgtb (a b : R) : bool := if Rgt_dec a b then true else false.

(** [2 ** x], where the float operation has a value.  On floats it
    raises [OverflowError] once the exponent reaches 1024, and [Rpower]
    has a value for every exponent: the properties that state that
    [_cleanup] or [learn_one] returns therefore assume the exponents of
    the powers that are evaluated below 1024. *)
Definition pow2 (x : R) : R := Rpower 2 x.

(** [a / b] on floats raises [ZeroDivisionError] when [b] is zero. *)
Definition truediv (a b : R) : result R :=
  if Req_dec_T b 0 then Raise ZeroDivisionError else Ok (a / b).

(** [math.sqrt] raises [ValueError] below zero. *)
Definition math_sqrt (v : R) : result R :=
  if Rlt_dec v 0 then Raise ValueError else Ok (sqrt v).

(** ** Points *)

(** A point, and the center of a micro-cluster, is a [dict] from feature
    to coordinate. *)
Definition point : Type := dict R.

Definition same_dimensions (a b : point) : bool :=
  Nat.eqb (length a) (length b)
  && forallb (fun k => Dict.mem k b) (Dict.keys a).

(** Modelled from the spec: [utils.math.minkowski_distance], which is not
    part of the file.  The spec gives the distance as the Euclidean one
    between two equal-dimension vectors, which "fails if dimensions
    mismatch"; [_distance] below takes the square root of this sum of
    [p]-th powers of the coordinate differences. *)
Definition minkowski_distance (a b : point) (p : nat) : result R :=
  if same_dimensions a b then
    Ok (fold_left Rplus
          (map (fun kv : Z * R =>
                  match Dict.get (fst kv) b with
                  | Some bk => Rabs (snd kv - bk) ^ p
                  | None => 0
                  end) a)
          0)
  else Raise DimensionError.

(** ** Micro-clusters *)

Record DBSTREAMMicroCluster : Type := mkMicroCluster {
  center : point;
  last_update : Z;
  weight : R
}.

Definition with_center (c : point) (m : DBSTREAMMicroCluster) :=
  mkMicroCluster c (last_update m) (weight m).
Definition with_last_update (t : Z) (m : DBSTREAMMicroCluster) :=
  mkMicroCluster (center m) t (weight m).
Definition with_weight (w : R) (m : DBSTREAMMicroCluster) :=
  mkMicroCluster (center m) (last_update m) w.

(** The body of [DBSTREAMMicroCluster.merge] on the values of [self] and
    [cluster]: the new center is computed first (a missing coordinate of
    [cluster] raises [KeyError], a zero total weight
    [ZeroDivisionError]), then both attributes of [self] are assigned. *)
Fixpoint merge_center (sc : list (Z * R)) (sw : R) (cc : point) (cw : R)
  : result point :=
  match sc with
  | [] => Ok []
  | (i, si) :: r =>
      (ci <-- Dict.getitem i cc ;;
       v <-- truediv (si * sw + ci * cw) (sw + cw) ;;
       r' <-- merge_center r sw cc cw ;;
       Ok ((i, v) :: r'))%result
  end.

Definition merge_value (self cluster : DBSTREAMMicroCluster)
  : result DBSTREAMMicroCluster :=
  (c <-- merge_center (center self) (weight self)
                      (center cluster) (weight cluster) ;;
   Ok (mkMicroCluster c (last_update self) (weight self + weight cluster))
  )%result.

(** ** The state of a DBSTREAM instance *)

Definition addr : Type := nat.

Record DBSTREAM : Type := mkDBSTREAM {
  time_stamp : Z;
  clustering_threshold : R;
  fading_factor : R;
  cleanup_interval : Z;
  minimum_weight : R;
  intersection_factor : R;
  n_clusters : Z;
  clusters : dict addr;
  centers : dict point;
  micro_clusters : dict addr;
  s : dict (dict R);
  s_t : dict (dict Z);
  (** the objects the references above point to *)
  heap : addr -> DBSTREAMMicroCluster;
  next_addr : addr
}.

Definition set_time_stamp (v : Z) (d : DBSTREAM) : DBSTREAM :=
  mkDBSTREAM v (clustering_threshold d) (fading_factor d)
    (cleanup_interval d) (minimum_weight d) (intersection_factor d)
    (n_clusters d) (clusters d) (centers d) (micro_clusters d) (s d) (s_t d)
    (heap d) (next_addr d).

Definition set_reclustering (n : Z) (cl : dict addr) (ce : dict point)
  (d : DBSTREAM) : DBSTREAM :=
  mkDBSTREAM (time_stamp d) (clustering_threshold d) (fading_factor d)
    (cleanup_interval d) (minimum_weight d) (intersection_factor d)
    n cl ce (micro_clusters d) (s d) (s_t d) (heap d) (next_addr d).

Definition set_micro_clusters (m : dict addr) (d : DBSTREAM) : DBSTREAM :=
  mkDBSTREAM (time_stamp d) (clustering_threshold d) (fading_factor d)
    (cleanup_interval d) (minimum_weight d) (intersection_factor d)
    (n_clusters d) (clusters d) (centers d) m (s d) (s_t d)
    (heap d) (next_addr d).

Definition set_s (v : dict (dict R)) (d : DBSTREAM) : DBSTREAM :=
  mkDBSTREAM (time_stamp d) (clustering_threshold d) (fading_factor d)
    (cleanup_interval d) (minimum_weight d) (intersection_factor d)
    (n_clusters d) (clusters d) (centers d) (micro_clusters d) v (s_t d)
    (heap d) (next_addr d).

Definition set_s_t (v : dict (dict Z)) (d : DBSTREAM) : DBSTREAM :=
  mkDBSTREAM (time_stamp d) (clustering_threshold d) (fading_factor d)
    (cleanup_interval d) (minimum_weight d) (intersection_factor d)
    (n_clusters d) (clusters d) (centers d) (micro_clusters d) (s d) v
    (heap d) (next_addr d).

Definition set_heap (h : addr -> DBSTREAMMicroCluster) (n : addr)
  (d : DBSTREAM) : DBSTREAM :=
  mkDBSTREAM (time_stamp d) (clustering_threshold d) (fading_factor d)
    (cleanup_interval d) (minimum_weight d) (intersection_factor d)
    (n_clusters d) (clusters d) (centers d) (micro_clusters d) (s d) (s_t d)
    h n.

(** Assignment to the object at address [a]. *)
Definition heap_set (a : addr) (m : DBSTREAMMicroCluster)
  (h : addr -> DBSTREAMMicroCluster) : addr -> DBSTREAMMicroCluster :=
  fun a' => if Nat.eqb a' a then m else h a'.

Definition store (a : addr) (m : DBSTREAMMicroCluster) (d : DBSTREAM)
  : DBSTREAM :=
  set_heap (heap_set a m (heap d)) (next_addr d) d.

(** [DBSTREAM.__init__]: no address is allocated yet; the object shown
    at unallocated addresses is never reached from the dictionaries. *)
Definition init (clustering_threshold fading_factor : R)
  (cleanup_interval : Z) (intersection_factor minimum_weight : R)
  : DBSTREAM :=
  mkDBSTREAM 0 clustering_threshold fading_factor cleanup_interval
    minimum_weight intersection_factor 0 Dict.empty Dict.empty Dict.empty
    Dict.empty Dict.empty (fun _ => mkMicroCluster [] 0 0) 0%nat.

(** ** Methods as state transformers *)

Definition M (A : Type) : Type := DBSTREAM -> result A * DBSTREAM.

Definition ret {A} (a : A) : M A := fun d => (Ok a, d).

Definition bind {A B} (c : M A) (k : A -> M B) : M B :=
  fun d =>
    match c d with
    | (Ok a, d') => k a d'
    | (Raise e, d') => (Raise e, d')
    end.

Definition raise {A} (e : exn) : M A := fun d => (Raise e, d).

(** a computation that only reads the state *)
Definition reads {A} (f : DBSTREAM -> result A) : M A := fun d => (f d, d).

Definition gets {A} (f : DBSTREAM -> A) : M A := fun d => (Ok (f d), d).

Definition modify (f : DBSTREAM -> DBSTREAM) : M unit :=
  fun d => (Ok tt, f d).

(** [try: c except KeyError: h] *)
Definition try_KeyError {A} (c h : M A) : M A :=
  fun d =>
    match c d with
    | (Raise KeyError, d') => h d'
    | r => r
    end.

Declare Scope m_scope.
Delimit Scope m_scope with m.
Notation "x <- c ;; k" := (bind c (fun x => k))
  (at level 61, c at next level, right associativity) : m_scope.
Notation "c ;; k" := (bind c (fun _ => k))
  (at level 61, right associativity) : m_scope.

(** [for a in l: body], with and without a local accumulator *)
Fixpoint foldM {A B} (f : B -> A -> M B) (l : list A) (b : B) : M B :=
  match l with
  | [] => ret b
  | a :: l' => (b' <- f b a ;; foldM f l' b')%m
  end.

Definition for_each {A} (l : list A) (body : A -> M unit) : M unit :=
  foldM (fun _ a => body a) l tt.

Fixpoint rfold {A B} (f : B -> A -> result B) (l : list A) (b : B)
  : result B :=
  match l with
  | [] => Ok b
  | a :: l' => (b' <-- f b a ;; rfold f l' b')%result
  end.

(** An iterator over the items of a dictionary held in the state compares,
    at every step and also at the step that would end the loop, the size
    of the dictionary with the size it had when the loop started, and
    raises [RuntimeError] ("dictionary changed size during iteration") on
    a difference.  The only loop of the class that resizes the dictionary
    it walks is the first loop of [_cleanup], whose body only deletes the
    entry at hand: the entries still to visit are those of the dictionary
    as it was at the start. *)
Fixpoint for_items_checked {V} (view : DBSTREAM -> dict V) (size : nat)
  (its : list (Z * V)) (body : Z * V -> M unit) : M unit :=
  fun d =>
    if negb (Nat.eqb (length (view d)) size) then (Raise RuntimeError, d)
    else
      match its with
      | [] => (Ok tt, d)
      | it :: rest =>
          (body it ;; for_items_checked view size rest body)%m d
      end.

Definition for_items {V} (view : DBSTREAM -> dict V)
  (body : Z * V -> M unit) : M unit :=
  fun d =>
    for_items_checked view (length (view d)) (Dict.items (view d)) body d.

(** ** Distance and neighbourhood *)

Definition _distance (point_a point_b : point) : result R :=
  (m <-- minkowski_distance point_a point_b 2 ;; math_sqrt m)%result.

(** [self.micro_clusters[i]], as the object it refers to *)
Definition micro_cluster (i : Z) (d : DBSTREAM) : result addr :=
  Dict.getitem i (micro_clusters d).

Definition _find_fixed_radius_nn (x : point) (d : DBSTREAM)
  : result (dict addr) :=
  rfold (fun fixed_radius_nn i =>
           (a <-- micro_cluster i d ;;
            dist <-- _distance (center (heap d a)) x ;;
            if Rltb dist (clustering_threshold d)
            then Ok (Dict.set i a fixed_radius_nn)
            else Ok fixed_radius_nn)%result)
        (Dict.keys (micro_clusters d)) Dict.empty.

Definition _gaussian_neighborhood (point_a point_b : point) (d : DBSTREAM)
  : result R :=
  (distance <-- _distance point_a point_b ;;
   let sigma := clustering_threshold d / 3 in
   q <-- truediv (- (distance * distance)) (2 * (sigma * sigma)) ;;
   Ok (exp q))%result.

(** ** Algorithm 1: [_update] *)

Definition getitem2 {V} (i j : Z) (g : dict (dict V)) : result V :=
  (row <-- Dict.getitem i g ;; Dict.getitem j row)%result.

(** [g[i][j] = v]: the row [g[i]] has to exist *)
Definition setitem2 {V} (i j : Z) (v : V) (g : dict (dict V))
  : result (dict (dict V)) :=
  (row <-- Dict.getitem i g ;; Ok (Dict.set i (Dict.set j v row) g))%result.

Definition s_setitem (i j : Z) (v : R) : M unit :=
  fun d =>
    match setitem2 i j v (s d) with
    | Ok g => (Ok tt, set_s g d)
    | Raise e => (Raise e, d)
    end.

Definition s_t_setitem (i j : Z) (v : Z) : M unit :=
  fun d =>
    match setitem2 i j v (s_t d) with
    | Ok g => (Ok tt, set_s_t g d)
    | Raise e => (Raise e, d)
    end.

(** The branch that finds no neighbour: a new object is allocated and
    bound to the key [len(self.micro_clusters)]. *)
Definition create_micro_cluster (x : point) : M unit :=
  fun d =>
    let a := next_addr d in
    let d1 :=
      set_heap (heap_set a (mkMicroCluster x (time_stamp d) 1) (heap d))
               (S a) d in
    (Ok tt,
     set_micro_clusters
       (Dict.set (Dict.len (micro_clusters d1)) a (micro_clusters d1)) d1).

(** The comprehension that moves a center towards [x]; [c] is the center
    before the move, [its] the entries still to compute. *)
Fixpoint moved_center (x c : point) (its : list (Z * R)) (d : DBSTREAM)
  : result point :=
  match its with
  | [] => Ok []
  | (j, cj) :: r =>
      (g <-- _gaussian_neighborhood x c d ;;
       xj <-- Dict.getitem j x ;;
       r' <-- moved_center x c r d ;;
       Ok ((j, cj + g * (xj - cj)) :: r'))%result
  end.

(** The shared density of the pair [(i, j)], [j > i]. *)
Definition update_shared_density (i j : Z) : M unit :=
  try_KeyError
    (sij <- reads (fun d => getitem2 i j (s d)) ;;
     tij <- reads (fun d => getitem2 i j (s_t d)) ;;
     ff <- gets fading_factor ;;
     ts <- gets time_stamp ;;
     s_setitem i j (sij * pow2 (- ff * IZR (ts - tij)) + 1) ;;
     s_t_setitem i j ts)%m
    (try_KeyError
       (s_setitem i j 0 ;; s_t_setitem i j 0%Z)%m
       (modify (fun d => set_s (Dict.set i [(j, 0)] (s d)) d) ;;
        modify (fun d => set_s_t (Dict.set i [(j, 0%Z)] (s_t d)) d))%m).

(** One turn of the first loop over the neighbours. *)
Definition update_neighbor (x : point) (neighbor_clusters : dict addr)
  (current_centers : dict point) (i : Z) : M (dict point) :=
  (a <- reads (micro_cluster i) ;;
   c <- gets (fun d => center (heap d a)) ;;
   let current_centers := Dict.set i c current_centers in
   modify (fun d =>
     store a (with_weight
                (weight (heap d a)
                 * pow2 (- fading_factor d
                         * IZR (time_stamp d - last_update (heap d a)))
                 + 1)
                (heap d a)) d) ;;
   c' <- reads (moved_center x c (Dict.items c)) ;;
   modify (fun d => store a (with_center c' (heap d a)) d) ;;
   modify (fun d => store a (with_last_update (time_stamp d) (heap d a)) d) ;;
   for_each (Dict.keys neighbor_clusters)
     (fun j => if Z.gtb j i then update_shared_density i j else ret tt) ;;
   ret current_centers)%m.

(** One turn of the loop that prevents collapsing, for [j > i]. *)
Definition prevent_collapse (current_centers : dict point) (i j : Z)
  : M unit :=
  (ai <- reads (micro_cluster i) ;;
   aj <- reads (micro_cluster j) ;;
   dist <- reads (fun d => _distance (center (heap d ai))
                                      (center (heap d aj))) ;;
   th <- gets clustering_threshold ;;
   if Rltb dist th then
     ci <- reads (fun _ => Dict.getitem i current_centers) ;;
     modify (fun d => store ai (with_center ci (heap d ai)) d) ;;
     cj <- reads (fun _ => Dict.getitem j current_centers) ;;
     modify (fun d => store aj (with_center cj (heap d aj)) d)
   else ret tt)%m.

Definition prevent_collapsing (neighbor_clusters : dict addr)
  (current_centers : dict point) : M unit :=
  for_each (Dict.keys neighbor_clusters)
    (fun i =>
       for_each (Dict.keys neighbor_clusters)
         (fun j =>
            if Z.gtb j i then prevent_collapse current_centers i j
            else ret tt)).

Definition _update (x : point) : M unit :=
  (neighbor_clusters <- reads (_find_fixed_radius_nn x) ;;
   (if Z.ltb (Dict.len neighbor_clusters) 1 then create_micro_cluster x
    else
      current_centers <-
        foldM (update_neighbor x neighbor_clusters)
              (Dict.keys neighbor_clusters) Dict.empty ;;
      prevent_collapsing neighbor_clusters current_centers) ;;
   modify (fun d => set_time_stamp (time_stamp d + 1) d))%m.

(** ** Algorithm 2: [_cleanup] *)

Definition weight_weak (d : DBSTREAM) : R :=
  pow2 (- fading_factor d * IZR (cleanup_interval d)).

(** The test of the first loop on the micro-cluster at address [a]. *)
Definition is_weak (ww : R) (d : DBSTREAM) (a : addr) : bool :=
  Rltb (weight (heap d a)
        * pow2 (fading_factor d
                * IZR (time_stamp d - last_update (heap d a))))
       ww.

Definition cleanup_micro_cluster (ww : R) (ia : Z * addr) : M unit :=
  fun d =>
    if is_weak ww d (snd ia)
    then (Ok tt, set_micro_clusters (Dict.pop (fst ia) (micro_clusters d)) d)
    else (Ok tt, d).

(** The entries of the graph are overwritten in place: no key comes or
    goes, so the iterators of this loop never see a change of size. *)
Definition cleanup_shared_density (ww : R) (i j : Z) : M unit :=
  (sij <- reads (fun d => getitem2 i j (s d)) ;;
   tij <- reads (fun d => getitem2 i j (s_t d)) ;;
   ff <- gets fading_factor ;;
   ts <- gets time_stamp ;;
   al <- gets intersection_factor ;;
   if Rltb (sij * pow2 (ff * IZR (ts - tij))) (al * ww) then
     s_setitem i j 0 ;; s_t_setitem i j 0%Z
   else ret tt)%m.

Definition _cleanup : M unit :=
  (ww <- gets weight_weak ;;
   for_items micro_clusters (cleanup_micro_cluster ww) ;;
   ks <- gets (fun d => Dict.keys (s d)) ;;
   for_each ks
     (fun i =>
        row <- reads (fun d => Dict.getitem i (s d)) ;;
        for_each (Dict.keys row) (cleanup_shared_density ww i)))%m.

(** ** Algorithm 3: reclustering *)

Definition _generate_weighted_adjacency_matrix (d : DBSTREAM)
  : result (dict (dict R)) :=
  rfold (fun wam i =>
     (row <-- Dict.getitem i (s d) ;;
      rfold (fun weighted_adjacency_matrix j =>
         (ai <-- micro_cluster i d ;;
          if Rgeb (weight (heap d ai)) (minimum_weight d) then
            aj <-- micro_cluster j d ;;
            if Rgeb (weight (heap d aj)) (minimum_weight d) then
              sij <-- getitem2 i j (s d) ;;
              value <-- truediv sij
                          ((weight (heap d ai) + weight (heap d aj)) / 2) ;;
              if Rgtb value (intersection_factor d) then
                match setitem2 i j value weighted_adjacency_matrix with
                | Ok w => Ok w
                | Raise _ =>
                    Ok (Dict.set i [(j, value)] weighted_adjacency_matrix)
                end
              else Ok weighted_adjacency_matrix
            else Ok weighted_adjacency_matrix
          else Ok weighted_adjacency_matrix)%result)
        (Dict.keys row) wam)%result)
    (Dict.keys (s d)) Dict.empty.

Definition labelling : Type := dict (option Z).

(** [labels[k] is not None] *)
Definition is_labelled (k : Z) (labels : labelling) : result bool :=
  (l <-- Dict.getitem k labels ;;
   Ok (match l with Some _ => true | None => false end))%result.

(** [for neighbor_neighbor in neighbor_neighbors:] the neighbours that
    already carry a label are appended to the seed set. *)
Definition add_new_neighbors (labels : labelling)
  (neighbor_neighbors seed_set : list Z) : result (list Z) :=
  rfold (fun seed_set neighbor_neighbor =>
           (b <-- is_labelled neighbor_neighbor labels ;;
            if b then Ok (seed_set ++ [neighbor_neighbor])
            else Ok seed_set)%result)
        neighbor_neighbors seed_set.

(** [while seed_set:].  Every turn either drops the head of the queue or
    gives a label to a key that had none; [fuel] bounds the number of
    turns and [None] is the bound reached (see [enough_fuel]). *)
Fixpoint expand_seed_set {V} (fuel : nat) (wal : dict (dict V))
  (count : Z) (seed_set : list Z) (labels : labelling)
  : option (result labelling) :=
  match fuel with
  | O => None
  | S fuel' =>
      match seed_set with
      | [] => Some (Ok labels)
      | h :: rest =>
          match is_labelled h labels with
          | Raise e => Some (Raise e)
          | Ok true => expand_seed_set fuel' wal count rest labels
          | Ok false =>
              let labels := Dict.set h (Some count) labels in
              match Dict.get h wal with
              | None => expand_seed_set fuel' wal count seed_set labels
              | Some row =>
                  match add_new_neighbors labels (Dict.keys row) seed_set with
                  | Raise e => Some (Raise e)
                  | Ok seed_set =>
                      expand_seed_set fuel' wal count seed_set labels
                  end
              end
          end
      end
  end.

Definition unlabelled (labels : labelling) : nat :=
  length (filter (fun kv : Z * option Z =>
                    match snd kv with None => true | Some _ => false end)
                 labels).

Definition max_degree {V} (wal : dict (dict V)) : nat :=
  fold_right (fun row m => Nat.max (length (snd row)) m) 0%nat wal.

(** A number of turns that [while seed_set:] cannot exceed. *)
Definition enough_fuel {V} (wal : dict (dict V)) (seed_set : list Z)
  (labels : labelling) : nat :=
  S (unlabelled labels * S (max_degree wal) + length seed_set).

(** One turn of [for index in labels.keys():]. *)
Definition label_from {V} (wal : dict (dict V))
  (acc : labelling * Z) (index : Z) : option (result (labelling * Z)) :=
  let (labels, count) := acc in
  match is_labelled index labels with
  | Raise e => Some (Raise e)
  | Ok true => Some (Ok (labels, count))
  | Ok false =>
      let count := (count + 1)%Z in
      let labels := Dict.set index (Some count) labels in
      match Dict.get index wal with
      | None => Some (Ok (labels, count))
      | Some row =>
          let seed_set := Dict.keys row in
          match expand_seed_set (enough_fuel wal seed_set labels)
                  wal count seed_set labels with
          | None => None
          | Some (Raise e) => Some (Raise e)
          | Some (Ok labels) => Some (Ok (labels, count))
          end
      end
  end.

Fixpoint label_all {V} (wal : dict (dict V)) (indexes : list Z)
  (acc : labelling * Z) : option (result labelling) :=
  match indexes with
  | [] => Some (Ok (fst acc))
  | index :: r =>
      match label_from wal acc index with
      | None => None
      | Some (Raise e) => Some (Raise e)
      | Some (Ok acc) => label_all wal r acc
      end
  end.

(** [_generate_labels]; [None] stands for a [while] loop that does not
    end, which [_generate_labels_terminates] excludes. *)
Definition _generate_labels {V} (weighted_adjacency_list : dict (dict V))
  (d : DBSTREAM) : option (result labelling) :=
  let labels : labelling :=
    map (fun i => (i, None)) (Dict.keys (micro_clusters d)) in
  label_all weighted_adjacency_list (Dict.keys labels) (labels, (-1)%Z).

(** [max(cluster_labels.values())]: [ValueError] on no value at all,
    [TypeError] when a value is [None]. *)
Fixpoint max_label (vs : list (option Z)) : result Z :=
  match vs with
  | [] => Raise ValueError
  | [Some v] => Ok v
  | Some v :: r => (m <-- max_label r ;; Ok (Z.max v m))%result
  | None :: _ => Raise TypeError
  end.

(** [range(lo, hi)] *)
Definition range (lo hi : Z) : list Z :=
  map (fun n => (lo + Z.of_nat n)%Z) (seq 0 (Z.to_nat (hi - lo))).

(** [cluster.merge(other)] on the object at [self]. *)
Definition merge (self cluster : addr) : M unit :=
  fun d =>
    match merge_value (heap d self) (heap d cluster) with
    | Ok m => (Ok tt, store self m d)
    | Raise e => (Raise e, d)
    end.

(** The micro-clusters that carry label [i], as [{j: reference}]. *)
Definition mcs_with_label (cluster_labels : labelling) (i : Z)
  (d : DBSTREAM) : result (dict addr) :=
  (r <-- rfold (fun (acc : Z * dict addr) (il : Z * option Z) =>
                  let (j, mcs_with_label_i) := acc in
                  match snd il with
                  | Some label =>
                      if Z.eqb label i then
                        (a <-- micro_cluster (fst il) d ;;
                         Ok ((j + 1)%Z, Dict.set j a mcs_with_label_i))%result
                      else Ok acc
                  | None => Ok acc
                  end)
               (Dict.items cluster_labels) (0%Z, Dict.empty) ;;
   Ok (snd r))%result.

(** One turn of [for i in range(max(...) + 1):].  [macro_cluster] is the
    reference stored under index [0]: the merges assign to the attributes
    of the object it shares with [self.micro_clusters]. *)
Definition macro_cluster_of_label (cluster_labels : labelling)
  (clusters : dict addr) (i : Z) : M (dict addr) :=
  (mcs_with_label_i <- reads (mcs_with_label cluster_labels i) ;;
   macro_cluster <- reads (fun _ => Dict.getitem 0%Z mcs_with_label_i) ;;
   for_each (range 1 (Dict.len mcs_with_label_i))
     (fun m =>
        other <- reads (fun _ => Dict.getitem m mcs_with_label_i) ;;
        merge macro_cluster other) ;;
   ret (Dict.set i macro_cluster clusters))%m.

Definition _generate_clusters_from_labels (cluster_labels : labelling)
  : M (Z * dict addr) :=
  (mx <- reads (fun _ => max_label (Dict.values cluster_labels)) ;;
   clusters <- foldM (macro_cluster_of_label cluster_labels)
                     (range 0 (mx + 1)) Dict.empty ;;
   ret (Dict.len clusters, clusters))%m.

(** The outcome of the labelling; its loops always end
    ([_generate_labels_terminates]), so the second case is never taken. *)
Definition labels_outcome (o : option (result labelling))
  : result labelling :=
  match o with
  | Some r => r
  | None => Raise RuntimeError
  end.

Definition _recluster : M unit :=
  (weighted_adjacency_list <- reads _generate_weighted_adjacency_matrix ;;
   labels <- reads (fun d =>
               labels_outcome (_generate_labels weighted_adjacency_list d)) ;;
   nc <- _generate_clusters_from_labels labels ;;
   modify (fun d =>
     set_reclustering (fst nc) (snd nc)
       (map (fun ia : Z * addr => (fst ia, center (heap d (snd ia))))
            (snd nc)) d))%m.

(** ** The public methods *)

Definition learn_one (x : point) : M unit :=
  (_update x ;;
   ts <- gets time_stamp ;;
   ci <- gets cleanup_interval ;;
   if Z.eqb ci 0 then raise ZeroDivisionError
   else if Z.eqb (ts mod ci) 0 then _cleanup
   else ret tt)%m.

(** The scan of [predict_one]: [min_distance] starts at [math.inf], here
    [None], below which every distance lies. *)
Definition closer (distance : R) (min_distance : option R) : bool :=
  match min_distance with
  | None => true
  | Some m => Rltb distance m
  end.

Definition closest_center (x : point) (centers : dict point)
  : result (option R * Z) :=
  rfold (fun (acc : option R * Z) (ic : Z * point) =>
           (distance <-- _distance (snd ic) x ;;
            if closer distance (fst acc) then Ok (Some distance, fst ic)
            else Ok acc)%result)
        (Dict.items centers) (None, 0%Z).

Definition predict_one (x : point) : M Z :=
  (_recluster ;;
   r <- reads (fun d => closest_center x (centers d)) ;;
   ret (snd r))%m.

(** * Vocabulary of the properties *)

(** ** Assertions on state transformers and on states *)

(** [preserves P c]: whatever its outcome, [c] leaves a state in [P]. *)
Definition preserves {A} (P : DBSTREAM -> Prop) (c : M A) : Prop :=
  forall d, P d -> P (snd (c d)).

(** What [_update] and [merge] keep true of an object of the store at
    clock [ts]. *)
Definition sound_micro_cluster (ts : Z) (m : DBSTREAMMicroCluster) : Prop :=
  1 <= weight m /\ (last_update m <= ts)%Z.

Definition sound_weights (d : DBSTREAM) : Prop :=
  forall i a, In (i, a) (micro_clusters d) ->
    sound_micro_cluster (time_stamp d) (heap d a).

(** The states an instance goes through: construction, then calls of the
    two public methods, whether they return or raise. *)
Inductive reachable : DBSTREAM -> Prop :=
| reachable_init r ff ci al mw : reachable (init r ff ci al mw)
| reachable_learn d x : reachable d -> reachable (snd (learn_one x d))
| reachable_predict d x : reachable d -> reachable (snd (predict_one x d)).

(** During reclustering the dictionary [micro_clusters] stays as it is;
    only the objects it refers to are assigned to. *)
Definition sound_at (m0 : dict addr) (d : DBSTREAM) : Prop :=
  sound_weights d /\ micro_clusters d = m0.

(** [only_KeyError c]: when [c] raises, it raises [KeyError]. *)
Definition only_KeyError {A} (c : M A) : Prop :=
  forall d e, fst (c d) = Raise e -> e = KeyError.

Definition config (d : DBSTREAM) : R * R * Z * R * R :=
  (clustering_threshold d, fading_factor d, cleanup_interval d,
   minimum_weight d, intersection_factor d).

Definition has_config (c : R * R * Z * R * R) (d : DBSTREAM) : Prop :=
  config d = c.

(** ** Merging a group, on values *)

(** [macro_cluster = group[0]], then [macro_cluster.merge(group[m])] for
    the others in turn, on values. *)
Definition reduce_by_merge (group : list DBSTREAMMicroCluster)
  : result DBSTREAMMicroCluster :=
  match group with
  | [] => Raise KeyError
  | first :: others => rfold merge_value others first
  end.

Definition coordinate (k : Z) (m : DBSTREAMMicroCluster) : R :=
  match Dict.get k (center m) with
  | Some v => v
  | None => 0
  end.

Definition total_weight (group : list DBSTREAMMicroCluster) : R :=
  fold_right (fun m acc => weight m + acc) 0 group.

Definition weighted_sum (k : Z) (group : list DBSTREAMMicroCluster) : R :=
  fold_right (fun m acc => weight m * coordinate k m + acc) 0 group.

(** [m.weight == 0] *)
Definition weightless (m : DBSTREAMMicroCluster) : bool :=
  if Req_dec_T (weight m) 0 then true else false.

(** The number of members of weight zero. *)
Definition zero_weights (group : list DBSTREAMMicroCluster) : nat :=
  length (filter weightless group).

(** Weights 0, 2 and 3; the second center has its keys in the other
    order. *)
Definition mixed_group : list DBSTREAMMicroCluster :=
  [ mkMicroCluster [(0%Z, 1); (1%Z, 2)] 0 0;
    mkMicroCluster [(1%Z, 2); (0%Z, 3)] 1 2;
    mkMicroCluster [(0%Z, 5); (1%Z, 8)] 2 3 ].

(** Two micro-clusters of weight zero and one of weight one. *)
Definition zero_a : DBSTREAMMicroCluster := mkMicroCluster [(0%Z, 1)] 0 0.
Definition zero_b : DBSTREAMMicroCluster := mkMicroCluster [(0%Z, 3)] 0 0.
Definition unit_c : DBSTREAMMicroCluster := mkMicroCluster [(0%Z, 2)] 0 1.

(** A micro-cluster of weight one over the keys 0 and 1. *)
Definition unit_plane : DBSTREAMMicroCluster :=
  mkMicroCluster [(0%Z, 4); (1%Z, 6)] 0 1.

(** ** Graphs for the labelling *)

(** Three micro-clusters under the keys 0, 1 and 2. *)
Definition three_micro_clusters : DBSTREAM :=
  mkDBSTREAM 3 1 1 4 1 (3 / 10) 0 Dict.empty Dict.empty
    [(0%Z, 0%nat); (1%Z, 1%nat); (2%Z, 2%nat)] Dict.empty Dict.empty
    (fun a => mkMicroCluster [(0%Z, INR a)] 0 2) 3%nat.

(** Kept edges 0-1 and 1-2: one connected component. *)
Definition chain : dict (dict R) := [(0%Z, [(1%Z, 1)]); (1%Z, [(2%Z, 1)])].

(** Kept edges 0-2 and 1-2: one connected component as well. *)
Definition fan : dict (dict R) := [(0%Z, [(2%Z, 1)]); (1%Z, [(2%Z, 1)])].

(** ** The steps of [_update] *)

(** [establishes Pre Post c]: from a state in [Pre], a run of [c] that
    returns ends in [Post]. *)
Definition establishes {A} (Pre Post : DBSTREAM -> Prop) (c : M A) : Prop :=
  forall d a d', Pre d -> c d = (Ok a, d') -> Post d'.

(** The entry of a pair in a graph: [g[i][j]] when both keys exist. *)
Definition entry {V} (i j : Z) (g : dict (dict V)) : option V :=
  match Dict.get i g with
  | Some row => Dict.get j row
  | None => None
  end.

Definition no_edge (i j : Z) (d : DBSTREAM) : Prop := entry i j (s d) = None.

Definition blank_edge (i j : Z) (d : DBSTREAM) : Prop :=
  entry i j (s d) = Some 0 /\ entry i j (s_t d) = Some 0%Z.

(** The branch of [_update] that has found the neighbours [nn]. *)
Definition update_neighbors (x : point) (nn : dict addr) : M unit :=
  (current_centers <-
     foldM (update_neighbor x nn) (Dict.keys nn) Dict.empty ;;
   prevent_collapsing nn current_centers)%m.

(** [same_store d d']: [d'] has the objects, the store, the clock and the
    configuration of [d]. *)
Definition same_store (d d' : DBSTREAM) : Prop :=
  heap d' = heap d /\ micro_clusters d' = micro_clusters d /\
  time_stamp d' = time_stamp d /\ config d' = config d.

(** [graph_only c]: [c] returns, and changes at most the shared density
    graph. *)
Definition graph_only (c : M unit) : Prop :=
  forall d, exists d', c d = (Ok tt, d') /\ same_store d d'.

(** The center that the first loop of [_update] computes for the object
    at [a]. *)
Definition moved (x : point) (d : DBSTREAM) (a : addr) : result point :=
  moved_center x (center (heap d a)) (Dict.items (center (heap d a))) d.

(** The object that [update_neighbor] leaves at address [a]. *)
Definition updated (d : DBSTREAM) (a : addr) (m : point)
  : DBSTREAMMicroCluster :=
  mkMicroCluster m (time_stamp d)
    (weight (heap d a)
     * pow2 (- fading_factor d * IZR (time_stamp d - last_update (heap d a)))
     + 1).

(** [self.micro_clusters[...].center = c] on the object at [a]. *)
Definition set_center (a : addr) (c : point) (d : DBSTREAM) : DBSTREAM :=
  store a (with_center c (heap d a)) d.

Definition distinct_objects (d : DBSTREAM) : Prop :=
  NoDup (Dict.values (micro_clusters d)) /\
  forall a, In a (Dict.values (micro_clusters d)) -> (a < next_addr d)%nat.

(** ** Distances of moved centers *)

(** The coordinate of a point at a key; 0 where the point has none. *)
Definition at_key (k : Z) (p : point) : R :=
  match Dict.get k p with
  | Some v => v
  | None => 0
  end.

(** The square of the Euclidean distance of two points, over the keys
    [K]. *)
Definition sqdist (K : list Z) (a b : point) : R :=
  fold_right
    (fun k acc => (at_key k a - at_key k b) * (at_key k a - at_key k b) + acc)
    0 K.

(** [far_apart th a b]: the distance of [a] and [b] is defined and is
    not below [th]. *)
Definition far_apart (th : R) (a b : point) : Prop :=
  exists dist, _distance a b = Ok dist /\ th <= dist.

(** ** Concrete streams *)

(** A point of the plane, [{0: a, 1: b}]. *)
Definition pt2 (a b : R) : point := [(0%Z, a); (1%Z, b)].

(** [DBSTREAM(clustering_threshold=1.5, fading_factor=-1,
    cleanup_interval=4, intersection_factor=0.3, minimum_weight=1)] *)
Definition fading_out : DBSTREAM := init (3 / 2) (-1) 4 (3 / 10) 1.


(** [DBSTREAM(clustering_threshold=1.5, fading_factor=1,
    cleanup_interval=100, intersection_factor=0.3, minimum_weight=1)] *)
Definition steady : DBSTREAM := init (3 / 2) 1 100 (3 / 10) 1.

(** The points (0, 0) and (2.8, 0) are further apart than the threshold
    and make a micro-cluster each. *)
Definition two_apart : DBSTREAM :=
  snd (learn_one (pt2 (14 / 5) 0) (snd (learn_one (pt2 0 0) steady))).

(** The point (1.4, 0) lies within the threshold of both. *)
Definition between : point := pt2 (7 / 5) 0.

(** The point between the two micro-clusters, twice: the first call
    creates the edge (0, 1), the second gives it the value 1. *)
Definition shared : DBSTREAM :=
  snd (learn_one between (snd (learn_one between two_apart))).

(** [DBSTREAM(clustering_threshold=3, fading_factor=1,
    cleanup_interval=100, intersection_factor=0.3, minimum_weight=1)] *)
Definition wide : DBSTREAM := init 3 1 100 (3 / 10) 1.

(** Three points further apart than the threshold, all of them within
    the threshold of the origin. *)
Definition three_apart : DBSTREAM :=
  snd (learn_one (pt2 (1 / 2) (14 / 5))
         (snd (learn_one (pt2 2 0) (snd (learn_one (pt2 (-1) 0) wide))))).

(** The point that is learnt next. *)
Definition origin : point := pt2 0 0.

(** The points (-1, 0) and (2, 0) are as far apart as the threshold and
    make a micro-cluster each; the origin is within the threshold of both
    and moves them to within the threshold of each other. *)
Definition two_close : DBSTREAM :=
  snd (learn_one (pt2 2 0) (snd (learn_one (pt2 (-1) 0) wide))).

(** [DBSTREAM(clustering_threshold=1.5, fading_factor=1,
    cleanup_interval=-2, intersection_factor=0.3, minimum_weight=1)]: the
    constructor stores the interval as it is given. *)
Definition backwards : DBSTREAM := init (3 / 2) 1 (-2) (3 / 10) 1.

(** The state after the first point. *)
Definition one_learnt : DBSTREAM := snd (learn_one (pt2 0 0) backwards).


(** A state written down, not reached: at the clock 4, two micro-clusters
    and the edge (0, 1) with the density 1/100, last updated at 3. *)
Definition stale_edge : DBSTREAM :=
  mkDBSTREAM 4 (3 / 2) 1 1 1 (3 / 10) 0 [] []
    [(0%Z, 0%nat); (1%Z, 1%nat)]
    [(0%Z, [(1%Z, 1 / 100)])] [(0%Z, [(1%Z, 3%Z)])]
    (fun a => mkMicroCluster (pt2 (INR a * 3) 0) 3 2) 2%nat.

(** ** Assertions of the further properties *)

(** Parts [f] of the state that assignments to the graph, to the objects,
    to the store and to the results of the reclustering leave as they
    are. *)
Definition graph_free {T} (f : DBSTREAM -> T) : Prop :=
  (forall g d, f (set_s g d) = f d) /\
  (forall g d, f (set_s_t g d) = f d).

Definition object_free {T} (f : DBSTREAM -> T) : Prop :=
  forall a m d, f (store a m d) = f d.

Definition result_free {T} (f : DBSTREAM -> T) : Prop :=
  forall n cl ce d, f (set_reclustering n cl ce d) = f d.

Definition heap_free {T} (f : DBSTREAM -> T) : Prop :=
  forall h n d, f (set_heap h n d) = f d.

Definition store_free {T} (f : DBSTREAM -> T) : Prop :=
  forall m d, f (set_micro_clusters m d) = f d.

(** The test of [_find_fixed_radius_nn] on an entry of the store. *)
Definition in_radius (x : point) (d : DBSTREAM) (ia : Z * addr) : bool :=
  match _distance (center (heap d (snd ia))) x with
  | Ok dist => Rltb dist (clustering_threshold d)
  | Raise _ => false
  end.

(** [first_nearest x cs acc]: the pair [acc] of a distance and a key is
    what the scan holds after the centers [cs]: nothing and the default
    key 0 when there is no center, otherwise the distance and the key of
    a center that is strictly nearer to [x] than every center before it
    and at least as near as every center after it. *)
Definition first_nearest (x : point) (cs : dict point)
  (acc : option R * Z) : Prop :=
  match fst acc with
  | None => cs = [] /\ snd acc = 0%Z
  | Some m =>
      exists pre c post,
        cs = pre ++ (snd acc, c) :: post /\
        _distance c x = Ok m /\
        (forall kc, In kc pre ->
           exists m', _distance (snd kc) x = Ok m' /\ m < m') /\
        (forall kc, In kc post ->
           exists m', _distance (snd kc) x = Ok m' /\ m <= m')
  end.

(** [labelled k labels]: [labels[k]] is a label, not [None]. *)
Definition labelled (k : Z) (labels : labelling) : Prop :=
  exists c, Dict.get k labels = Some (Some c).

(** The labels over the keys [K] are the numbers from 0 to [count], each
    of them in use. *)
Definition labels_upto (K : list Z) (count : Z) (labels : labelling)
  : Prop :=
  Dict.keys labels = K /\
  (forall k c, Dict.get k labels = Some (Some c) -> (0 <= c <= count)%Z) /\
  (forall c, (0 <= c <= count)%Z ->
             exists k, Dict.get k labels = Some (Some c)).

(** The adjacency list names, as a neighbour in the row of some key, a
    key that is not among [K]: the only way the labelling raises, and it
    raises [KeyError]. *)
Definition dangling_neighbor {V} (wal : dict (dict V)) (K : list Z)
  (e : exn) : Prop :=
  e = KeyError /\
  exists i row j,
    Dict.get i wal = Some row /\ In j (Dict.keys row) /\ ~ In j K.

Definition from_rows {V} (wal : dict (dict V)) (seed_set : list Z)
  : Prop :=
  forall h, In h seed_set ->
    exists i row, Dict.get i wal = Some row /\ In h (Dict.keys row).

Definition grows (labels labels' : labelling) : Prop :=
  forall k, labelled k labels -> labelled k labels'.

(** [kept_edge d i j v]: the pair [(i, j)] has an entry in the shared
    density graph, both micro-clusters are in the store with a weight of
    at least [minimum_weight], and the entry divided by the mean of the
    two weights is [v], above [intersection_factor]. *)
Definition kept_edge (d : DBSTREAM) (i j : Z) (v : R) : Prop :=
  exists ai aj sij,
    Dict.get i (micro_clusters d) = Some ai /\
    Dict.get j (micro_clusters d) = Some aj /\
    entry i j (s d) = Some sij /\
    weight (heap d ai) >= minimum_weight d /\
    weight (heap d aj) >= minimum_weight d /\
    v = sij / ((weight (heap d ai) + weight (heap d aj)) / 2) /\
    v > intersection_factor d.

(** Why [_generate_weighted_adjacency_matrix] raises at the pair
    [(i, j)]: a micro-cluster of the pair is not in the store, or the
    two weights add up to zero. *)
Definition bad_edge (d : DBSTREAM) (i j : Z) (e : exn) : Prop :=
  (e = KeyError /\
   (Dict.get i (micro_clusters d) = None \/
    Dict.get j (micro_clusters d) = None \/
    entry i j (s d) = None)) \/
  (e = ZeroDivisionError /\
   exists ai aj,
     Dict.get i (micro_clusters d) = Some ai /\
     Dict.get j (micro_clusters d) = Some aj /\
     weight (heap d ai) + weight (heap d aj) = 0).

Definition agrees (d : DBSTREAM) (wam : dict (dict R))
  (pairs : list (Z * Z)) : Prop :=
  forall i j v,
    entry i j wam = Some v <-> In (i, j) pairs /\ kept_edge d i j v.

(** The pairs that the loops visit under the key [i]. *)
Definition pairs_of (d : DBSTREAM) (i : Z) : list (Z * Z) :=
  match Dict.get i (s d) with
  | Some row => map (pair i) (Dict.keys row)
  | None => []
  end.

(** The keys of a graph: the keys of [g] and, for each, the keys of the
    row under it, in order. *)
Definition graph_keys {V} (g : dict (dict V)) : list (Z * list Z) :=
  map (fun r => (fst r, Dict.keys (snd r))) g.

(** [self.s] and [self.s_t] have the same keys, row by row. *)
Definition aligned (d : DBSTREAM) : Prop :=
  graph_keys (s d) = graph_keys (s_t d).

(** [c] returns from [d] and changes at most the values of the graph:
    the keys of [s] and [s_t], the store and the objects are those of
    [d]. *)
Definition zeroes_only (c : M unit) (d : DBSTREAM) : Prop :=
  exists d',
    c d = (Ok tt, d') /\
    graph_keys (s d') = graph_keys (s d) /\
    graph_keys (s_t d') = graph_keys (s_t d) /\
    micro_clusters d' = micro_clusters d /\
    heap d' = heap d /\
    time_stamp d' = time_stamp d /\
    config d' = config d.

(** Every entry of the graph is stored under the smaller key of its pair
    and is not negative. *)
Definition ordered (d : DBSTREAM) : Prop :=
  forall i j v, entry i j (s d) = Some v -> (i < j)%Z /\ 0 <= v.

(** [dims K p]: the point (or center) [p] has as many entries as [K]
    has features, and its keys are those of [K], in any order. *)
Definition dims (K : list Z) (p : point) : Prop :=
  length p = length K /\ forall k, In k (Dict.keys p) <-> In k K.

(** Every stored center is over the features [K]. *)
Definition stored_dims (K : list Z) (d : DBSTREAM) : Prop :=
  forall i a, In (i, a) (micro_clusters d) -> dims K (center (heap d a)).

(** The states of an instance that is fed points over the features [K]
    only. *)
Inductive fed (K : list Z) : DBSTREAM -> Prop :=
| fed_init r ff ci al mw : fed K (init r ff ci al mw)
| fed_learn d x : fed K d -> dims K x -> fed K (snd (learn_one x d))
| fed_predict d x : fed K d -> fed K (snd (predict_one x d)).

(** Every entry of the shared density graph is between keys of [K]. *)
Definition edges_within (K : list Z) (d : DBSTREAM) : Prop :=
  forall i j v, entry i j (s d) = Some v -> In i K /\ In j K.

(** Every entry of the shared density graph is between keys of the
    store. *)
Definition edges_in_store (d : DBSTREAM) : Prop :=
  edges_within (Dict.keys (micro_clusters d)) d.

(** What the merges of the reclustering rely on and keep: the store is
    [m0], every stored center is over the features [K], and every stored
    weight is at least 1. *)
Definition mergeable (K : list Z) (m0 : dict addr) (d : DBSTREAM) : Prop :=
  micro_clusters d = m0 /\ stored_dims K d /\ sound_weights d.

(** The pair [(i, j)] has the shared density [v], last updated at [t]. *)
Definition edge_is (i j : Z) (v : R) (t : Z) (d : DBSTREAM) : Prop :=
  entry i j (s d) = Some v /\ entry i j (s_t d) = Some t.

(** The clock shows [ts] and the fading factor is [ff]. *)
Definition at_clock (ts : Z) (ff : R) (d : DBSTREAM) : Prop :=
  time_stamp d = ts /\ fading_factor d = ff.

(** The clock and the parameters that the test of [_cleanup] on an entry
    of the graph reads. *)
Definition cleanup_reads (ts : Z) (ff al : R) (d : DBSTREAM) : Prop :=
  time_stamp d = ts /\ fading_factor d = ff /\ intersection_factor d = al.

(** The test of [_cleanup] on a shared density [v] last updated at [t]. *)
Definition weak_entry (ww : R) (ts : Z) (ff al : R) (v : R) (t : Z)
  : bool :=
  Rltb (v * pow2 (ff * IZR (ts - t))) (al * ww).

(** The entry of the pair [(i, j)] while [_cleanup] runs: as it was, or
    already set to 0 because it is weak. *)
Definition being_cleaned (ww : R) (ts : Z) (ff al : R) (i j : Z) (v : R)
  (t : Z) (d : DBSTREAM) : Prop :=
  cleanup_reads ts ff al d /\
  (edge_is i j v t d \/
   (weak_entry ww ts ff al v t = true /\ edge_is i j 0 0%Z d)).

(** The entry of the pair [(i, j)] when [_cleanup] has visited it. *)
Definition cleaned (ww : R) (ts : Z) (ff al : R) (i j : Z) (v : R)
  (t : Z) (d : DBSTREAM) : Prop :=
  cleanup_reads ts ff al d /\
  if weak_entry ww ts ff al v t then edge_is i j 0 0%Z d
  else edge_is i j v t d.

(** ** Time stamps, and the exponents of the powers of two *)


(** The exponents of the three kinds of [2 ** x] that [_cleanup]
    evaluates at [d] are below 1024: the float operation [2 ** x] has
    its result in the range of a float there, and raises [OverflowError]
    from 1024 on, which [pow2] does not model. *)
Definition cleanup_in_range (d : DBSTREAM) : Prop :=
  - fading_factor d * IZR (cleanup_interval d) < 1024 /\
  (forall k a, In (k, a) (micro_clusters d) ->
     fading_factor d * IZR (time_stamp d - last_update (heap d a)) < 1024) /\
  (forall i j t, entry i j (s_t d) = Some t ->
     fading_factor d * IZR (time_stamp d - t) < 1024).


(** * Properties *)

(** ** Dictionaries *)

Section DictFacts.
Variable V : Type.
Implicit Types (d : dict V) (k : Z) (v : V).

Lemma get_set_same d k v : Dict.get k (Dict.set k v d) = Some v.
Proof.
  induction d as [|[k' v'] r IH]; simpl.
  - now rewrite Z.eqb_refl.
  - destruct (Z.eqb_spec k k') as [->|Hne]; simpl.
    + now rewrite Z.eqb_refl.
    + destruct (Z.eqb_spec k k'); [contradiction|exact IH].
Qed.

Lemma get_set_other d k k' v :
  k <> k' -> Dict.get k (Dict.set k' v d) = Dict.get k d.
Proof.
  intros Hne.
  induction d as [|[k0 v0] r IH]; simpl.
  - destruct (Z.eqb_spec k k'); [contradiction|reflexivity].
  - destruct (Z.eqb_spec k' k0) as [->|Hne0]; simpl.
    + destruct (Z.eqb_spec k k0); [contradiction|reflexivity].
    + destruct (Z.eqb_spec k k0); [reflexivity|exact IH].
Qed.

Lemma get_In d k v : Dict.get k d = Some v -> In (k, v) d.
Proof.
  induction d as [|[k' v'] r IH]; simpl; [discriminate|].
  destruct (Z.eqb_spec k k') as [->|Hne].
  - intros [= ->]. now left.
  - intros H. right. now apply IH.
Qed.

Lemma In_keys_get d k :
  In k (Dict.keys d) -> exists v, Dict.get k d = Some v.
Proof.
  induction d as [|[k' v'] r IH]; simpl; [contradiction|].
  intros [->|Hin].
  - rewrite Z.eqb_refl. now exists v'.
  - destruct (Z.eqb_spec k k'); [now exists v'|now apply IH].
Qed.

Lemma get_In_keys d k v : Dict.get k d = Some v -> In k (Dict.keys d).
Proof.
  intros H. apply get_In in H. unfold Dict.keys.
  change k with (fst (k, v)). now apply in_map.
Qed.

Lemma get_None_keys d k : Dict.get k d = None -> ~ In k (Dict.keys d).
Proof.
  intros H Hin. apply In_keys_get in Hin as [v Hv]. congruence.
Qed.

Lemma keys_set_present d k v :
  In k (Dict.keys d) -> Dict.keys (Dict.set k v d) = Dict.keys d.
Proof.
  induction d as [|[k' v'] r IH]; simpl; [contradiction|].
  destruct (Z.eqb_spec k k') as [->|Hne]; simpl; [reflexivity|].
  intros [Heq|Hin]; [congruence|]. f_equal. now apply IH.
Qed.

Lemma keys_set_absent d k v :
  ~ In k (Dict.keys d) -> Dict.keys (Dict.set k v d) = Dict.keys d ++ [k].
Proof.
  induction d as [|[k' v'] r IH]; simpl; [reflexivity|].
  intros Hn. destruct (Z.eqb_spec k k') as [->|Hne]; simpl.
  - exfalso. apply Hn. now left.
  - f_equal. apply IH. intros Hin. apply Hn. now right.
Qed.

Lemma length_set_present d k v :
  In k (Dict.keys d) -> length (Dict.set k v d) = length d.
Proof.
  intros H. apply (keys_set_present _ _ v) in H.
  apply (f_equal (@length Z)) in H. unfold Dict.keys in H.
  now rewrite !length_map in H.
Qed.

Lemma In_keys_set d k k' v :
  In k (Dict.keys (Dict.set k' v d)) <-> k = k' \/ In k (Dict.keys d).
Proof.
  destruct (in_dec Z.eq_dec k' (Dict.keys d)) as [Hin|Hn].
  - rewrite keys_set_present by assumption. split; [now right|].
    intros [->|H]; assumption.
  - rewrite keys_set_absent by assumption. rewrite in_app_iff. simpl.
    split; [intros [H|[H|[]]]; auto|intros [->|H]; auto].
Qed.

Lemma NoDup_keys_set d k v :
  NoDup (Dict.keys d) -> NoDup (Dict.keys (Dict.set k v d)).
Proof.
  intros Hnd. destruct (in_dec Z.eq_dec k (Dict.keys d)) as [Hin|Hn].
  - now rewrite keys_set_present.
  - rewrite keys_set_absent by assumption.
    apply NoDup_app; [assumption|repeat constructor; intros []|].
    intros x Hx [<-|[]]. contradiction.
Qed.

Lemma In_set d k v kv :
  In kv (Dict.set k v d) -> kv = (k, v) \/ In kv d.
Proof.
  induction d as [|[k' v'] r IH]; simpl.
  - intros [<-|[]]. now left.
  - destruct (Z.eqb_spec k k') as [->|Hne]; simpl.
    + intros [<-|H]; auto.
    + intros [<-|H]; auto. destruct (IH H); auto.
Qed.

Lemma length_pop d k :
  In k (Dict.keys d) -> length d = S (length (Dict.pop k d)).
Proof.
  induction d as [|[k' v'] r IH]; simpl; [contradiction|].
  destruct (Z.eqb_spec k k') as [->|Hne]; [reflexivity|].
  intros [Heq|Hin]; [congruence|]. simpl. f_equal. now apply IH.
Qed.

Lemma In_pop d k kv : In kv (Dict.pop k d) -> In kv d.
Proof.
  induction d as [|[k' v'] r IH]; simpl; [tauto|].
  destruct (Z.eqb_spec k k'); simpl; [tauto|].
  intros [H|H]; auto.
Qed.
End DictFacts.

(** ** Real-number facts used for the decay *)

Lemma Rltb_true a b : a < b -> Rltb a b = true.
Proof.
  intros H. unfold Rltb. destruct (Rlt_dec a b); [reflexivity|contradiction].
Qed.

Lemma Rltb_false a b : b <= a -> Rltb a b = false.
Proof. intros H. unfold Rltb. destruct (Rlt_dec a b); [lra|reflexivity]. Qed.

Lemma Rltb_spec a b : Rltb a b = true <-> a < b.
Proof.
  unfold Rltb. destruct (Rlt_dec a b); split; intros; try reflexivity;
    try assumption; try discriminate; contradiction.
Qed.

Lemma Rgeb_true a b : a >= b -> Rgeb a b = true.
Proof.
  intros H. unfold Rgeb. destruct (Rge_dec a b); [reflexivity|contradiction].
Qed.

Lemma Rgeb_false a b : a < b -> Rgeb a b = false.
Proof. intros H. unfold Rgeb. destruct (Rge_dec a b); [lra|reflexivity]. Qed.

Lemma Rgtb_true a b : a > b -> Rgtb a b = true.
Proof.
  intros H. unfold Rgtb. destruct (Rgt_dec a b); [reflexivity|contradiction].
Qed.

Lemma Rgtb_false a b : a <= b -> Rgtb a b = false.
Proof. intros H. unfold Rgtb. destruct (Rgt_dec a b); [lra|reflexivity]. Qed.

Lemma truediv_ok a b : b <> 0 -> truediv a b = Ok (a / b).
Proof.
  intros H. unfold truediv.
  destruct (Req_dec_T b 0); [contradiction|reflexivity].
Qed.

Lemma truediv_zero a : truediv a 0 = Raise ZeroDivisionError.
Proof. unfold truediv. destruct (Req_dec_T 0 0); [reflexivity|congruence]. Qed.

Lemma math_sqrt_ok v : 0 <= v -> math_sqrt v = Ok (sqrt v).
Proof.
  intros H. unfold math_sqrt. destruct (Rlt_dec v 0); [lra|reflexivity].
Qed.

Lemma pow2_pos x : 0 < pow2 x.
Proof. unfold pow2, Rpower. apply exp_pos. Qed.

Lemma pow2_0 : pow2 0 = 1.
Proof. unfold pow2. apply Rpower_O. lra. Qed.

Lemma pow2_lt x y : x < y -> pow2 x < pow2 y.
Proof. intros H. unfold pow2. apply Rpower_lt; lra. Qed.

Lemma pow2_ge_1 x : 0 <= x -> 1 <= pow2 x.
Proof.
  intros [H|<-]; [|rewrite pow2_0; lra].
  rewrite <- pow2_0. left. now apply pow2_lt.
Qed.

Lemma pow2_lt_1 x : x < 0 -> pow2 x < 1.
Proof. intros H. rewrite <- pow2_0. now apply pow2_lt. Qed.

(** ** Reasoning about state transformers *)

Lemma bind_Ok_inv {A B} (c : M A) (k : A -> M B) d b d' :
  bind c k d = (Ok b, d') ->
  exists a d1, c d = (Ok a, d1) /\ k a d1 = (Ok b, d').
Proof.
  unfold bind. destruct (c d) as [[a|e] d1]; [|discriminate].
  intros H. now exists a, d1.
Qed.

Lemma bind_Ok {A B} (c : M A) (k : A -> M B) d a d1 :
  c d = (Ok a, d1) -> bind c k d = k a d1.
Proof. unfold bind. now intros ->. Qed.

Lemma bind_Raise {A B} (c : M A) (k : A -> M B) d e d1 :
  c d = (Raise e, d1) -> bind c k d = (Raise e, d1).
Proof. unfold bind. now intros ->. Qed.

Lemma preserves_ret {A} P (a : A) : preserves P (ret a).
Proof. intros d H. exact H. Qed.

Lemma preserves_raise {A} P e : preserves P (@raise A e).
Proof. intros d H. exact H. Qed.

Lemma preserves_reads {A} P (f : DBSTREAM -> result A) : preserves P (reads f).
Proof. intros d H. exact H. Qed.

Lemma preserves_gets {A} P (f : DBSTREAM -> A) : preserves P (gets f).
Proof. intros d H. exact H. Qed.

Lemma preserves_modify P f :
  (forall d, P d -> P (f d)) -> preserves P (modify f).
Proof. intros Hf d H. now apply Hf. Qed.

Lemma preserves_bind {A B} P (c : M A) (k : A -> M B) :
  preserves P c -> (forall a, preserves P (k a)) -> preserves P (bind c k).
Proof.
  intros Hc Hk d H. unfold bind. specialize (Hc d H).
  destruct (c d) as [[a|e] d1]; simpl in *; [now apply Hk|exact Hc].
Qed.

Lemma preserves_try {A} P (c h : M A) :
  preserves P c -> preserves P h -> preserves P (try_KeyError c h).
Proof.
  intros Hc Hh d H. unfold try_KeyError. specialize (Hc d H).
  destruct (c d) as [[a|[]] d1]; simpl in *; try exact Hc. now apply Hh.
Qed.

Lemma preserves_foldM {A B} P (f : B -> A -> M B) l :
  (forall b a, preserves P (f b a)) -> forall b, preserves P (foldM f l b).
Proof.
  intros Hf. induction l as [|a l IH]; intros b; simpl.
  - apply preserves_ret.
  - apply preserves_bind; [apply Hf|intros b'; apply IH].
Qed.

Lemma preserves_for_each {A} P (l : list A) body :
  (forall a, preserves P (body a)) -> preserves P (for_each l body).
Proof. intros H. apply preserves_foldM. intros _ a. apply H. Qed.

Lemma preserves_if {A} P (b : bool) (c1 c2 : M A) :
  preserves P c1 -> preserves P c2 -> preserves P (if b then c1 else c2).
Proof. now destruct b. Qed.

Lemma preserves_for_items_checked {V} P (view : DBSTREAM -> dict V) n its body :
  (forall it, preserves P (body it)) ->
  preserves P (for_items_checked view n its body).
Proof.
  intros Hb. induction its as [|it r IH]; intros d H; simpl.
  - now destruct (negb _).
  - destruct (negb _); [exact H|].
    apply (preserves_bind (P := P)); [apply Hb| |exact H].
    intros _. exact IH.
Qed.

(** ** The first loop of [_cleanup] *)

Lemma for_items_checked_resized {V} (view : DBSTREAM -> dict V) n its body d :
  length (view d) <> n ->
  for_items_checked view n its body d = (Raise RuntimeError, d).
Proof.
  intros H. apply Nat.eqb_neq in H.
  destruct its; simpl; now rewrite H.
Qed.

Lemma cleanup_scan_keeps ww its d :
  (forall ia, In ia its -> is_weak ww d (snd ia) = false) ->
  for_items_checked micro_clusters (length (micro_clusters d)) its
    (cleanup_micro_cluster ww) d = (Ok tt, d).
Proof.
  induction its as [|ia r IH]; intros H; simpl; rewrite Nat.eqb_refl; simpl.
  - reflexivity.
  - unfold bind, cleanup_micro_cluster at 1.
    rewrite (H ia (or_introl eq_refl)).
    apply IH. intros ia' Hin. apply H. now right.
Qed.

Lemma cleanup_scan_removes ww its d :
  incl (map fst its) (Dict.keys (micro_clusters d)) ->
  (exists ia, In ia its /\ is_weak ww d (snd ia) = true) ->
  exists ia,
    In ia its /\ is_weak ww d (snd ia) = true /\
    for_items_checked micro_clusters (length (micro_clusters d)) its
      (cleanup_micro_cluster ww) d
    = (Raise RuntimeError,
       set_micro_clusters (Dict.pop (fst ia) (micro_clusters d)) d).
Proof.
  induction its as [|ia r IH]; intros Hk [ia0 [Hin Hw]]; [contradiction|].
  destruct (is_weak ww d (snd ia)) eqn:Hia.
  - exists ia. split; [now left|]. split; [exact Hia|].
    simpl. rewrite Nat.eqb_refl. simpl.
    unfold bind, cleanup_micro_cluster at 1. rewrite Hia.
    apply for_items_checked_resized. simpl.
    rewrite (length_pop (micro_clusters d) (fst ia)) at 1.
    + apply Nat.neq_succ_diag_r.
    + apply Hk. now left.
  - destruct Hin as [->|Hin]; [congruence|].
    destruct IH as [ia1 [Hin1 [Hw1 Hrun]]].
    + intros k Hkin. apply Hk. now right.
    + now exists ia0.
    + exists ia1. split; [now right|]. split; [exact Hw1|].
      simpl. rewrite Nat.eqb_refl. simpl.
      unfold bind, cleanup_micro_cluster at 1. rewrite Hia. exact Hrun.
Qed.


(** ** Weights of the stored micro-clusters *)

Lemma sound_store a (f : DBSTREAM -> DBSTREAMMicroCluster) :
  (forall d, sound_micro_cluster (time_stamp d) (heap d a) ->
             sound_micro_cluster (time_stamp d) (f d)) ->
  preserves sound_weights (modify (fun d => store a (f d) d)).
Proof.
  intros Hf. apply preserves_modify. intros d H i a' Hin.
  specialize (H i a' Hin). unfold store, heap_set. simpl.
  destruct (Nat.eqb_spec a' a) as [->|Hne]; [now apply Hf|exact H].
Qed.

Lemma sound_s_setitem i j v : preserves sound_weights (s_setitem i j v).
Proof.
  intros d H. unfold s_setitem. now destruct (setitem2 i j v (s d)).
Qed.

Lemma sound_s_t_setitem i j v : preserves sound_weights (s_t_setitem i j v).
Proof.
  intros d H. unfold s_t_setitem. now destruct (setitem2 i j v (s_t d)).
Qed.

Lemma sound_update_shared_density i j :
  preserves sound_weights (update_shared_density i j).
Proof.
  unfold update_shared_density.
  repeat first
    [ apply preserves_try | apply preserves_bind; [|intros ?]
    | apply preserves_reads | apply preserves_gets
    | apply sound_s_setitem | apply sound_s_t_setitem
    | apply preserves_modify; intros d H; exact H ].
Qed.

Lemma sound_update_neighbor x nn cc i :
  preserves sound_weights (update_neighbor x nn cc i).
Proof.
  unfold update_neighbor.
  apply preserves_bind; [apply preserves_reads|intros a].
  apply preserves_bind; [apply preserves_gets|intros c].
  apply preserves_bind.
  { apply sound_store. intros d [Hw Hl]. split; [simpl|exact Hl].
    pose proof (pow2_pos (- fading_factor d
                          * IZR (time_stamp d - last_update (heap d a)))).
    nra. }
  intros _. apply preserves_bind; [apply preserves_reads|intros c'].
  apply preserves_bind; [apply sound_store; now intros d [Hw Hl]|intros _].
  apply preserves_bind.
  { apply sound_store. intros d [Hw Hl]. split; [exact Hw|simpl; lia]. }
  intros _. apply preserves_bind; [|intros _; apply preserves_ret].
  apply preserves_for_each. intros j. apply preserves_if.
  - apply sound_update_shared_density.
  - apply preserves_ret.
Qed.

Lemma sound_prevent_collapse cc i j :
  preserves sound_weights (prevent_collapse cc i j).
Proof.
  unfold prevent_collapse.
  apply preserves_bind; [apply preserves_reads|intros ai].
  apply preserves_bind; [apply preserves_reads|intros aj].
  apply preserves_bind; [apply preserves_reads|intros dist].
  apply preserves_bind; [apply preserves_gets|intros th].
  apply preserves_if; [|apply preserves_ret].
  apply preserves_bind; [apply preserves_reads|intros ci].
  apply preserves_bind; [apply sound_store; now intros d [Hw Hl]|intros _].
  apply preserves_bind; [apply preserves_reads|intros cj].
  apply sound_store. now intros d [Hw Hl].
Qed.

Lemma sound_create_micro_cluster x :
  preserves sound_weights (create_micro_cluster x).
Proof.
  intros d H i a Hin. unfold create_micro_cluster in *. simpl in *.
  unfold heap_set.
  destruct (Nat.eqb_spec a (next_addr d)) as [->|Hne].
  - split; simpl; [lra|lia].
  - apply In_set in Hin as [[= -> ->]|Hin]; [contradiction|].
    now apply (H i).
Qed.

Lemma sound_update x : preserves sound_weights (_update x).
Proof.
  unfold _update.
  apply preserves_bind; [apply preserves_reads|intros nn].
  apply preserves_bind; [|intros _].
  - apply preserves_if; [apply sound_create_micro_cluster|].
    apply preserves_bind.
    + apply preserves_foldM. intros cc i. apply sound_update_neighbor.
    + intros cc. unfold prevent_collapsing.
      apply preserves_for_each. intros i.
      apply preserves_for_each. intros j.
      apply preserves_if; [apply sound_prevent_collapse|apply preserves_ret].
  - apply preserves_modify. intros d H i a Hin.
    destruct (H i a Hin) as [Hw Hl]. split; simpl; [exact Hw|lia].
Qed.

Lemma sound_cleanup_shared_density ww i j :
  preserves sound_weights (cleanup_shared_density ww i j).
Proof.
  unfold cleanup_shared_density.
  repeat first
    [ apply preserves_bind; [|intros ?]
    | apply preserves_reads | apply preserves_gets
    | apply preserves_if | apply preserves_ret
    | apply sound_s_setitem | apply sound_s_t_setitem ].
Qed.

Lemma sound_cleanup : preserves sound_weights _cleanup.
Proof.
  unfold _cleanup.
  apply preserves_bind; [apply preserves_gets|intros ww].
  apply preserves_bind; [|intros _].
  - intros d H. unfold for_items.
    apply (@preserves_for_items_checked _ sound_weights); [|exact H].
    intros [i a] d' H' i' a' Hin. unfold cleanup_micro_cluster in *.
    simpl in *. destruct (is_weak ww d' a); simpl in *.
    + apply (H' i'). eapply In_pop. exact Hin.
    + now apply (H' i').
  - apply preserves_bind; [apply preserves_gets|intros ks].
    apply preserves_for_each. intros i.
    apply preserves_bind; [apply preserves_reads|intros row].
    apply preserves_for_each. intros j.
    apply sound_cleanup_shared_density.
Qed.

Lemma sound_learn_one x : preserves sound_weights (learn_one x).
Proof.
  unfold learn_one.
  apply preserves_bind; [apply sound_update|intros _].
  apply preserves_bind; [apply preserves_gets|intros ts].
  apply preserves_bind; [apply preserves_gets|intros ci].
  apply preserves_if; [apply preserves_raise|].
  apply preserves_if; [apply sound_cleanup|apply preserves_ret].
Qed.

Lemma preserves_bind_reads {A B} P (f : DBSTREAM -> result A) (k : A -> M B) :
  (forall a, (exists d, P d /\ f d = Ok a) -> preserves P (k a)) ->
  preserves P (bind (reads f) k).
Proof.
  intros Hk d H. unfold bind, reads. destruct (f d) as [a|e] eqn:Hf.
  - apply Hk; [now exists d|exact H].
  - exact H.
Qed.

Lemma rfold_inv {A B} (I : B -> Prop) (f : B -> A -> result B) l :
  (forall b a b', I b -> f b a = Ok b' -> I b') ->
  forall b r, I b -> rfold f l b = Ok r -> I r.
Proof.
  intros Hf. induction l as [|a l IH]; intros b r Hb; simpl.
  - now intros [= <-].
  - destruct (f b a) as [b'|e] eqn:Hfa; simpl; [|discriminate].
    apply IH. eapply Hf; eassumption.
Qed.

Lemma mcs_with_label_members labels i d mcs :
  mcs_with_label labels i d = Ok mcs ->
  forall j a, In (j, a) mcs -> exists k, In (k, a) (micro_clusters d).
Proof.
  unfold mcs_with_label. intros H.
  destruct (rfold _ _ _) as [[n acc]|e] eqn:Hr; simpl in H; [|discriminate].
  injection H as <-.
  change ((fun acc : Z * dict addr =>
             forall j a, In (j, a) (snd acc) ->
                         exists k, In (k, a) (micro_clusters d)) (n, acc)).
  eapply rfold_inv; cycle 2; [exact Hr| |intros ? ? []].
  clear. intros [n acc] [k l] [n' acc'] Hacc; simpl.
  destruct l as [label|]; [|now intros [= <- <-]].
  destruct (Z.eqb label i); [|now intros [= <- <-]].
  unfold micro_cluster, Dict.getitem.
  destruct (Dict.get k (micro_clusters d)) as [a|] eqn:Hg; simpl;
    [|discriminate].
  intros [= <- <-] j a' Hin. simpl in Hin.
  apply In_set in Hin as [[= -> ->]|Hin]; [|now apply (Hacc j)].
  exists k. now apply get_In.
Qed.

Lemma sound_merge m0 self cluster :
  (exists k, In (k, cluster) m0) ->
  preserves (sound_at m0) (merge self cluster).
Proof.
  intros [k Hk] d [H Hm]. unfold merge, merge_value.
  destruct (merge_center _ _ _ _) as [c|e]; simpl; [|now split].
  split; [|exact Hm]. intros i a Hin. simpl. unfold heap_set.
  destruct (Nat.eqb_spec a self) as [->|Hne]; [|now apply (H i)].
  rewrite <- Hm in Hk. destruct (H i self Hin) as [Hw Hl].
  destruct (H k cluster Hk) as [Hw' _]. split; simpl; [lra|exact Hl].
Qed.

Lemma sound_macro_cluster_of_label m0 labels cl i :
  preserves (sound_at m0) (macro_cluster_of_label labels cl i).
Proof.
  unfold macro_cluster_of_label.
  apply preserves_bind_reads. intros mcs [d [[_ Hm] Hmcs]].
  apply preserves_bind; [apply preserves_reads|intros macro_cluster].
  apply preserves_bind; [|intros _; apply preserves_ret].
  apply preserves_for_each. intros m.
  apply preserves_bind_reads. intros other [_ [_ Hother]].
  apply sound_merge. rewrite <- Hm.
  apply (mcs_with_label_members _ _ _ Hmcs m).
  apply get_In. unfold Dict.getitem in Hother.
  now destruct (Dict.get m mcs) as [o|]; [injection Hother as ->|].
Qed.

Lemma sound_recluster m0 : preserves (sound_at m0) _recluster.
Proof.
  unfold _recluster.
  apply preserves_bind; [apply preserves_reads|intros wal].
  apply preserves_bind; [apply preserves_reads|intros labels].
  apply preserves_bind; [|intros nc; apply preserves_modify; now intros d H].
  unfold _generate_clusters_from_labels.
  apply preserves_bind; [apply preserves_reads|intros mx].
  apply preserves_bind; [|intros cl; apply preserves_ret].
  apply preserves_foldM. intros cl i. apply sound_macro_cluster_of_label.
Qed.

Lemma sound_predict_one x : preserves sound_weights (predict_one x).
Proof.
  intros d H.
  assert (Hp : preserves (sound_at (micro_clusters d)) (predict_one x)).
  { unfold predict_one.
    apply preserves_bind; [apply sound_recluster|intros _].
    apply preserves_bind; [apply preserves_reads|intros r].
    apply preserves_ret. }
  apply (Hp d). now split.
Qed.

Lemma reachable_sound d : reachable d -> sound_weights d.
Proof.
  induction 1 as [r ff ci al mw|d x _ IH|d x _ IH].
  - intros i a [].
  - now apply sound_learn_one.
  - now apply sound_predict_one.
Qed.

Lemma sound_not_weak d a :
  0 < fading_factor d -> (1 <= cleanup_interval d)%Z ->
  sound_micro_cluster (time_stamp d) (heap d a) ->
  1 <= weight (heap d a)
       * pow2 (fading_factor d * IZR (time_stamp d - last_update (heap d a)))
  /\ weight_weak d < 1
  /\ is_weak (weight_weak d) d a = false.
Proof.
  intros Hff Hci [Hw Hl].
  assert (Hdt : 0 <= IZR (time_stamp d - last_update (heap d a)))
    by (apply IZR_le; lia).
  assert (Hp : 1 <= pow2 (fading_factor d
                          * IZR (time_stamp d - last_update (heap d a))))
    by (apply pow2_ge_1; nra).
  assert (Hci' : 1 <= IZR (cleanup_interval d)) by now apply IZR_le.
  assert (Hww : weight_weak d < 1)
    by (unfold weight_weak; apply pow2_lt_1; nra).
  assert (Hprod : 1 <= weight (heap d a)
                       * pow2 (fading_factor d
                               * IZR (time_stamp d - last_update (heap d a))))
    by nra.
  repeat split; try assumption.
  unfold is_weak. apply Rltb_false. lra.
Qed.

Lemma only_KeyError_bind {A B} (c : M A) (k : A -> M B) :
  only_KeyError c -> (forall a, only_KeyError (k a)) ->
  only_KeyError (bind c k).
Proof.
  intros Hc Hk d e. unfold bind. specialize (Hc d).
  destruct (c d) as [[a|e'] d1]; simpl in *; [apply Hk|].
  intros [= <-]. now apply Hc.
Qed.

Lemma only_KeyError_gets {A} (f : DBSTREAM -> A) : only_KeyError (gets f).
Proof. intros d e. discriminate. Qed.

Lemma only_KeyError_ret {A} (a : A) : only_KeyError (ret a).
Proof. intros d e. discriminate. Qed.

Lemma only_KeyError_getitem {V} (f : DBSTREAM -> dict V) k :
  only_KeyError (reads (fun d => Dict.getitem k (f d))).
Proof.
  intros d e. unfold reads, Dict.getitem. simpl.
  destruct (Dict.get k (f d)); simpl; [discriminate|now intros [= <-]].
Qed.

Lemma only_KeyError_getitem2 {V} (f : DBSTREAM -> dict (dict V)) i j :
  only_KeyError (reads (fun d => getitem2 i j (f d))).
Proof.
  intros d e. unfold reads, getitem2, Dict.getitem. simpl.
  destruct (Dict.get i (f d)) as [row|]; simpl; [|now intros [= <-]].
  destruct (Dict.get j row); simpl; [discriminate|now intros [= <-]].
Qed.

Lemma only_KeyError_s_setitem i j v : only_KeyError (s_setitem i j v).
Proof.
  intros d e. unfold s_setitem, setitem2, Dict.getitem.
  destruct (Dict.get i (s d)); simpl; [discriminate|now intros [= <-]].
Qed.

Lemma only_KeyError_s_t_setitem i j v : only_KeyError (s_t_setitem i j v).
Proof.
  intros d e. unfold s_t_setitem, setitem2, Dict.getitem.
  destruct (Dict.get i (s_t d)); simpl; [discriminate|now intros [= <-]].
Qed.

Lemma only_KeyError_for_each {A} (l : list A) body :
  (forall a, only_KeyError (body a)) -> only_KeyError (for_each l body).
Proof.
  intros H. unfold for_each. generalize tt.
  induction l as [|a l IH]; intros u; simpl.
  - apply only_KeyError_ret.
  - apply only_KeyError_bind; [apply H|intros u'; apply IH].
Qed.

Lemma only_KeyError_cleanup_shared_density ww i j :
  only_KeyError (cleanup_shared_density ww i j).
Proof.
  unfold cleanup_shared_density.
  apply only_KeyError_bind; [apply (only_KeyError_getitem2 s)|intros sij].
  apply only_KeyError_bind; [apply (only_KeyError_getitem2 s_t)|intros tij].
  do 3 (apply only_KeyError_bind; [apply only_KeyError_gets|intros ?]).
  destruct (Rltb _ _); [|apply only_KeyError_ret].
  apply only_KeyError_bind; [apply only_KeyError_s_setitem|intros _].
  apply only_KeyError_s_t_setitem.
Qed.

(** C9, as amended.  In every state reached from the constructor through
    [learn_one]
    and [predict_one], with [fading_factor > 0] and a cleanup interval of
    at least one step, every stored micro-cluster has a weight of at least
    1; its projected weight [weight * 2 ** (fading_factor * (time_stamp -
    last_update))] is at least 1 too, while [weight_weak] is below 1, so
    the removal test of [_cleanup] fails for it; [_cleanup] then leaves
    [micro_clusters] and the objects as they are and does not raise the
    iterator's [RuntimeError]. *)
Theorem cleanup_never_removes (d : DBSTREAM) :
  reachable d ->
  0 < fading_factor d ->
  (1 <= cleanup_interval d)%Z ->
  (forall i a, In (i, a) (micro_clusters d) ->
     1 <= weight (heap d a) /\
     1 <= weight (heap d a)
          * pow2 (fading_factor d
                  * IZR (time_stamp d - last_update (heap d a))) /\
     weight_weak d < 1 /\
     is_weak (weight_weak d) d a = false) /\
  micro_clusters (snd (_cleanup d)) = micro_clusters d /\
  heap (snd (_cleanup d)) = heap d /\
  fst (_cleanup d) <> Raise RuntimeError.
Proof.
  intros Hr Hff Hci. pose proof (reachable_sound Hr) as Hs.
  assert (Hall : forall i a, In (i, a) (micro_clusters d) ->
            1 <= weight (heap d a) /\
            1 <= weight (heap d a)
                 * pow2 (fading_factor d
                         * IZR (time_stamp d - last_update (heap d a))) /\
            weight_weak d < 1 /\
            is_weak (weight_weak d) d a = false).
  { intros i a Hin. destruct (Hs i a Hin) as [Hw Hl].
    destruct (@sound_not_weak d a Hff Hci (conj Hw Hl)) as [H1 [H2 H3]].
    repeat split; assumption. }
  split; [exact Hall|].
  set (rest := (ks <- gets (fun d => Dict.keys (s d)) ;;
                for_each ks
                  (fun i =>
                     row <- reads (fun d => Dict.getitem i (s d)) ;;
                     for_each (Dict.keys row)
                       (cleanup_shared_density (weight_weak d) i)))%m).
  assert (Hc : _cleanup d = rest d).
  { unfold _cleanup. unfold bind at 1. simpl. unfold bind at 1.
    unfold for_items, Dict.items. rewrite cleanup_scan_keeps; [reflexivity|].
    intros [i a] Hin. now apply (Hall i a). }
  rewrite Hc.
  assert (Hkeep : preserves (fun d' => micro_clusters d' = micro_clusters d
                                       /\ heap d' = heap d) rest).
  { unfold rest.
    apply preserves_bind; [apply preserves_gets|intros ks].
    apply preserves_for_each. intros i.
    apply preserves_bind; [apply preserves_reads|intros row].
    apply preserves_for_each. intros j. unfold cleanup_shared_density.
    do 5 (apply preserves_bind;
          [first [apply preserves_reads|apply preserves_gets]|intros ?]).
    apply preserves_if; [|apply preserves_ret].
    apply preserves_bind; [|intros _].
    - intros d' H. unfold s_setitem. now destruct (setitem2 _ _ _ _).
    - intros d' H. unfold s_t_setitem. now destruct (setitem2 _ _ _ _). }
  destruct (Hkeep d (conj eq_refl eq_refl)) as [Hm Hh].
  repeat split; [exact Hm|exact Hh|].
  intros Hre.
  assert (Hk : only_KeyError rest).
  { unfold rest.
    apply only_KeyError_bind; [apply only_KeyError_gets|intros ks].
    apply only_KeyError_for_each. intros i.
    apply only_KeyError_bind; [apply (only_KeyError_getitem s)|intros row].
    apply only_KeyError_for_each. intros j.
    apply only_KeyError_cleanup_shared_density. }
  specialize (Hk d RuntimeError Hre). discriminate.
Qed.

(** ** The configuration is fixed at construction *)

Ltac preserves_step :=
  first
    [ apply preserves_ret | apply preserves_raise
    | apply preserves_reads | apply preserves_gets
    | apply preserves_try
    | apply preserves_bind; [|intros ?]
    | apply preserves_foldM; intros ? ?
    | apply preserves_for_each; intros ?
    | apply preserves_if
    | apply preserves_modify; intros ? ?; assumption ].

Lemma config_s_setitem c i j v : preserves (has_config c) (s_setitem i j v).
Proof. intros d H. unfold s_setitem. now destruct (setitem2 i j v (s d)). Qed.

Lemma config_s_t_setitem c i j v :
  preserves (has_config c) (s_t_setitem i j v).
Proof.
  intros d H. unfold s_t_setitem. now destruct (setitem2 i j v (s_t d)).
Qed.

Lemma config_update c x : preserves (has_config c) (_update x).
Proof.
  unfold _update, prevent_collapsing, prevent_collapse, update_neighbor,
    update_shared_density.
  repeat first
    [ preserves_step | apply config_s_setitem | apply config_s_t_setitem ].
Qed.

Lemma config_cleanup c : preserves (has_config c) _cleanup.
Proof.
  unfold _cleanup, cleanup_shared_density.
  apply preserves_bind; [apply preserves_gets|intros ww].
  apply preserves_bind; [|intros _].
  - intros d H. unfold for_items.
    apply (@preserves_for_items_checked _ (has_config c)); [|exact H].
    intros ia d' H'. unfold cleanup_micro_cluster.
    now destruct (is_weak ww d' (snd ia)).
  - repeat first
      [ preserves_step | apply config_s_setitem | apply config_s_t_setitem ].
Qed.

Lemma config_learn_one c x : preserves (has_config c) (learn_one x).
Proof.
  unfold learn_one.
  repeat first [ apply config_update | apply config_cleanup | preserves_step ].
Qed.

Lemma config_predict_one c x : preserves (has_config c) (predict_one x).
Proof.
  unfold predict_one, _recluster, _generate_clusters_from_labels,
    macro_cluster_of_label.
  repeat preserves_step.
  intros d H. unfold merge. now destruct (merge_value _ _).
Qed.

(** ** Merging a group of micro-clusters *)

Lemma total_weight_perm g g' :
  Permutation g g' -> total_weight g = total_weight g'.
Proof.
  induction 1; simpl; lra.
Qed.

Lemma weighted_sum_perm k g g' :
  Permutation g g' -> weighted_sum k g = weighted_sum k g'.
Proof.
  induction 1; simpl; lra.
Qed.

Lemma zero_weights_perm g g' :
  Permutation g g' -> zero_weights g = zero_weights g'.
Proof.
  unfold zero_weights.
  induction 1 as [|m g g' _ IH|m m' g|g g' g'' _ IH1 _ IH2]; simpl.
  - reflexivity.
  - destruct (weightless m); simpl; now rewrite IH.
  - destruct (weightless m), (weightless m'); reflexivity.
  - now rewrite IH1.
Qed.

Lemma total_weight_nonneg g :
  (forall m, In m g -> 0 <= weight m) -> 0 <= total_weight g.
Proof.
  induction g as [|m g IH]; intros H; simpl; [lra|].
  assert (0 <= weight m) by (apply H; now left).
  assert (0 <= total_weight g) by (apply IH; intros; apply H; now right).
  lra.
Qed.

(** Of two members of a group with at most one weight zero, one has a
    positive weight. *)
Lemma first_two_positive m0 m1 rest :
  (forall m, In m (m0 :: m1 :: rest) -> 0 <= weight m) ->
  (zero_weights (m0 :: m1 :: rest) <= 1)%nat ->
  0 < weight m0 + weight m1.
Proof.
  intros Hw Hz.
  assert (H0 : 0 <= weight m0) by (apply Hw; now left).
  assert (H1 : 0 <= weight m1) by (apply Hw; right; now left).
  unfold zero_weights in Hz. simpl in Hz. unfold weightless in Hz at 1 2.
  destruct (Req_dec_T (weight m0) 0) as [E0|N0];
    destruct (Req_dec_T (weight m1) 0) as [E1|N1]; simpl in Hz;
    [lia|lra|lra|lra].
Qed.

(** One merge, at every key of [self]: the new coordinate is the average
    of the two coordinates, weighted by the two weights. *)
Lemma merge_center_get sc sw cc cw c :
  merge_center sc sw cc cw = Ok c ->
  Dict.keys c = Dict.keys sc /\
  forall k, In k (Dict.keys sc) ->
    Dict.get k c
    = Some ((match Dict.get k sc with Some v => v | None => 0 end * sw
             + match Dict.get k cc with Some v => v | None => 0 end * cw)
            / (sw + cw)).
Proof.
  revert c. induction sc as [|[i si] r IH]; intros c; simpl.
  - intros [= <-]. split; [reflexivity|intros k []].
  - unfold Dict.getitem.
    destruct (Dict.get i cc) as [ci|] eqn:Hci; simpl; [|discriminate].
    unfold truediv. destruct (Req_dec_T (sw + cw) 0); simpl; [discriminate|].
    destruct (merge_center r sw cc cw) as [r'|e]; simpl; [|discriminate].
    intros [= <-]. destruct (IH r' eq_refl) as [Hk Hg]. split.
    + simpl. now rewrite Hk.
    + intros k Hin. simpl.
      destruct (Z.eqb_spec k i) as [->|Hne]; [now rewrite Hci|].
      apply Hg. destruct Hin as [->|Hin]; [congruence|exact Hin].
Qed.

Lemma merge_center_defined sc sw cc cw :
  (forall k, In k (Dict.keys sc) -> In k (Dict.keys cc)) ->
  sw + cw <> 0 ->
  exists c, merge_center sc sw cc cw = Ok c.
Proof.
  intros Hin Hw. induction sc as [|[i si] r IH]; simpl.
  - now exists [].
  - destruct (@In_keys_get _ cc i) as [ci Hci]; [apply Hin; now left|].
    unfold Dict.getitem. rewrite Hci. cbn [of_option rbind].
    unfold truediv. destruct (Req_dec_T (sw + cw) 0); [contradiction|].
    cbn [rbind].
    destruct IH as [c Hc]; [intros k Hk; apply Hin; now right|].
    rewrite Hc. simpl. eauto.
Qed.

(** The merges after the first, on an accumulator of positive weight. *)
Lemma rfold_merge_average K others :
  forall acc,
    0 < weight acc ->
    (forall k, In k (Dict.keys (center acc)) <-> In k K) ->
    (forall m, In m others ->
       0 <= weight m /\
       forall k, In k (Dict.keys (center m)) <-> In k K) ->
    exists r,
      rfold merge_value others acc = Ok r /\
      weight r = weight acc + total_weight others /\
      Dict.keys (center r) = Dict.keys (center acc) /\
      forall k, In k K ->
        coordinate k r * weight r
        = coordinate k acc * weight acc + weighted_sum k others.
Proof.
  induction others as [|m others IH]; intros acc HW Hka H.
  - exists acc. split; [reflexivity|]. simpl. split; [lra|].
    split; [reflexivity|]. intros k _. lra.
  - destruct (H m (or_introl eq_refl)) as [Hw Hkm].
    destruct (@merge_center_defined (center acc) (weight acc)
                (center m) (weight m)) as [c Hc].
    { intros k Hk. now apply Hkm, Hka. }
    { lra. }
    destruct (merge_center_get _ _ _ _ Hc) as [Hkc Hgc].
    cbn [rfold]. unfold merge_value at 1. rewrite Hc. cbn [rbind].
    destruct (IH (mkMicroCluster c (last_update acc)
                    (weight acc + weight m)))
      as [r [Hr [Hwr [Hkr Hcr]]]].
    + simpl. lra.
    + simpl. intros k. rewrite Hkc. apply Hka.
    + intros m' Hin. apply H. now right.
    + exists r. split; [exact Hr|]. simpl in Hwr, Hkr, Hcr.
      split; [simpl; lra|]. split; [now rewrite Hkr|].
      intros k Hk. rewrite (Hcr k Hk). simpl.
      unfold coordinate at 1. simpl.
      rewrite (Hgc k) by now apply Hka.
      unfold coordinate. field. lra.
Qed.

Lemma reduce_by_merge_average K group :
  (2 <= length group)%nat ->
  (forall m, In m group -> 0 <= weight m) ->
  (zero_weights group <= 1)%nat ->
  (forall m, In m group ->
     forall k, In k (Dict.keys (center m)) <-> In k K) ->
  exists r,
    reduce_by_merge group = Ok r /\
    weight r = total_weight group /\
    0 < total_weight group /\
    Dict.keys (center r) = Dict.keys (center (hd r group)) /\
    forall k, In k K ->
      Dict.get k (center r)
      = Some (weighted_sum k group / total_weight group).
Proof.
  intros Hlen Hw Hz Hk.
  destruct group as [|m0 [|m1 rest]]; simpl in Hlen; try lia.
  pose proof (first_two_positive Hw Hz) as Hpos.
  assert (H0 : 0 <= weight m0) by (apply Hw; now left).
  assert (H1 : 0 <= weight m1) by (apply Hw; right; now left).
  destruct (@merge_center_defined (center m0) (weight m0)
              (center m1) (weight m1)) as [c Hc].
  { intros k Hin. apply (Hk m1); [right; now left|].
    apply (Hk m0); [now left|exact Hin]. }
  { lra. }
  destruct (merge_center_get _ _ _ _ Hc) as [Hkc Hgc].
  destruct (@rfold_merge_average K rest
              (mkMicroCluster c (last_update m0) (weight m0 + weight m1)))
    as [r [Hr [Hwr [Hkr Hcr]]]].
  - simpl. lra.
  - simpl. intros k. rewrite Hkc. apply (Hk m0). now left.
  - intros m Hin. split; [apply Hw; right; now right|].
    apply Hk. right. now right.
  - simpl in Hwr, Hkr, Hcr.
    assert (Hrest : 0 <= total_weight rest).
    { apply total_weight_nonneg. intros m Hin. apply Hw. right. now right. }
    exists r. split.
    + cbn [reduce_by_merge rfold]. unfold merge_value at 1.
      rewrite Hc. cbn [rbind]. exact Hr.
    + split; [simpl; lra|]. split; [simpl; lra|].
      split; [simpl; now rewrite Hkr|].
      intros k Hin.
      assert (Hkr' : In k (Dict.keys (center r))).
      { rewrite Hkr, Hkc. apply (Hk m0); [now left|exact Hin]. }
      destruct (In_keys_get _ _ Hkr') as [v Hv]. rewrite Hv. f_equal.
      pose proof (Hcr k Hin) as E. unfold coordinate at 1 in E.
      rewrite Hv in E. unfold coordinate at 1 in E. simpl in E.
      rewrite (Hgc k) in E by (apply (Hk m0); [now left|exact Hin]).
      simpl. unfold coordinate.
      apply Rmult_eq_reg_r with (weight r); [|rewrite Hwr; lra].
      rewrite E, Hwr. field. lra.
Qed.

Lemma absent_key_get (c : point) k :
  ~ In k (Dict.keys c) -> Dict.get k c = None.
Proof.
  intros H. destruct (Dict.get k c) as [v|] eqn:E; [|reflexivity].
  exfalso. apply H. exact (get_In_keys _ _ E).
Qed.

(** C8, as amended.  A group of two or more micro-clusters whose weights
    are non-negative, at most one of them zero, and whose centers have
    the same set of keys (in any order) reduces, by [merge] from the
    first member on, to a weight that is the sum of the weights and to a
    center over the same keys whose coordinate is, at every key, the
    weight-weighted average of the coordinates; the group in any other
    order reduces to the same weight and to a center with the same
    coordinate at every key.  (In exact arithmetic; the rounding of
    floats is not modelled.) *)
Theorem merge_group_weighted_average K group :
  (2 <= length group)%nat ->
  (forall m, In m group -> 0 <= weight m) ->
  (zero_weights group <= 1)%nat ->
  (forall m, In m group ->
     forall k, In k (Dict.keys (center m)) <-> In k K) ->
  exists r,
    reduce_by_merge group = Ok r /\
    weight r = total_weight group /\
    (forall k, In k (Dict.keys (center r)) <-> In k K) /\
    (forall k, In k K ->
       Dict.get k (center r)
       = Some (weighted_sum k group / total_weight group)) /\
    forall group', Permutation group group' ->
      exists r', reduce_by_merge group' = Ok r' /\
                 weight r' = weight r /\
                 forall k, Dict.get k (center r') = Dict.get k (center r).
Proof.
  intros Hlen Hw Hz Hk.
  destruct (@reduce_by_merge_average K group Hlen Hw Hz Hk)
    as [r [Hr [Hwr [_ [Hkr Hc]]]]].
  assert (Hkeys : forall k, In k (Dict.keys (center r)) <-> In k K).
  { intros k. rewrite Hkr. apply Hk.
    destruct group as [|m0 rest]; [simpl in Hlen; lia|now left]. }
  exists r. split; [exact Hr|]. split; [exact Hwr|].
  split; [exact Hkeys|]. split; [exact Hc|].
  intros group' Hp.
  assert (Hin : forall m, In m group' -> In m group).
  { intros m. apply Permutation_in, Permutation_sym, Hp. }
  destruct (@reduce_by_merge_average K group')
    as [r' [Hr' [Hwr' [_ [Hkr' Hc']]]]].
  - now rewrite <- (Permutation_length Hp).
  - intros m Hm. apply Hw, Hin, Hm.
  - now rewrite <- (zero_weights_perm Hp).
  - intros m Hm. apply Hk, Hin, Hm.
  - assert (Hkeys' : forall k, In k (Dict.keys (center r')) <-> In k K).
    { intros k. rewrite Hkr'. apply Hk, Hin.
      destruct group' as [|m0 rest]; [|now left].
      apply Permutation_length in Hp. simpl in Hp. lia. }
    exists r'. split; [exact Hr'|]. split.
    + rewrite Hwr', Hwr. symmetry. now apply total_weight_perm.
    + intros k. destruct (in_dec Z.eq_dec k K) as [Hin'|Hout].
      * rewrite (Hc' k Hin'), (Hc k Hin').
        now rewrite (weighted_sum_perm k Hp), (total_weight_perm Hp).
      * rewrite !absent_key_get; [reflexivity| |].
        -- intros H. apply Hout, Hkeys, H.
        -- intros H. apply Hout, Hkeys', H.
Qed.

(** C8, as amended, at a group of three micro-clusters of the plane, one
    of them of weight zero and one with its keys in the other order. *)
Lemma merge_group_weighted_average_witness :
  exists r,
    reduce_by_merge mixed_group = Ok r /\
    weight r = total_weight mixed_group /\
    (forall k, In k (Dict.keys (center r)) <-> In k [0%Z; 1%Z]) /\
    (forall k, In k [0%Z; 1%Z] ->
       Dict.get k (center r)
       = Some (weighted_sum k mixed_group / total_weight mixed_group)) /\
    forall group', Permutation mixed_group group' ->
      exists r', reduce_by_merge group' = Ok r' /\
                 weight r' = weight r /\
                 forall k, Dict.get k (center r') = Dict.get k (center r).
Proof.
  apply (@merge_group_weighted_average [0%Z; 1%Z] mixed_group).
  - simpl. lia.
  - intros m [<-|[<-|[<-|[]]]]; simpl; lra.
  - unfold zero_weights, mixed_group, weightless. simpl.
    destruct (Req_dec_T 0 0) as [_|N]; [|now contradiction N].
    destruct (Req_dec_T 2 0) as [E|_]; [lra|].
    destruct (Req_dec_T 3 0) as [E|_]; [lra|]. simpl. lia.
  - intros m [<-|[<-|[<-|[]]]] k; simpl; tauto.
Defined.

(** C8, as stated, fails on weights that are zero: two micro-clusters of
    weight 0 do not merge at all ([ZeroDivisionError]), and with a third
    one of weight 1 the outcome depends on the order of the merges.  It
    fails on centers that do not have the same keys too: a member that
    lacks a key of the first raises [KeyError], and a key that the first
    member lacks is left out of the result, so that the order decides. *)
Lemma merge_zero_weights_raises :
  (forall m, In m [zero_a; zero_b; unit_c; unit_plane] -> 0 <= weight m) /\
  reduce_by_merge [zero_a; zero_b] = Raise ZeroDivisionError /\
  reduce_by_merge [zero_a; zero_b; unit_c] = Raise ZeroDivisionError /\
  reduce_by_merge [zero_a; unit_c; zero_b]
  = Ok (mkMicroCluster
          [(0%Z, ((1 * 0 + 2 * 1) / (0 + 1) * (0 + 1) + 3 * 0)
                 / (0 + 1 + 0))] 0 (0 + 1 + 0)) /\
  reduce_by_merge [unit_plane; unit_c] = Raise KeyError /\
  reduce_by_merge [unit_c; unit_plane]
  = Ok (mkMicroCluster [(0%Z, (2 * 1 + 4 * 1) / (1 + 1))] 0 (1 + 1)).
Proof.
  assert (Hz : truediv (1 * 0 + 3 * 0) (0 + 0) = Raise ZeroDivisionError).
  { replace (0 + 0) with 0 by lra. apply truediv_zero. }
  split; [intros m [<-|[<-|[<-|[<-|[]]]]]; simpl; lra|].
  split; [simpl; unfold merge_value; simpl; now rewrite Hz|].
  split; [simpl; unfold merge_value; simpl; now rewrite Hz|].
  split.
  { simpl. unfold merge_value. simpl.
    rewrite truediv_ok by lra. simpl.
    rewrite truediv_ok by lra. reflexivity. }
  split.
  - simpl. unfold merge_value. simpl.
    rewrite truediv_ok by lra. reflexivity.
  - simpl. unfold merge_value. simpl.
    rewrite truediv_ok by lra. reflexivity.
Qed.

(** ** Labelling on a chain and on a fan *)

(** C2 on the code.  On the chain 0-1-2 the traversal from 0 labels 1 and
    then looks at the neighbours of 1, but enqueues those that already
    have a label and leaves the unlabelled 2 out: 2 gets a label of its
    own.  On the fan 0-2, 1-2 the edge 1-2 is stored under key 1 only and
    is never followed from 2 to 1: 1 gets a label of its own.  In both
    graphs two micro-clusters joined by a kept edge end with different
    labels. *)
Theorem generate_labels_splits_component :
  _generate_labels chain three_micro_clusters
  = Some (Ok [(0%Z, Some 0%Z); (1%Z, Some 0%Z); (2%Z, Some 1%Z)]) /\
  _generate_labels fan three_micro_clusters
  = Some (Ok [(0%Z, Some 0%Z); (1%Z, Some 1%Z); (2%Z, Some 0%Z)]).
Proof. split; reflexivity. Qed.

(** ** Prediction before any point was learnt *)

(** C3 on the code.  On a new instance [_recluster] evaluates
    [max(cluster_labels.values())] on no label at all: [predict_one]
    raises [ValueError] and never reaches its default label 0. *)
Theorem predict_one_empty_raises r ff ci al mw (x : point) :
  predict_one x (init r ff ci al mw)
  = (Raise ValueError, init r ff ci al mw).
Proof. reflexivity. Qed.

(** ** Establishing a property in a loop *)

Lemma preserves_Ok {A} P (c : M A) d a d' :
  preserves P c -> P d -> c d = (Ok a, d') -> P d'.
Proof. intros Hc H E. specialize (Hc d H). now rewrite E in Hc. Qed.

Lemma establishes_preserves {A} P (c : M A) :
  preserves P c -> establishes P P c.
Proof. intros Hc d a d' H E. eapply preserves_Ok; eassumption. Qed.

Lemma establishes_bind_l {A B} Pre Post (c : M A) (k : A -> M B) :
  establishes Pre Post c -> (forall a, preserves Post (k a)) ->
  establishes Pre Post (bind c k).
Proof.
  intros Hc Hk d b d' H E. apply bind_Ok_inv in E as [a [d1 [E1 E2]]].
  eapply preserves_Ok; [apply Hk| |exact E2]. eapply Hc; eassumption.
Qed.

Lemma establishes_bind_r {A B} Pre Post (c : M A) (k : A -> M B) :
  preserves Pre c -> (forall a, establishes Pre Post (k a)) ->
  establishes Pre Post (bind c k).
Proof.
  intros Hc Hk d b d' H E. apply bind_Ok_inv in E as [a [d1 [E1 E2]]].
  eapply Hk; [|exact E2]. eapply preserves_Ok; eassumption.
Qed.

Lemma preserves_foldM_in {A B} P (f : B -> A -> M B) l :
  (forall b a, In a l -> preserves P (f b a)) ->
  forall b, preserves P (foldM f l b).
Proof.
  induction l as [|a l IH]; intros Hf b; simpl.
  - apply preserves_ret.
  - apply preserves_bind; [apply Hf; now left|].
    intros b'. apply IH. intros b0 a0 Hin. apply Hf. now right.
Qed.

Lemma preserves_for_each_in {A} P (l : list A) body :
  (forall a, In a l -> preserves P (body a)) -> preserves P (for_each l body).
Proof. intros H. apply preserves_foldM_in. intros _ a. apply H. Qed.

(** In a loop over distinct elements, the turn of [a0] establishes [Post]
    when the turns before it keep [Pre] and those after it keep [Post]. *)
Lemma establishes_foldM {A B} (Pre Post : DBSTREAM -> Prop)
  (f : B -> A -> M B) (a0 : A) l :
  NoDup l -> In a0 l ->
  (forall b a, In a l -> a <> a0 -> preserves Pre (f b a)) ->
  (forall b, establishes Pre Post (f b a0)) ->
  (forall b a, In a l -> a <> a0 -> preserves Post (f b a)) ->
  forall b, establishes Pre Post (foldM f l b).
Proof.
  induction l as [|a l IH]; intros Hnd Hin Hpre Hest Hpost b; [contradiction|].
  inversion Hnd as [|? ? Hna Hnd']; subst. simpl.
  assert (Hrest : forall a', In a' l -> a = a0 -> a' <> a0)
    by (intros a' Hin' -> ->; contradiction).
  destruct Hin as [->|Hin].
  - apply establishes_bind_l; [apply Hest|].
    intros b'. apply preserves_foldM_in. intros b0 a' Hin'.
    apply Hpost; [now right|now apply Hrest].
  - apply establishes_bind_r.
    + apply Hpre; [now left|]. intros ->. contradiction.
    + intros b'. apply IH; try assumption.
      * intros b0 a' Hin'. apply Hpre. now right.
      * intros b0 a' Hin'. apply Hpost. now right.
Qed.

Lemma establishes_for_each {A} (Pre Post : DBSTREAM -> Prop)
  (body : A -> M unit) (a0 : A) l :
  NoDup l -> In a0 l ->
  (forall a, In a l -> a <> a0 -> preserves Pre (body a)) ->
  establishes Pre Post (body a0) ->
  (forall a, In a l -> a <> a0 -> preserves Post (body a)) ->
  establishes Pre Post (for_each l body).
Proof.
  intros Hnd Hin Hpre Hest Hpost.
  apply establishes_foldM with (a0 := a0); auto.
Qed.

(** ** The neighbours of a point *)

Lemma find_fixed_radius_nn_spec x d nn :
  _find_fixed_radius_nn x d = Ok nn ->
  NoDup (Dict.keys nn) /\
  forall i a, In (i, a) nn -> Dict.get i (micro_clusters d) = Some a.
Proof.
  unfold _find_fixed_radius_nn. intros H.
  change ((fun nn : dict addr =>
             NoDup (Dict.keys nn) /\
             forall i a, In (i, a) nn ->
                         Dict.get i (micro_clusters d) = Some a) nn).
  eapply rfold_inv; cycle 2; [exact H| |split; [constructor|intros ? ? []]].
  clear. intros nn i nn' [Hnd Hin]. unfold micro_cluster, Dict.getitem.
  destruct (Dict.get i (micro_clusters d)) as [a|] eqn:Hg; simpl;
    [|discriminate].
  destruct (_distance _ _) as [dist|e]; simpl; [|discriminate].
  destruct (Rltb dist _); intros [= <-]; [|now split].
  split; [now apply NoDup_keys_set|].
  intros i' a' Hin'. apply In_set in Hin' as [[= -> ->]|Hin'];
    [exact Hg|now apply Hin].
Qed.

(** ** Shared density of a pair that had no edge *)

Ltac usd_unfold :=
  unfold update_shared_density, try_KeyError, bind, reads, gets, modify,
    s_setitem, s_t_setitem, getitem2, setitem2, Dict.getitem; simpl.

Ltac usd_cases i j d :=
  let row := fresh "row" in
  let trow := fresh "trow" in
  destruct (Dict.get i (s d)) as [row|] eqn:?; simpl;
  [destruct (Dict.get j row) eqn:?; simpl|];
  (destruct (Dict.get i (s_t d)) as [trow|] eqn:?; simpl;
   [try (destruct (Dict.get j trow) eqn:?; simpl)|]).

Ltac dict_simpl :=
  repeat first
    [ rewrite get_set_same
    | rewrite get_set_other by congruence
    | rewrite Z.eqb_refl
    | match goal with
      | H : Dict.get ?k ?g = _ |- context [Dict.get ?k ?g] => rewrite H
      end
    | progress simpl ].

Lemma usd_creates i j :
  establishes (no_edge i j) (blank_edge i j) (update_shared_density i j).
Proof.
  intros d [] d'. unfold no_edge, blank_edge, entry. usd_unfold.
  usd_cases i j d; intros H; try discriminate; dict_simpl; intros [= <-];
    dict_simpl; auto.
Qed.

Lemma usd_keeps_no_edge i j i' j' :
  (i', j') <> (i, j) -> preserves (no_edge i j) (update_shared_density i' j').
Proof.
  intros Hne d. unfold no_edge, entry. usd_unfold.
  destruct (Z.eq_dec i' i) as [->|Hi].
  - assert (Hj : j <> j') by congruence.
    usd_cases i j' d; intros H; dict_simpl; auto.
    all: try (destruct (Z.eqb_spec j j'); [contradiction|auto]).
  - usd_cases i' j' d; intros H; dict_simpl; auto.
Qed.

Lemma usd_keeps_blank_edge i j i' j' :
  (i', j') <> (i, j) ->
  preserves (blank_edge i j) (update_shared_density i' j').
Proof.
  intros Hne d. unfold blank_edge, entry. usd_unfold.
  destruct (Z.eq_dec i' i) as [->|Hi].
  - assert (Hj : j <> j') by congruence.
    usd_cases i j' d; intros [H1 H2]; try discriminate; dict_simpl; auto.
  - usd_cases i' j' d; intros H; dict_simpl; auto.
Qed.

Lemma update_neighbor_keeps_no_edge x nn cc i j i' :
  i' <> i -> preserves (no_edge i j) (update_neighbor x nn cc i').
Proof.
  intros Hne. unfold update_neighbor.
  repeat first [ apply usd_keeps_no_edge; congruence | preserves_step ].
Qed.

Lemma update_neighbor_keeps_blank_edge x nn cc i j i' :
  i' <> i -> preserves (blank_edge i j) (update_neighbor x nn cc i').
Proof.
  intros Hne. unfold update_neighbor.
  repeat first [ apply usd_keeps_blank_edge; congruence | preserves_step ].
Qed.

Lemma prevent_collapsing_keeps_blank_edge nn cc i j :
  preserves (blank_edge i j) (prevent_collapsing nn cc).
Proof.
  unfold prevent_collapsing, prevent_collapse. repeat preserves_step.
Qed.

Lemma update_neighbor_creates x nn cc i j :
  NoDup (Dict.keys nn) -> In j (Dict.keys nn) -> (i < j)%Z ->
  establishes (no_edge i j) (blank_edge i j) (update_neighbor x nn cc i).
Proof.
  intros Hnd Hj Hlt. unfold update_neighbor.
  do 6 (apply establishes_bind_r; [preserves_step|intros ?]).
  apply establishes_bind_l; [|intros ?; apply preserves_ret].
  apply establishes_for_each with (a0 := j); try assumption.
  - intros j' _ Hne. apply preserves_if; [|apply preserves_ret].
    apply usd_keeps_no_edge. congruence.
  - replace (Z.gtb j i) with true by (symmetry; apply Z.gtb_lt; lia).
    apply usd_creates.
  - intros j' _ Hne. apply preserves_if; [|apply preserves_ret].
    apply usd_keeps_blank_edge. congruence.
Qed.

Lemma update_unfold x d nn :
  _find_fixed_radius_nn x d = Ok nn ->
  _update x d
  = ((if Z.ltb (Dict.len nn) 1 then create_micro_cluster x
      else update_neighbors x nn) ;;
     modify (fun d => set_time_stamp (time_stamp d + 1) d))%m d.
Proof.
  intros H. unfold _update. unfold bind at 1, reads at 1. now rewrite H.
Qed.

Lemma len_neighbors {V} (nn : dict V) i :
  In i (Dict.keys nn) -> Z.ltb (Dict.len nn) 1 = false.
Proof.
  intros H. apply Z.ltb_ge. unfold Dict.len.
  destruct nn; [contradiction|]. simpl length. lia.
Qed.

Lemma update_neighbors_creates x nn i j :
  NoDup (Dict.keys nn) -> In i (Dict.keys nn) -> In j (Dict.keys nn) ->
  (i < j)%Z ->
  establishes (no_edge i j) (blank_edge i j)
    (update_neighbors x nn ;;
     modify (fun d => set_time_stamp (time_stamp d + 1) d))%m.
Proof.
  intros Hnd Hi Hj Hlt.
  apply establishes_bind_l; [|intros ?; preserves_step].
  apply establishes_bind_l;
    [|intros ?; apply prevent_collapsing_keeps_blank_edge].
  apply establishes_foldM with (a0 := i); try assumption.
  - intros cc i' _ Hne. now apply update_neighbor_keeps_no_edge.
  - intros cc. now apply update_neighbor_creates.
  - intros cc i' _ Hne. now apply update_neighbor_keeps_blank_edge.
Qed.

(** C5, as amended.  When [_update] returns, every pair [i < j] of
    neighbours of the point that had no entry in the shared density graph
    has one with value 0 and time stamp 0, whatever the clock shows. *)
Theorem new_edge_is_blank x d d' nn i j :
  _find_fixed_radius_nn x d = Ok nn ->
  In i (Dict.keys nn) -> In j (Dict.keys nn) -> (i < j)%Z ->
  entry i j (s d) = None ->
  _update x d = (Ok tt, d') ->
  entry i j (s d') = Some 0 /\ entry i j (s_t d') = Some 0%Z.
Proof.
  intros Hnn Hi Hj Hlt Hno Hu.
  destruct (find_fixed_radius_nn_spec _ _ Hnn) as [Hnd _].
  rewrite (update_unfold _ _ Hnn), (len_neighbors _ _ Hi) in Hu.
  exact (@update_neighbors_creates x nn i j Hnd Hi Hj Hlt d tt d' Hno Hu).
Qed.

(** ** The first loop of [_update]: what it leaves in the heap *)

Lemma same_store_refl d : same_store d d.
Proof. now repeat split. Qed.

Lemma same_store_trans d1 d2 d3 :
  same_store d1 d2 -> same_store d2 d3 -> same_store d1 d3.
Proof.
  intros [H1 [H2 [H3 H4]]] [G1 [G2 [G3 G4]]].
  repeat split; congruence.
Qed.

Lemma graph_only_ret : graph_only (ret tt).
Proof. intros d. exists d. split; [reflexivity|apply same_store_refl]. Qed.

Lemma graph_only_usd i j : graph_only (update_shared_density i j).
Proof.
  intros d. usd_unfold.
  usd_cases i j d; dict_simpl; eexists; (split; [reflexivity|]);
    now repeat split.
Qed.

Lemma graph_only_for_each {A} (l : list A) body :
  (forall a, graph_only (body a)) -> graph_only (for_each l body).
Proof.
  intros Hb. unfold for_each. generalize tt.
  induction l as [|a l IH]; intros u d; simpl.
  - exists d. destruct u. split; [reflexivity|apply same_store_refl].
  - destruct (Hb a d) as [d1 [E1 S1]]. destruct (IH tt d1) as [d2 [E2 S2]].
    exists d2. split; [|eapply same_store_trans; eassumption].
    unfold bind. now rewrite E1.
Qed.

Lemma graph_only_shared_density (nn : dict addr) i :
  graph_only (for_each (Dict.keys nn)
                (fun j => if Z.gtb j i then update_shared_density i j
                          else ret tt)).
Proof.
  apply graph_only_for_each. intros j.
  destruct (Z.gtb j i); [apply graph_only_usd|apply graph_only_ret].
Qed.

Lemma gaussian_ext a b d d' :
  clustering_threshold d = clustering_threshold d' ->
  _gaussian_neighborhood a b d = _gaussian_neighborhood a b d'.
Proof. intros H. unfold _gaussian_neighborhood. now rewrite H. Qed.

Lemma moved_center_ext x c its d d' :
  clustering_threshold d = clustering_threshold d' ->
  moved_center x c its d = moved_center x c its d'.
Proof.
  intros H. induction its as [|[j cj] r IH]; simpl; [reflexivity|].
  now rewrite (gaussian_ext _ _ _ _ H), IH.
Qed.

Lemma update_neighbor_run x nn cc i d a m :
  micro_cluster i d = Ok a ->
  moved x d a = Ok m ->
  exists d',
    update_neighbor x nn cc i d
    = (Ok (Dict.set i (center (heap d a)) cc), d') /\
    heap d' a = updated d a m /\
    (forall a', a' <> a -> heap d' a' = heap d a') /\
    micro_clusters d' = micro_clusters d /\
    time_stamp d' = time_stamp d /\
    config d' = config d.
Proof.
  intros Ha Hm. unfold update_neighbor.
  unfold bind at 1, reads at 1. rewrite Ha.
  unfold bind at 1, gets at 1.
  unfold bind at 1, modify at 1.
  unfold bind at 1, reads at 1.
  unfold moved in Hm.
  erewrite moved_center_ext; [rewrite Hm|reflexivity].
  unfold bind at 1, modify at 1.
  unfold bind at 1, modify at 1.
  match goal with
  | |- context [bind (for_each _ _) _ ?d3] =>
      destruct (graph_only_shared_density nn i d3)
        as [d' [E [Hh [Hmc [Hts Hc]]]]]
  end.
  exists d'. unfold bind. rewrite E. split; [reflexivity|].
  rewrite Hh, Hmc, Hts, Hc. simpl. unfold heap_set.
  repeat split.
  - now rewrite !Nat.eqb_refl.
  - intros a' Hne. apply Nat.eqb_neq in Hne. now rewrite !Hne.
Qed.

Lemma update_neighbor_inv x nn cc i d cc' d' :
  update_neighbor x nn cc i d = (Ok cc', d') ->
  exists a m,
    micro_cluster i d = Ok a /\ moved x d a = Ok m /\
    cc' = Dict.set i (center (heap d a)) cc /\
    heap d' a = updated d a m /\
    (forall a', a' <> a -> heap d' a' = heap d a') /\
    micro_clusters d' = micro_clusters d /\
    time_stamp d' = time_stamp d /\
    config d' = config d.
Proof.
  intros H.
  destruct (micro_cluster i d) as [a|e] eqn:Ha.
  2:{ unfold update_neighbor in H. unfold bind at 1, reads at 1 in H.
      rewrite Ha in H. discriminate. }
  destruct (moved x d a) as [m|e] eqn:Hm.
  - destruct (@update_neighbor_run x nn cc i d a m Ha Hm) as [d'' [E R]].
    rewrite E in H. injection H as <- <-. exists a, m. now repeat split.
  - exfalso. unfold update_neighbor in H.
    unfold bind at 1, reads at 1 in H. rewrite Ha in H.
    unfold bind at 1, gets at 1 in H.
    unfold bind at 1, modify at 1 in H.
    unfold bind at 1, reads at 1 in H.
    unfold moved in Hm.
    erewrite moved_center_ext in H; [rewrite Hm in H|reflexivity].
    discriminate.
Qed.

Lemma moved_ext x d d' a :
  clustering_threshold d = clustering_threshold d' ->
  heap d' a = heap d a ->
  moved x d' a = moved x d a.
Proof.
  intros Hth Hh. unfold moved. rewrite Hh. symmetry.
  now apply moved_center_ext.
Qed.

(** The first loop of [_update], on keys that refer to distinct objects. *)
Lemma update_neighbors_moved x nn l :
  NoDup l ->
  forall cc d cc' d',
  (forall k k' a, In k l -> In k' l ->
     Dict.get k (micro_clusters d) = Some a ->
     Dict.get k' (micro_clusters d) = Some a -> k = k') ->
  foldM (update_neighbor x nn) l cc d = (Ok cc', d') ->
  micro_clusters d' = micro_clusters d /\
  time_stamp d' = time_stamp d /\
  config d' = config d /\
  (forall a, (forall k, In k l -> Dict.get k (micro_clusters d) <> Some a) ->
             heap d' a = heap d a) /\
  (forall k a, In k l -> Dict.get k (micro_clusters d) = Some a ->
     Dict.get k cc' = Some (center (heap d a)) /\
     moved x d a = Ok (center (heap d' a))) /\
  (forall k, ~ In k l -> Dict.get k cc' = Dict.get k cc).
Proof.
  induction 1 as [|k l Hk Hnd IH]; intros cc d cc' d' Hinj H; simpl in H.
  - injection H as <- <-. repeat split; try reflexivity; intros; contradiction.
  - apply bind_Ok_inv in H as [cc1 [d1 [H1 H2]]].
    apply update_neighbor_inv in H1
      as [a [m [Ha [Hm [-> [Hh [Hoth [Hmc [Hts Hc]]]]]]]]].
    unfold micro_cluster, Dict.getitem in Ha.
    destruct (Dict.get k (micro_clusters d)) as [a0|] eqn:Hg; [|discriminate].
    injection Ha as ->.
    apply IH in H2 as [Hmc' [Hts' [Hc' [Hfr [Hin Hout]]]]].
    2:{ rewrite Hmc. intros k1 k2 a1 Hk1 Hk2. apply Hinj; now right. }
    rewrite Hmc in *.
    assert (Hth : clustering_threshold d = clustering_threshold d1).
    { unfold config in Hc. now injection Hc. }
    assert (Ha_l : forall k', In k' l ->
                              Dict.get k' (micro_clusters d) <> Some a).
    { intros k' Hin' Hg'.
      assert (k' = k) by (apply (Hinj k' k a); simpl; auto).
      subst. contradiction. }
    split; [congruence|]. split; [congruence|]. split; [congruence|].
    split; [|split].
    + intros a' Ha'. rewrite Hfr by (intros k' Hin'; apply Ha'; now right).
      apply Hoth. intros ->. apply (Ha' k); [now left|exact Hg].
    + intros k0 a0 [<-|Hin'] Hg0.
      * rewrite Hg in Hg0. injection Hg0 as <-. split.
        -- rewrite Hout by assumption. apply get_set_same.
        -- rewrite (Hfr a Ha_l), Hh. exact Hm.
      * assert (Hne : a0 <> a) by (intros ->; now apply (Ha_l k0)).
        destruct (Hin k0 a0 Hin' Hg0) as [Hcc' Hmv]. split.
        -- rewrite Hcc'. do 2 f_equal. now apply Hoth.
        -- rewrite <- Hmv. symmetry. apply moved_ext; [exact Hth|].
           now apply Hoth.
    + intros k' Hnin. rewrite Hout by (intros Hin'; apply Hnin; now right).
      apply get_set_other. intros ->. apply Hnin. now left.
Qed.

(** ** The loop that prevents collapsing *)

Lemma center_set_center a c d a' :
  center (heap (set_center a c d) a')
  = if Nat.eqb a' a then c else center (heap d a').
Proof.
  unfold set_center, store, heap_set. simpl. now destruct (Nat.eqb a' a).
Qed.

Lemma prevent_collapse_run cc i j d ai aj dist ci cj :
  micro_cluster i d = Ok ai ->
  micro_cluster j d = Ok aj ->
  _distance (center (heap d ai)) (center (heap d aj)) = Ok dist ->
  Dict.get i cc = Some ci ->
  Dict.get j cc = Some cj ->
  prevent_collapse cc i j d
  = if Rltb dist (clustering_threshold d)
    then (Ok tt, set_center aj cj (set_center ai ci d))
    else (Ok tt, d).
Proof.
  intros Hi Hj Hd Hci Hcj. unfold prevent_collapse.
  unfold bind at 1, reads at 1. rewrite Hi.
  unfold bind at 1, reads at 1. rewrite Hj.
  unfold bind at 1, reads at 1. rewrite Hd.
  unfold bind at 1, gets at 1.
  destruct (Rltb dist (clustering_threshold d)); [|reflexivity].
  unfold bind, reads, modify, Dict.getitem. now rewrite Hci, Hcj.
Qed.

(** The states that [prevent_collapse] can leave behind. *)
Lemma prevent_collapse_outcome cc i j d r d' :
  prevent_collapse cc i j d = (r, d') ->
  d' = d \/
  exists ai ci,
    micro_cluster i d = Ok ai /\ Dict.get i cc = Some ci /\
    (d' = set_center ai ci d \/
     exists aj cj,
       micro_cluster j d = Ok aj /\ Dict.get j cc = Some cj /\
       d' = set_center aj cj (set_center ai ci d)).
Proof.
  unfold prevent_collapse.
  unfold bind at 1, reads at 1.
  destruct (micro_cluster i d) as [ai|e] eqn:Hi; [|intros [= <- <-]; now left].
  unfold bind at 1, reads at 1.
  destruct (micro_cluster j d) as [aj|e] eqn:Hj; [|intros [= <- <-]; now left].
  unfold bind at 1, reads at 1.
  destruct (_distance _ _) as [dist|e]; [|intros [= <- <-]; now left].
  unfold bind at 1, gets at 1.
  destruct (Rltb dist (clustering_threshold d));
    [|intros [= <- <-]; now left].
  unfold bind at 1, reads at 1, Dict.getitem.
  destruct (Dict.get i cc) as [ci|] eqn:Hci; [|intros [= <- <-]; now left].
  unfold bind, modify, reads. simpl.
  destruct (Dict.get j cc) as [cj|] eqn:Hcj; simpl; intros [= <- <-];
    right; exists ai, ci; (split; [reflexivity|]); (split; [reflexivity|]).
  - right. exists aj, cj. repeat split; reflexivity.
  - now left.
Qed.

Section Collapse.
Variable d0 : DBSTREAM.
Variable nn : dict addr.
Variable cc : dict point.
Variable mv : addr -> point.

Hypothesis Hnn :
  forall k a, In (k, a) nn -> Dict.get k (micro_clusters d0) = Some a.
Hypothesis Hcc :
  forall k a, In (k, a) nn -> Dict.get k cc = Some (center (heap d0 a)).

(** Each neighbour holds its moved center or its center of before the
    update. *)
Definition moved_or_reverted (d : DBSTREAM) : Prop :=
  micro_clusters d = micro_clusters d0 /\
  clustering_threshold d = clustering_threshold d0 /\
  forall k a, In (k, a) nn ->
    center (heap d a) = mv a \/ center (heap d a) = center (heap d0 a).

Definition reverted (a : addr) (d : DBSTREAM) : Prop :=
  moved_or_reverted d /\ center (heap d a) = center (heap d0 a).

Lemma neighbor_key k : In k (Dict.keys nn) -> exists a, In (k, a) nn.
Proof.
  intros H. apply In_keys_get in H as [a Ha]. exists a. now apply get_In.
Qed.

Lemma neighbor_ref d k a :
  micro_clusters d = micro_clusters d0 -> In k (Dict.keys nn) ->
  micro_cluster k d = Ok a ->
  In (k, a) nn /\ Dict.get k cc = Some (center (heap d0 a)).
Proof.
  intros Hm Hk Ha. destruct (@neighbor_key _ Hk) as [a' Hin].
  unfold micro_cluster, Dict.getitem in Ha.
  rewrite Hm, (@Hnn _ _ Hin) in Ha. injection Ha as <-.
  split; [exact Hin|now apply (@Hcc k)].
Qed.

Lemma moved_or_reverted_set_center d k a :
  moved_or_reverted d -> In (k, a) nn ->
  moved_or_reverted (set_center a (center (heap d0 a)) d).
Proof.
  intros [Hm [Hth H]] Hin. split; [exact Hm|]. split; [exact Hth|].
  intros k' a' Hin'. rewrite center_set_center.
  destruct (Nat.eqb_spec a' a) as [->|Hne]; [now right|now apply (H k')].
Qed.

Lemma reverted_set_center d a0 k a :
  reverted a0 d -> In (k, a) nn ->
  reverted a0 (set_center a (center (heap d0 a)) d).
Proof.
  intros [Hmr H0] Hin. split; [now apply moved_or_reverted_set_center with k|].
  rewrite center_set_center.
  destruct (Nat.eqb_spec a0 a) as [->|Hne]; [reflexivity|exact H0].
Qed.

Lemma prevent_collapse_keeps i j :
  In i (Dict.keys nn) -> In j (Dict.keys nn) ->
  preserves moved_or_reverted (prevent_collapse cc i j).
Proof.
  intros Hi Hj d H.
  destruct (prevent_collapse cc i j d) as [r d'] eqn:E.
  apply prevent_collapse_outcome in E
    as [->|[ai [ci [Hai [Hci [->|[aj [cj [Haj [Hcj ->]]]]]]]]]];
    simpl; [exact H| |].
  - destruct (@neighbor_ref d i ai (proj1 H) Hi Hai) as [Hin Hc].
    rewrite Hc in Hci. injection Hci as <-.
    now apply moved_or_reverted_set_center with i.
  - destruct (@neighbor_ref d i ai (proj1 H) Hi Hai) as [Hin Hc].
    destruct (@neighbor_ref d j aj (proj1 H) Hj Haj) as [Hin' Hc'].
    rewrite Hc in Hci. injection Hci as <-.
    rewrite Hc' in Hcj. injection Hcj as <-.
    apply moved_or_reverted_set_center with j; [|exact Hin'].
    now apply moved_or_reverted_set_center with i.
Qed.

Lemma prevent_collapse_keeps_reverted a0 i j :
  In i (Dict.keys nn) -> In j (Dict.keys nn) ->
  preserves (reverted a0) (prevent_collapse cc i j).
Proof.
  intros Hi Hj d H.
  destruct (prevent_collapse cc i j d) as [r d'] eqn:E.
  apply prevent_collapse_outcome in E
    as [->|[ai [ci [Hai [Hci [->|[aj [cj [Haj [Hcj ->]]]]]]]]]];
    simpl; [exact H| |].
  - destruct (@neighbor_ref d i ai (proj1 (proj1 H)) Hi Hai) as [Hin Hc].
    rewrite Hc in Hci. injection Hci as <-.
    now apply reverted_set_center with i.
  - destruct (@neighbor_ref d i ai (proj1 (proj1 H)) Hi Hai) as [Hin Hc].
    destruct (@neighbor_ref d j aj (proj1 (proj1 H)) Hj Haj) as [Hin' Hc'].
    rewrite Hc in Hci. injection Hci as <-.
    rewrite Hc' in Hcj. injection Hcj as <-.
    apply reverted_set_center with j; [|exact Hin'].
    now apply reverted_set_center with i.
Qed.

(** One of the two holds its center of before the update. *)
Definition one_reverted (ai aj : addr) (d : DBSTREAM) : Prop :=
  reverted ai d \/ reverted aj d.

(** Both still hold their moved centers. *)
Definition both_moved (ai aj : addr) (d : DBSTREAM) : Prop :=
  moved_or_reverted d /\
  center (heap d ai) = mv ai /\ center (heap d aj) = mv aj.

Definition both_reverted (ai aj : addr) (d : DBSTREAM) : Prop :=
  reverted ai d /\ reverted aj d.

Lemma prevent_collapse_keeps_one ai aj i j :
  In i (Dict.keys nn) -> In j (Dict.keys nn) ->
  preserves (one_reverted ai aj) (prevent_collapse cc i j).
Proof.
  intros Hi Hj d [H|H]; [left|right];
    now apply prevent_collapse_keeps_reverted.
Qed.

Lemma prevent_collapse_keeps_both ai aj i j :
  In i (Dict.keys nn) -> In j (Dict.keys nn) ->
  preserves (both_reverted ai aj) (prevent_collapse cc i j).
Proof.
  intros Hi Hj d [H1 H2]; split;
    now apply prevent_collapse_keeps_reverted.
Qed.

Section Pair.
Variables (i j : Z) (ai aj : addr) (dist : R).
Hypothesis Hi : In (i, ai) nn.
Hypothesis Hj : In (j, aj) nn.
Hypothesis Hdist : _distance (mv ai) (mv aj) = Ok dist.
Hypothesis Hclose : dist < clustering_threshold d0.

Lemma prevent_collapse_reverts d :
  both_moved ai aj d ->
  prevent_collapse cc i j d
  = (Ok tt, set_center aj (center (heap d0 aj))
              (set_center ai (center (heap d0 ai)) d)).
Proof.
  intros [[Hm [Hth _]] [Hci Hcj]].
  rewrite (@prevent_collapse_run cc i j d ai aj dist
             (center (heap d0 ai)) (center (heap d0 aj))).
  - rewrite Hth, Rltb_true by assumption. reflexivity.
  - unfold micro_cluster, Dict.getitem. now rewrite Hm, (@Hnn _ _ Hi).
  - unfold micro_cluster, Dict.getitem. now rewrite Hm, (@Hnn _ _ Hj).
  - now rewrite Hci, Hcj.
  - now apply (@Hcc i).
  - now apply (@Hcc j).
Qed.

Lemma prevent_collapse_both :
  establishes (both_moved ai aj) (both_reverted ai aj)
    (prevent_collapse cc i j).
Proof.
  intros d [] d' H E. rewrite (prevent_collapse_reverts H) in E.
  injection E as <-. destruct H as [H _].
  assert (H1 : moved_or_reverted
                 (set_center aj (center (heap d0 aj))
                    (set_center ai (center (heap d0 ai)) d))).
  { apply moved_or_reverted_set_center with j; [|exact Hj].
    now apply moved_or_reverted_set_center with i. }
  split; (split; [exact H1|]); rewrite !center_set_center.
  - destruct (Nat.eqb_spec ai aj) as [->|Hne]; [reflexivity|].
    now rewrite Nat.eqb_refl.
  - now rewrite Nat.eqb_refl.
Qed.

Lemma prevent_collapse_one :
  establishes moved_or_reverted (one_reverted ai aj)
    (prevent_collapse cc i j).
Proof.
  intros d u d' H E.
  assert (Hki : In i (Dict.keys nn))
    by (change i with (fst (i, ai)); now apply in_map).
  assert (Hkj : In j (Dict.keys nn))
    by (change j with (fst (j, aj)); now apply in_map).
  destruct H as [Hm [Hth H]].
  destruct (H i ai Hi) as [Hci|Hci].
  - destruct (H j aj Hj) as [Hcj|Hcj].
    + left. apply (@prevent_collapse_both d u d'); [|exact E].
      now repeat split.
    + right.
      eapply preserves_Ok;
        [apply (@prevent_collapse_keeps_reverted aj i j Hki Hkj)|
        |exact E]. now repeat split.
  - left.
    eapply preserves_Ok;
      [apply (@prevent_collapse_keeps_reverted ai i j Hki Hkj)|
      |exact E]. now repeat split.
Qed.
End Pair.

Lemma prevent_collapsing_keeps :
  preserves moved_or_reverted (prevent_collapsing nn cc).
Proof.
  unfold prevent_collapsing.
  apply preserves_for_each_in. intros i Hi.
  apply preserves_for_each_in. intros j Hj.
  apply preserves_if; [now apply prevent_collapse_keeps|apply preserves_ret].
Qed.

Lemma prevent_collapsing_one i j ai aj dist :
  NoDup (Dict.keys nn) ->
  In (i, ai) nn -> In (j, aj) nn -> (i < j)%Z ->
  _distance (mv ai) (mv aj) = Ok dist ->
  dist < clustering_threshold d0 ->
  establishes moved_or_reverted (one_reverted ai aj)
    (prevent_collapsing nn cc).
Proof.
  intros Hnd Hi Hj Hlt Hdist Hclose.
  assert (Hki : In i (Dict.keys nn))
    by (change i with (fst (i, ai)); now apply in_map).
  assert (Hkj : In j (Dict.keys nn))
    by (change j with (fst (j, aj)); now apply in_map).
  unfold prevent_collapsing.
  apply establishes_for_each with (a0 := i); try assumption.
  - intros i' Hi' _. apply preserves_for_each_in. intros j' Hj'.
    apply preserves_if; [now apply prevent_collapse_keeps|apply preserves_ret].
  - apply establishes_for_each with (a0 := j); try assumption.
    + intros j' Hj' _.
      apply preserves_if;
        [now apply prevent_collapse_keeps|apply preserves_ret].
    + replace (Z.gtb j i) with true by (symmetry; apply Z.gtb_lt; lia).
      now apply prevent_collapse_one with dist.
    + intros j' Hj' _.
      apply preserves_if;
        [now apply prevent_collapse_keeps_one|apply preserves_ret].
  - intros i' Hi' _. apply preserves_for_each_in. intros j' Hj'.
    apply preserves_if;
      [now apply prevent_collapse_keeps_one|apply preserves_ret].
Qed.

Lemma prevent_collapsing_both i j ai aj dist :
  NoDup (Dict.keys nn) ->
  (forall k, In k (Dict.keys nn) -> k = i \/ k = j) ->
  In (i, ai) nn -> In (j, aj) nn -> (i < j)%Z ->
  _distance (mv ai) (mv aj) = Ok dist ->
  dist < clustering_threshold d0 ->
  establishes (both_moved ai aj) (both_reverted ai aj)
    (prevent_collapsing nn cc).
Proof.
  intros Hnd Honly Hi Hj Hlt Hdist Hclose.
  assert (Hki : In i (Dict.keys nn))
    by (change i with (fst (i, ai)); now apply in_map).
  assert (Hkj : In j (Dict.keys nn))
    by (change j with (fst (j, aj)); now apply in_map).
  assert (Hii : Z.gtb i i = false)
    by (rewrite Z.gtb_ltb; apply Z.ltb_irrefl).
  assert (Hjj : Z.gtb j j = false)
    by (rewrite Z.gtb_ltb; apply Z.ltb_irrefl).
  assert (Hij : Z.gtb i j = false)
    by (rewrite Z.gtb_ltb; apply Z.ltb_ge; lia).
  unfold prevent_collapsing.
  apply establishes_for_each with (a0 := i); try assumption.
  - intros i' Hi' Hne. destruct (Honly i' Hi') as [-> | ->]; [congruence|].
    apply preserves_for_each_in. intros j' Hj'.
    destruct (Honly j' Hj') as [-> | ->]; [rewrite Hij|rewrite Hjj];
      apply preserves_ret.
  - apply establishes_for_each with (a0 := j); try assumption.
    + intros j' Hj' Hne. destruct (Honly j' Hj') as [-> | ->]; [|congruence].
      rewrite Hii. apply preserves_ret.
    + replace (Z.gtb j i) with true by (symmetry; apply Z.gtb_lt; lia).
      now apply prevent_collapse_both with dist.
    + intros j' Hj' _.
      apply preserves_if;
        [now apply prevent_collapse_keeps_both|apply preserves_ret].
  - intros i' Hi' _. apply preserves_for_each_in. intros j' Hj'.
    apply preserves_if;
      [now apply prevent_collapse_keeps_both|apply preserves_ret].
Qed.
End Collapse.

Lemma NoDup_values_inj {V} (l : dict V) k k' a :
  NoDup (Dict.values l) ->
  Dict.get k l = Some a -> Dict.get k' l = Some a -> k = k'.
Proof.
  induction l as [|[k0 v0] r IH]; simpl; [discriminate|].
  intros Hnd. inversion Hnd as [|? ? Hv Hr]; subst.
  assert (Hin : forall k1, Dict.get k1 r = Some v0 -> False).
  { intros k1 Hg. apply Hv. apply get_In in Hg.
    change v0 with (snd (k1, v0)). now apply in_map. }
  destruct (Z.eqb_spec k k0) as [->|Hk], (Z.eqb_spec k' k0) as [->|Hk'].
  - reflexivity.
  - intros [= <-] Hg. now destruct (Hin k').
  - intros Hg [= <-]. now destruct (Hin k).
  - now apply IH.
Qed.

(** The run of [_update] on a point that has neighbours, cut at the end
    of its first loop. *)
Lemma update_with_neighbors x d d' nn :
  NoDup (Dict.values (micro_clusters d)) ->
  _find_fixed_radius_nn x d = Ok nn ->
  nn <> [] ->
  _update x d = (Ok tt, d') ->
  exists cc d1 d2,
    prevent_collapsing nn cc d1 = (Ok tt, d2) /\
    heap d' = heap d2 /\
    NoDup (Dict.keys nn) /\
    (forall k a, In (k, a) nn -> Dict.get k (micro_clusters d) = Some a) /\
    (forall k a, In (k, a) nn -> Dict.get k cc = Some (center (heap d a))) /\
    (forall k a, In (k, a) nn -> moved x d a = Ok (center (heap d1 a))) /\
    moved_or_reverted d nn (fun a => center (heap d1 a)) d1.
Proof.
  intros Hnd Hnn Hne Hu.
  destruct (find_fixed_radius_nn_spec _ _ Hnn) as [Hndk Hin].
  rewrite (update_unfold _ _ Hnn) in Hu.
  assert (Hlen : Z.ltb (Dict.len nn) 1 = false).
  { destruct nn as [|[k a] r]; [congruence|].
    apply (@len_neighbors _ _ k). now left. }
  rewrite Hlen in Hu.
  apply bind_Ok_inv in Hu as [[] [d2 [Hu Hts]]].
  injection Hts as <-.
  apply bind_Ok_inv in Hu as [cc [d1 [H1 H2]]].
  apply update_neighbors_moved in H1
    as [Hmc [_ [Hc [_ [Hcc _]]]]]; [|exact Hndk|].
  2:{ intros k k' a _ _. now apply NoDup_values_inj. }
  assert (Hk : forall k a, In (k, a) nn -> In k (Dict.keys nn))
    by (intros k a H; change k with (fst (k, a)); now apply in_map).
  exists cc, d1, d2. split; [exact H2|]. split; [reflexivity|].
  split; [exact Hndk|]. split; [exact Hin|].
  split; [intros k a H; now apply (Hcc k a (Hk k a H)), Hin|].
  split; [intros k a H; now apply (Hcc k a (Hk k a H)), Hin|].
  split; [exact Hmc|]. split; [unfold config in Hc; now injection Hc|].
  intros k a H. now left.
Qed.

(** ** The Euclidean distance over the keys of a point *)

Lemma In_get {V} (d : dict V) k v :
  NoDup (Dict.keys d) -> In (k, v) d -> Dict.get k d = Some v.
Proof.
  induction d as [|[k' v'] r IH]; simpl; [contradiction|].
  intros Hnd [[= -> ->]|Hin]; [now rewrite Z.eqb_refl|].
  inversion Hnd as [|? ? Hn Hnd']; subst.
  destruct (Z.eqb_spec k k') as [->|_]; [|now apply IH].
  exfalso. apply Hn. change k' with (fst (k', v)). now apply in_map.
Qed.

Lemma sqdist_nonneg K a b : 0 <= sqdist K a b.
Proof.
  induction K as [|k K IH]; simpl; [lra|].
  pose proof (Rle_0_sqr (at_key k a - at_key k b)) as H. unfold Rsqr in H.
  lra.
Qed.

Lemma sqdist_sym K a b : sqdist K a b = sqdist K b a.
Proof. induction K as [|k K IH]; simpl; [reflexivity|]. rewrite IH. ring. Qed.

Lemma sqdist_perm K K' a b :
  Permutation K K' -> sqdist K a b = sqdist K' a b.
Proof. induction 1; simpl; lra. Qed.

Lemma distance_same_dimensions a b dist :
  _distance a b = Ok dist -> same_dimensions a b = true.
Proof.
  unfold _distance, minkowski_distance.
  destruct (same_dimensions a b); [reflexivity|discriminate].
Qed.

Lemma mem_In_keys (b : point) k :
  Dict.mem k b = true -> In k (Dict.keys b).
Proof.
  unfold Dict.mem. destruct (Dict.get k b) as [v|] eqn:E; [|discriminate].
  intros _. exact (get_In_keys _ _ E).
Qed.

(** Equal dimensions, from a point whose keys are distinct: the keys of
    the other are the same, in some order. *)
Lemma same_dimensions_permutation a b :
  NoDup (Dict.keys a) -> same_dimensions a b = true ->
  Permutation (Dict.keys a) (Dict.keys b).
Proof.
  intros Hnd H. unfold same_dimensions in H.
  apply andb_prop in H as [Hl Hk]. apply Nat.eqb_eq in Hl.
  apply NoDup_Permutation_bis; [exact Hnd| |].
  - unfold Dict.keys. rewrite !length_map. lia.
  - intros k Hin. apply mem_In_keys.
    exact (proj1 (forallb_forall _ _) Hk k Hin).
Qed.

Lemma permutation_same_dimensions K a b :
  Permutation (Dict.keys a) K -> Permutation (Dict.keys b) K ->
  same_dimensions a b = true.
Proof.
  intros Ha Hb. unfold same_dimensions. apply andb_true_intro. split.
  - apply Nat.eqb_eq.
    rewrite <- (length_map fst a), <- (length_map fst b).
    change (length (Dict.keys a) = length (Dict.keys b)).
    now rewrite (Permutation_length Ha), (Permutation_length Hb).
  - apply forallb_forall. intros k Hk. unfold Dict.mem.
    assert (Hin : In k (Dict.keys b)).
    { eapply Permutation_in; [apply Permutation_sym, Hb|].
      eapply Permutation_in; [exact Ha|exact Hk]. }
    apply In_keys_get in Hin as [v ->]. reflexivity.
Qed.

Lemma sum_of_squares (a b : point) its :
  (forall k v, In (k, v) its -> Dict.get k a = Some v) ->
  (forall k, In k (Dict.keys its) -> In k (Dict.keys b)) ->
  forall acc,
    fold_left Rplus
      (map (fun kv : Z * R =>
              match Dict.get (fst kv) b with
              | Some bk => Rabs (snd kv - bk) ^ 2
              | None => 0
              end) its) acc
    = acc + sqdist (Dict.keys its) a b.
Proof.
  induction its as [|[k v] r IH]; intros Ha Hb acc; [simpl; lra|].
  assert (Hk : In k (Dict.keys b)) by (apply Hb; now left).
  apply In_keys_get in Hk as [bk Hbk].
  assert (Eb : at_key k b = bk) by (unfold at_key; now rewrite Hbk).
  assert (Ea : at_key k a = v)
    by (unfold at_key; now rewrite (Ha k v (or_introl eq_refl))).
  assert (E : forall t, Rabs t * (Rabs t * 1) = t * t)
    by (intros t; unfold Rabs; destruct (Rcase_abs t); ring).
  cbn [map fold_left fst snd Dict.keys sqdist fold_right].
  rewrite IH; [|intros; apply Ha; now right|intros; apply Hb; now right].
  rewrite Hbk, Ea, Eb. cbn [pow]. rewrite E.
  change (map fst r) with (Dict.keys r). unfold sqdist. ring.
Qed.

(** The distance of two points over the distinct keys [K] is the
    Euclidean one. *)
Lemma distance_over K a b :
  NoDup K ->
  Permutation (Dict.keys a) K -> Permutation (Dict.keys b) K ->
  _distance a b = Ok (sqrt (sqdist K a b)).
Proof.
  intros Hnd Ha Hb. unfold _distance, minkowski_distance.
  rewrite (@permutation_same_dimensions K a b Ha Hb). cbn [rbind].
  rewrite (@sum_of_squares a b a).
  - rewrite Rplus_0_l, (@sqdist_perm _ _ a b Ha).
    apply math_sqrt_ok, sqdist_nonneg.
  - intros k v Hin. apply In_get; [|exact Hin].
    eapply Permutation_NoDup; [apply Permutation_sym, Ha|exact Hnd].
  - intros k Hk. eapply Permutation_in; [apply Permutation_sym, Hb|].
    eapply Permutation_in; [exact Ha|exact Hk].
Qed.

Lemma sqrt_below v r : 0 <= v -> sqrt v < r -> v < r * r.
Proof.
  intros Hv H. pose proof (sqrt_pos v) as Hp.
  rewrite <- (sqrt_sqrt v Hv). nra.
Qed.

Lemma sqrt_not_below v r : 0 <= v -> 0 <= r -> (r <= sqrt v <-> r * r <= v).
Proof.
  intros Hv Hr. split; intros H.
  - rewrite <- (sqrt_sqrt v Hv). nra.
  - rewrite <- (sqrt_square r Hr). apply sqrt_le_1; nra.
Qed.

(** ** A moved center lies between the center and the point *)

Lemma gaussian_unit a b d g :
  _gaussian_neighborhood a b d = Ok g -> 0 < g <= 1.
Proof.
  unfold _gaussian_neighborhood.
  destruct (_distance a b) as [dist|e]; cbn [rbind]; [|discriminate].
  set (sigma := clustering_threshold d / 3). unfold truediv.
  destruct (Req_dec_T (2 * (sigma * sigma)) 0) as [E|Hne]; cbn [rbind];
    [discriminate|].
  intros [= <-]. split; [apply exp_pos|].
  assert (Hs : 0 < 2 * (sigma * sigma)) by nra.
  set (q := - (dist * dist) / (2 * (sigma * sigma))).
  assert (Hq : q <= 0).
  { unfold q, Rdiv. pose proof (Rinv_0_lt_compat _ Hs) as Hi.
    pose proof (Rle_0_sqr dist) as H2. unfold Rsqr in H2. nra. }
  destruct Hq as [Hq | ->]; [|rewrite exp_0; lra].
  left. rewrite <- exp_0. now apply exp_increasing.
Qed.

Lemma moved_center_at x c its d m g :
  _gaussian_neighborhood x c d = Ok g ->
  NoDup (Dict.keys its) ->
  moved_center x c its d = Ok m ->
  Dict.keys m = Dict.keys its /\
  forall k, In k (Dict.keys its) ->
    at_key k m = at_key k its + g * (at_key k x - at_key k its).
Proof.
  intros Hg. revert m.
  induction its as [|[j cj] r IH]; intros m Hnd; simpl.
  - intros [= <-]. split; [reflexivity|intros k []].
  - rewrite Hg. cbn [rbind]. unfold Dict.getitem.
    destruct (Dict.get j x) as [xj|] eqn:Hxj; cbn [of_option rbind];
      [|discriminate].
    destruct (moved_center x c r d) as [r'|e]; cbn [rbind]; [|discriminate].
    intros [= <-]. apply NoDup_cons_iff in Hnd as [Hj Hnd].
    destruct (IH r' Hnd eq_refl) as [Hk Hat]. split.
    + simpl. now rewrite Hk.
    + intros k Hin. unfold at_key. simpl.
      destruct (Z.eqb_spec k j) as [->|Hne]; [now rewrite Hxj|].
      apply Hat. destruct Hin as [->|Hin]; [congruence|exact Hin].
Qed.

(** The center that [_update] computes for a neighbour of [x]: over the
    keys of [x], and at every key the same share [g] of the way from the
    center to [x]. *)
Lemma moved_center_between x c d dist m :
  NoDup (Dict.keys x) ->
  _distance c x = Ok dist ->
  moved_center x c (Dict.items c) d = Ok m ->
  Permutation (Dict.keys c) (Dict.keys x) /\
  Permutation (Dict.keys m) (Dict.keys x) /\
  exists g, 0 < g <= 1 /\
    forall k, In k (Dict.keys x) ->
      at_key k m = at_key k c + g * (at_key k x - at_key k c).
Proof.
  intros Hnd Hd Hm. destruct c as [|[j cj] r].
  - apply distance_same_dimensions in Hd. unfold same_dimensions in Hd.
    apply andb_prop in Hd as [Hl _]. apply Nat.eqb_eq in Hl.
    destruct x as [|kv x]; [|discriminate]. simpl in Hm.
    injection Hm as <-. split; [constructor|]. split; [constructor|].
    exists 1. split; [lra|intros k []].
  - destruct (_gaussian_neighborhood x ((j, cj) :: r) d) as [g|e] eqn:Hg.
    2:{ simpl in Hm. rewrite Hg in Hm. discriminate. }
    assert (Hp : Permutation (Dict.keys x) (Dict.keys ((j, cj) :: r))).
    { apply same_dimensions_permutation; [exact Hnd|].
      unfold _gaussian_neighborhood in Hg.
      destruct (_distance x ((j, cj) :: r)) as [dist'|e] eqn:Hd';
        [|discriminate].
      exact (@distance_same_dimensions _ _ _ Hd'). }
    assert (Hndc : NoDup (Dict.keys ((j, cj) :: r)))
      by (eapply Permutation_NoDup; eassumption).
    destruct (@moved_center_at x _ _ d m g Hg Hndc Hm) as [Hk Hat].
    split; [now apply Permutation_sym|].
    split; [unfold Dict.items in Hk; rewrite Hk; now apply Permutation_sym|].
    exists g. split; [exact (@gaussian_unit _ _ _ _ Hg)|].
    intros k Hin. apply Hat. eapply Permutation_in; eassumption.
Qed.

Lemma sqdist_convex K c x w m g :
  0 <= g <= 1 ->
  (forall k, In k K ->
     at_key k m = at_key k c + g * (at_key k x - at_key k c)) ->
  sqdist K m w <= (1 - g) * sqdist K c w + g * sqdist K x w.
Proof.
  intros Hg. induction K as [|k K IH]; intros H; simpl; [lra|].
  specialize (IH (fun k' Hk' => H k' (or_intror Hk'))).
  rewrite (H k (or_introl eq_refl)).
  set (p := at_key k c - at_key k w). set (q := at_key k x - at_key k w).
  replace (at_key k c + g * (at_key k x - at_key k c) - at_key k w)
    with ((1 - g) * p + g * q) by (unfold p, q; ring).
  assert (Hpq : 0 <= g * (1 - g) * ((p - q) * (p - q))).
  { apply Rmult_le_pos; [nra|]. pose proof (Rle_0_sqr (p - q)) as S.
    unfold Rsqr in S. exact S. }
  assert (E : (1 - g) * (p * p) + g * (q * q)
              - ((1 - g) * p + g * q) * ((1 - g) * p + g * q)
              = g * (1 - g) * ((p - q) * (p - q))) by ring.
  lra.
Qed.

Lemma sqdist_scaled K c x m g :
  (forall k, In k K ->
     at_key k m = at_key k c + g * (at_key k x - at_key k c)) ->
  sqdist K x m = (1 - g) * (1 - g) * sqdist K x c.
Proof.
  induction K as [|k K IH]; intros H; simpl; [ring|].
  rewrite IH by (intros k' Hk'; apply H; now right).
  rewrite (H k (or_introl eq_refl)). ring.
Qed.

(** Two centers that were moved towards [x] from within the distance
    [th] of it: when the moved centers are [th] apart, so are the first
    center as it was and the second as it was moved. *)
Lemma stays_far K th x ci cj mi mj gi gj :
  0 < gi <= 1 -> 0 < gj <= 1 ->
  (forall k, In k K ->
     at_key k mi = at_key k ci + gi * (at_key k x - at_key k ci)) ->
  (forall k, In k K ->
     at_key k mj = at_key k cj + gj * (at_key k x - at_key k cj)) ->
  sqdist K cj x < th * th ->
  th * th <= sqdist K mi mj ->
  th * th <= sqdist K ci mj.
Proof.
  intros Hgi Hgj Hi Hj Hnear Hfar.
  assert (Hc : sqdist K mi mj
               <= (1 - gi) * sqdist K ci mj + gi * sqdist K x mj)
    by (apply sqdist_convex; [lra|exact Hi]).
  rewrite (@sqdist_scaled K cj x mj gj Hj), (sqdist_sym K x cj) in Hc.
  pose proof (sqdist_nonneg K cj x) as H0.
  assert (Hb : (1 - gj) * (1 - gj) * sqdist K cj x <= sqdist K cj x).
  { assert (0 <= (1 - gj) * (1 - gj) <= 1) by nra. nra. }
  destruct (Rle_lt_dec (th * th) (sqdist K ci mj)) as [H|H]; [exact H|].
  exfalso.
  assert (gi * ((1 - gj) * (1 - gj) * sqdist K cj x) < gi * (th * th)).
  { apply Rmult_lt_compat_l; lra. }
  assert ((1 - gi) * sqdist K ci mj <= (1 - gi) * (th * th)).
  { apply Rmult_le_compat_l; lra. }
  lra.
Qed.

(** The same on the distances that the program computes. *)
Lemma far_apart_reverted x d th ci cj mi mj di dj :
  NoDup (Dict.keys x) ->
  _distance ci x = Ok di -> di < th ->
  _distance cj x = Ok dj -> dj < th ->
  moved_center x ci (Dict.items ci) d = Ok mi ->
  moved_center x cj (Dict.items cj) d = Ok mj ->
  far_apart th mi mj ->
  far_apart th ci mj /\ far_apart th mi cj.
Proof.
  intros Hnd Hdi Hi Hdj Hj Hmi Hmj [dist [Hd Hfar]].
  destruct (@moved_center_between x ci d di mi Hnd Hdi Hmi)
    as [Hci [Hpi [gi [Hgi Hati]]]].
  destruct (@moved_center_between x cj d dj mj Hnd Hdj Hmj)
    as [Hcj [Hpj [gj [Hgj Hatj]]]].
  set (K := Dict.keys x) in *.
  assert (Hx : Permutation (Dict.keys x) K) by apply Permutation_refl.
  rewrite (@distance_over K ci x Hnd Hci Hx) in Hdi. injection Hdi as <-.
  rewrite (@distance_over K cj x Hnd Hcj Hx) in Hdj. injection Hdj as <-.
  rewrite (@distance_over K mi mj Hnd Hpi Hpj) in Hd. injection Hd as <-.
  assert (Hth : 0 < th) by (pose proof (sqrt_pos (sqdist K ci x)); lra).
  apply sqrt_below in Hi; [|apply sqdist_nonneg].
  apply sqrt_below in Hj; [|apply sqdist_nonneg].
  apply sqrt_not_below in Hfar; [|apply sqdist_nonneg|lra].
  split.
  - exists (sqrt (sqdist K ci mj)).
    split; [exact (@distance_over K ci mj Hnd Hci Hpj)|].
    apply sqrt_not_below; [apply sqdist_nonneg|lra|].
    exact (@stays_far K th x ci cj mi mj gi gj Hgi Hgj Hati Hatj Hj Hfar).
  - exists (sqrt (sqdist K mi cj)).
    split; [exact (@distance_over K mi cj Hnd Hpi Hcj)|].
    apply sqrt_not_below; [apply sqdist_nonneg|lra|].
    rewrite sqdist_sym. rewrite sqdist_sym in Hfar.
    exact (@stays_far K th x cj ci mj mi gj gi Hgj Hgi Hatj Hati Hi Hfar).
Qed.

(** ** A pair of neighbours after the loop that prevents collapsing *)

(** Every neighbour of the point lies within the threshold of it. *)
Lemma neighbors_within x d nn :
  _find_fixed_radius_nn x d = Ok nn ->
  forall i a, In (i, a) nn ->
    exists dist, _distance (center (heap d a)) x = Ok dist /\
                 dist < clustering_threshold d.
Proof.
  unfold _find_fixed_radius_nn. intros H.
  change ((fun nn : dict addr =>
             forall i a, In (i, a) nn ->
               exists dist, _distance (center (heap d a)) x = Ok dist /\
                            dist < clustering_threshold d) nn).
  eapply rfold_inv; cycle 2; [exact H| |intros ? ? []].
  clear. intros nn i nn' Hin. cbv beta.
  destruct (micro_cluster i d) as [a|e]; cbn [rbind]; [|discriminate].
  destruct (_distance _ _) as [dist|e] eqn:Hd; cbn [rbind]; [|discriminate].
  destruct (Rltb dist _) eqn:Hlt; intros [= <-]; [|exact Hin].
  intros i' a' Hin'. apply In_set in Hin' as [[= -> ->]|Hin'];
    [|now apply (Hin i')].
  exists dist. split; [exact Hd|now apply Rltb_spec].
Qed.

Section Apart.
Variable d0 : DBSTREAM.
Variable nn : dict addr.
Variable cc : dict point.
Variable mv : addr -> point.
Variables (i j : Z) (ai aj : addr).

Hypothesis Hnn :
  forall k a, In (k, a) nn -> Dict.get k (micro_clusters d0) = Some a.
Hypothesis Hcc :
  forall k a, In (k, a) nn -> Dict.get k cc = Some (center (heap d0 a)).
Hypothesis Hi : In (i, ai) nn.
Hypothesis Hj : In (j, aj) nn.
Hypothesis Hleft :
  far_apart (clustering_threshold d0) (mv ai) (mv aj) ->
  far_apart (clustering_threshold d0) (center (heap d0 ai)) (mv aj).
Hypothesis Hright :
  far_apart (clustering_threshold d0) (mv ai) (mv aj) ->
  far_apart (clustering_threshold d0) (mv ai) (center (heap d0 aj)).

(** The two hold their centers of before the update, or centers that
    are not closer than the threshold. *)
Definition apart (d : DBSTREAM) : Prop :=
  moved_or_reverted d0 nn mv d /\
  (center (heap d ai) = center (heap d0 ai) /\
   center (heap d aj) = center (heap d0 aj) \/
   far_apart (clustering_threshold d0)
     (center (heap d ai)) (center (heap d aj))).

Lemma apart_set_center d k a :
  apart d -> In (k, a) nn -> apart (set_center a (center (heap d0 a)) d).
Proof.
  intros [Hmr H] Hin.
  split; [now apply moved_or_reverted_set_center with k|].
  rewrite !center_set_center.
  destruct H as [[Hi0 Hj0]|H].
  { left. split.
    - destruct (Nat.eqb ai a) eqn:E; [|exact Hi0].
      apply Nat.eqb_eq in E. now rewrite E.
    - destruct (Nat.eqb aj a) eqn:E; [|exact Hj0].
      apply Nat.eqb_eq in E. now rewrite E. }
  destruct (Nat.eqb ai a) eqn:Ei, (Nat.eqb aj a) eqn:Ej.
  - apply Nat.eqb_eq in Ei, Ej. left. rewrite Ei, Ej. now split.
  - apply Nat.eqb_eq in Ei. rewrite <- Ei.
    destruct (proj2 (proj2 Hmr) j aj Hj) as [Hcj|Hcj];
      [|left; now split].
    right. destruct (proj2 (proj2 Hmr) i ai Hi) as [Hci|Hci].
    + rewrite Hcj. apply Hleft. now rewrite <- Hci, <- Hcj.
    + now rewrite <- Hci.
  - apply Nat.eqb_eq in Ej. rewrite <- Ej.
    destruct (proj2 (proj2 Hmr) i ai Hi) as [Hci|Hci];
      [|left; now split].
    right. destruct (proj2 (proj2 Hmr) j aj Hj) as [Hcj|Hcj].
    + rewrite Hci. apply Hright. now rewrite <- Hci, <- Hcj.
    + now rewrite <- Hcj.
  - right. exact H.
Qed.

Lemma prevent_collapse_keeps_apart i' j' :
  In i' (Dict.keys nn) -> In j' (Dict.keys nn) ->
  preserves apart (prevent_collapse cc i' j').
Proof.
  intros Hi' Hj' d H.
  destruct (prevent_collapse cc i' j' d) as [r d'] eqn:E.
  apply prevent_collapse_outcome in E
    as [->|[a [c [Ha [Hc [->|[b [c' [Hb [Hc' ->]]]]]]]]]];
    simpl; [exact H| |].
  - destruct (@neighbor_ref d0 nn cc Hnn Hcc d i' a (proj1 (proj1 H)) Hi' Ha)
      as [Hin E].
    rewrite E in Hc. injection Hc as <-.
    now apply apart_set_center with i'.
  - destruct (@neighbor_ref d0 nn cc Hnn Hcc d i' a (proj1 (proj1 H)) Hi' Ha)
      as [Hin E].
    destruct (@neighbor_ref d0 nn cc Hnn Hcc d j' b (proj1 (proj1 H)) Hj' Hb)
      as [Hin' E'].
    rewrite E in Hc. injection Hc as <-.
    rewrite E' in Hc'. injection Hc' as <-.
    apply apart_set_center with j'; [|exact Hin'].
    now apply apart_set_center with i'.
Qed.

(** The turn of the pair itself. *)
Lemma prevent_collapse_apart :
  establishes (moved_or_reverted d0 nn mv) apart (prevent_collapse cc i j).
Proof.
  intros d u d' H E. destruct u. destruct H as [Hm [Hth Hc]].
  assert (Hai : micro_cluster i d = Ok ai)
    by (unfold micro_cluster, Dict.getitem; now rewrite Hm, (Hnn _ _ Hi)).
  assert (Haj : micro_cluster j d = Ok aj)
    by (unfold micro_cluster, Dict.getitem; now rewrite Hm, (Hnn _ _ Hj)).
  destruct (_distance (center (heap d ai)) (center (heap d aj)))
    as [dist|e] eqn:Hd.
  - rewrite (@prevent_collapse_run cc i j d ai aj dist
               (center (heap d0 ai)) (center (heap d0 aj))
               Hai Haj Hd (Hcc _ _ Hi) (Hcc _ _ Hj)) in E.
    rewrite Hth in E.
    destruct (Rltb dist (clustering_threshold d0)) eqn:Hlt;
      injection E as <-.
    + split.
      * apply moved_or_reverted_set_center with j; [|exact Hj].
        apply moved_or_reverted_set_center with i; [|exact Hi].
        now repeat split.
      * left. rewrite !center_set_center, !Nat.eqb_refl.
        destruct (Nat.eqb ai aj) eqn:Eij; [|now split].
        apply Nat.eqb_eq in Eij. rewrite Eij. now split.
    + split; [now repeat split|]. right. exists dist.
      split; [exact Hd|].
      unfold Rltb in Hlt. destruct (Rlt_dec dist _); [discriminate|lra].
  - exfalso. unfold prevent_collapse in E.
    unfold bind at 1, reads at 1 in E. rewrite Hai in E.
    unfold bind at 1, reads at 1 in E. rewrite Haj in E.
    unfold bind at 1, reads at 1 in E. rewrite Hd in E. discriminate.
Qed.

Lemma prevent_collapsing_apart :
  NoDup (Dict.keys nn) -> (i < j)%Z ->
  establishes (moved_or_reverted d0 nn mv) apart (prevent_collapsing nn cc).
Proof.
  intros Hnd Hlt.
  assert (Hki : In i (Dict.keys nn))
    by (change i with (fst (i, ai)); now apply in_map).
  assert (Hkj : In j (Dict.keys nn))
    by (change j with (fst (j, aj)); now apply in_map).
  unfold prevent_collapsing.
  apply establishes_for_each with (a0 := i); try assumption.
  - intros i' Hi' _. apply preserves_for_each_in. intros j' Hj'.
    apply preserves_if;
      [now apply (@prevent_collapse_keeps d0 nn cc mv Hnn Hcc)
      |apply preserves_ret].
  - apply establishes_for_each with (a0 := j); try assumption.
    + intros j' Hj' _.
      apply preserves_if;
        [now apply (@prevent_collapse_keeps d0 nn cc mv Hnn Hcc)
        |apply preserves_ret].
    + replace (Z.gtb j i) with true by (symmetry; apply Z.gtb_lt; lia).
      exact prevent_collapse_apart.
    + intros j' Hj' _.
      apply preserves_if;
        [now apply prevent_collapse_keeps_apart|apply preserves_ret].
  - intros i' Hi' _. apply preserves_for_each_in. intros j' Hj'.
    apply preserves_if;
      [now apply prevent_collapse_keeps_apart|apply preserves_ret].
Qed.
End Apart.

(** After [_update], two neighbours of the point hold their centers of
    before the update or centers that are not closer than the
    threshold. *)
Lemma update_keeps_apart x d d' nn i j ai aj :
  NoDup (Dict.values (micro_clusters d)) ->
  NoDup (Dict.keys x) ->
  _find_fixed_radius_nn x d = Ok nn ->
  _update x d = (Ok tt, d') ->
  In (i, ai) nn -> In (j, aj) nn -> (i < j)%Z ->
  center (heap d' ai) = center (heap d ai) /\
  center (heap d' aj) = center (heap d aj) \/
  far_apart (clustering_threshold d)
    (center (heap d' ai)) (center (heap d' aj)).
Proof.
  intros Hnd Hx Hnn Hu Hi Hj Hlt.
  destruct (@update_with_neighbors x d d' nn Hnd Hnn) as
    [cc [d1 [d2 [H2 [Hh [Hndk [Hg [Hcc [Hmv Hmr]]]]]]]]];
    [intros ->; contradiction|exact Hu|].
  destruct (neighbors_within _ _ Hnn i ai Hi) as [di [Hdi Hli]].
  destruct (neighbors_within _ _ Hnn j aj Hj) as [dj [Hdj Hlj]].
  pose proof (Hmv i ai Hi) as Hmi. pose proof (Hmv j aj Hj) as Hmj.
  unfold moved in Hmi, Hmj.
  rewrite Hh.
  refine (proj2 (@prevent_collapsing_apart d nn cc
                   (fun a => center (heap d1 a)) i j ai aj
                   Hg Hcc Hi Hj _ _ Hndk Hlt d1 tt d2 Hmr H2)).
  - intros Hfar.
    exact (proj1 (@far_apart_reverted x d (clustering_threshold d)
                    _ _ _ _ di dj Hx Hdi Hli Hdj Hlj Hmi Hmj Hfar)).
  - intros Hfar.
    exact (proj2 (@far_apart_reverted x d (clustering_threshold d)
                    _ _ _ _ di dj Hx Hdi Hli Hdj Hlj Hmi Hmj Hfar)).
Qed.

(** C4, as amended.  When [_update] returns on a store whose keys refer
    to distinct objects, every neighbour of the point holds either the
    center the move gave it or, exactly, its center of before the update.
    For two neighbours [i < j] whose moved centers are closer than
    [clustering_threshold], at least one of the two holds its center of
    before the update, and both do when they are the only neighbours.
    (The loop examines a pair on the centers as the reversions of the
    pairs before it left them, not on the fully moved state.)  And no
    pair ends closer than the threshold as a result of the update: for a
    point that has no key twice, as every [dict], two neighbours [i < j]
    either both hold their centers of before the update, or their
    distance after the update is defined and is not below
    [clustering_threshold]. *)
Theorem collapse_prevention x d d' nn :
  NoDup (Dict.values (micro_clusters d)) ->
  _find_fixed_radius_nn x d = Ok nn ->
  _update x d = (Ok tt, d') ->
  (forall k a, In (k, a) nn ->
     exists m, moved x d a = Ok m /\
               (center (heap d' a) = m \/
                center (heap d' a) = center (heap d a))) /\
  (forall i j ai aj mi mj dist,
     In (i, ai) nn -> In (j, aj) nn -> (i < j)%Z ->
     moved x d ai = Ok mi -> moved x d aj = Ok mj ->
     _distance mi mj = Ok dist -> dist < clustering_threshold d ->
     (center (heap d' ai) = center (heap d ai) \/
      center (heap d' aj) = center (heap d aj)) /\
     ((forall k, In k (Dict.keys nn) -> k = i \/ k = j) ->
      center (heap d' ai) = center (heap d ai) /\
      center (heap d' aj) = center (heap d aj))) /\
  (NoDup (Dict.keys x) ->
   forall i j ai aj,
     In (i, ai) nn -> In (j, aj) nn -> (i < j)%Z ->
     center (heap d' ai) = center (heap d ai) /\
     center (heap d' aj) = center (heap d aj) \/
     exists dist,
       _distance (center (heap d' ai)) (center (heap d' aj)) = Ok dist /\
       clustering_threshold d <= dist).
Proof.
  intros Hnd Hnn Hu. split; [|split].
  - intros k a Hin.
    destruct (@update_with_neighbors x d d' nn Hnd Hnn) as
      [cc [d1 [d2 [H2 [Hh [Hndk [Hg [Hcc [Hmv Hmr]]]]]]]]];
      [intros ->; contradiction|exact Hu|].
    exists (center (heap d1 a)). split; [now apply Hmv with k|].
    rewrite Hh.
    eapply preserves_Ok in H2;
      [|apply (@prevent_collapsing_keeps d nn cc
                 (fun a => center (heap d1 a)) Hg Hcc)|exact Hmr].
    now apply (proj2 (proj2 H2) k).
  - intros i j ai aj mi mj dist Hi Hj Hlt Hmi Hmj Hdist Hclose.
    destruct (@update_with_neighbors x d d' nn Hnd Hnn) as
      [cc [d1 [d2 [H2 [Hh [Hndk [Hg [Hcc [Hmv Hmr]]]]]]]]];
      [intros ->; contradiction|exact Hu|].
    rewrite (Hmv i ai Hi) in Hmi. injection Hmi as <-.
    rewrite (Hmv j aj Hj) in Hmj. injection Hmj as <-.
    rewrite Hh. split.
    + destruct
        (@prevent_collapsing_one d nn cc (fun a => center (heap d1 a))
           Hg Hcc i j ai aj dist
           Hndk Hi Hj Hlt Hdist Hclose d1 tt d2 Hmr H2) as [[_ H]|[_ H]];
        [now left|now right].
    + intros Honly.
      destruct
        (@prevent_collapsing_both d nn cc (fun a => center (heap d1 a))
           Hg Hcc i j ai aj dist
           Hndk Honly Hi Hj Hlt Hdist Hclose d1 tt d2) as [[_ Ha] [_ Hb]];
        [|exact H2|now split].
      split; [exact Hmr|]. now split.
  - intros Hx i j ai aj Hi Hj Hlt.
    exact (@update_keeps_apart x d d' nn i j ai aj
             Hnd Hx Hnn Hu Hi Hj Hlt).
Qed.

(** ** Keys of the store refer to distinct objects *)

Lemma In_values_set {V} (d : dict V) k v v' :
  In v' (Dict.values (Dict.set k v d)) -> v' = v \/ In v' (Dict.values d).
Proof.
  unfold Dict.values. intros H. apply in_map_iff in H as [[k0 v0] [<- Hin]].
  apply In_set in Hin as [[= -> ->]|Hin]; [now left|right].
  change v0 with (snd (k0, v0)). now apply in_map.
Qed.

Lemma NoDup_values_set {V} (d : dict V) k v :
  NoDup (Dict.values d) -> ~ In v (Dict.values d) ->
  NoDup (Dict.values (Dict.set k v d)).
Proof.
  induction d as [|[k0 v0] r IH]; simpl; intros Hnd Hv.
  - repeat constructor. intros [].
  - inversion Hnd as [|? ? Hv0 Hr]; subst.
    destruct (Z.eqb_spec k k0) as [->|Hk]; simpl.
    + constructor; [|exact Hr]. intros Hin. apply Hv. now right.
    + constructor.
      * intros Hin. apply In_values_set in Hin as [->|Hin];
          [apply Hv; now left|contradiction].
      * apply IH; [exact Hr|]. intros Hin. apply Hv. now right.
Qed.

Lemma In_values_pop {V} (d : dict V) k v :
  In v (Dict.values (Dict.pop k d)) -> In v (Dict.values d).
Proof.
  unfold Dict.values. intros H. apply in_map_iff in H as [[k0 v0] [<- Hin]].
  apply In_pop in Hin. change v0 with (snd (k0, v0)). now apply in_map.
Qed.

Lemma NoDup_values_pop {V} (d : dict V) k :
  NoDup (Dict.values d) -> NoDup (Dict.values (Dict.pop k d)).
Proof.
  induction d as [|[k0 v0] r IH]; simpl; intros Hnd; [constructor|].
  inversion Hnd as [|? ? Hv0 Hr]; subst.
  destruct (Z.eqb_spec k k0); [exact Hr|]. simpl. constructor.
  - intros Hin. apply Hv0. now apply In_values_pop in Hin.
  - now apply IH.
Qed.

Lemma distinct_create x : preserves distinct_objects (create_micro_cluster x).
Proof.
  intros d [Hnd Hlt]. unfold create_micro_cluster. simpl. split; simpl.
  - apply NoDup_values_set; [exact Hnd|].
    intros Hin. apply Hlt in Hin. lia.
  - intros a Hin. apply In_values_set in Hin as [->|Hin]; [lia|].
    apply Hlt in Hin. lia.
Qed.

Lemma distinct_s_setitem i j v : preserves distinct_objects (s_setitem i j v).
Proof. intros d H. unfold s_setitem. now destruct (setitem2 i j v (s d)). Qed.

Lemma distinct_s_t_setitem i j v :
  preserves distinct_objects (s_t_setitem i j v).
Proof.
  intros d H. unfold s_t_setitem. now destruct (setitem2 i j v (s_t d)).
Qed.

Lemma distinct_update x : preserves distinct_objects (_update x).
Proof.
  unfold _update, prevent_collapsing, prevent_collapse, update_neighbor,
    update_shared_density.
  repeat first
    [ apply distinct_create | apply distinct_s_setitem
    | apply distinct_s_t_setitem | preserves_step ].
Qed.

Lemma distinct_cleanup : preserves distinct_objects _cleanup.
Proof.
  unfold _cleanup, cleanup_shared_density.
  apply preserves_bind; [apply preserves_gets|intros ww].
  apply preserves_bind; [|intros _].
  - intros d H. unfold for_items.
    apply (@preserves_for_items_checked _ distinct_objects); [|exact H].
    intros ia d' [Hnd Hlt]. unfold cleanup_micro_cluster.
    destruct (is_weak ww d' (snd ia)); [|now split]. split; simpl.
    + now apply NoDup_values_pop.
    + intros a Hin. apply Hlt. now apply In_values_pop in Hin.
  - repeat first
      [ apply distinct_s_setitem | apply distinct_s_t_setitem
      | preserves_step ].
Qed.

Lemma distinct_learn_one x : preserves distinct_objects (learn_one x).
Proof.
  unfold learn_one.
  repeat first [ apply distinct_update | apply distinct_cleanup
               | preserves_step ].
Qed.

Lemma distinct_predict_one x : preserves distinct_objects (predict_one x).
Proof.
  unfold predict_one, _recluster, _generate_clusters_from_labels,
    macro_cluster_of_label.
  repeat preserves_step.
  intros d H. unfold merge. now destruct (merge_value _ _).
Qed.

Lemma reachable_distinct d : reachable d -> distinct_objects d.
Proof.
  induction 1 as [r ff ci al mw|d x _ IH|d x _ IH].
  - split; [constructor|intros a []].
  - now apply distinct_learn_one.
  - now apply distinct_predict_one.
Qed.

(** ** The labelling terminates *)

Lemma unlabelled_set (labels : labelling) h count :
  Dict.get h labels = Some None ->
  unlabelled labels = S (unlabelled (Dict.set h (Some count) labels)).
Proof.
  unfold unlabelled.
  induction labels as [|[k v] r IH]; simpl; [discriminate|].
  destruct (Z.eqb h k).
  - intros [= ->]. reflexivity.
  - intros H. simpl. destruct v; simpl; now rewrite (IH H).
Qed.

Lemma is_labelled_false h (labels : labelling) :
  is_labelled h labels = Ok false -> Dict.get h labels = Some None.
Proof.
  unfold is_labelled, Dict.getitem.
  destruct (Dict.get h labels) as [[l|]|]; simpl; intros H;
    try discriminate; reflexivity.
Qed.

Lemma add_new_neighbors_length labels nbrs seed_set seed_set' :
  add_new_neighbors labels nbrs seed_set = Ok seed_set' ->
  (length seed_set' <= length seed_set + length nbrs)%nat.
Proof.
  unfold add_new_neighbors. revert seed_set.
  induction nbrs as [|n nbrs IH]; simpl; intros seed_set H.
  - injection H as <-. lia.
  - destruct (is_labelled n labels) as [[|]|e]; simpl in H;
      try discriminate; apply IH in H;
      rewrite ?length_app in H; simpl in H; lia.
Qed.

Lemma row_length_max_degree {V} (wal : dict (dict V)) h row :
  Dict.get h wal = Some row ->
  (length (Dict.keys row) <= max_degree wal)%nat.
Proof.
  unfold max_degree, Dict.keys.
  induction wal as [|[k r] wal IH]; simpl; [discriminate|].
  destruct (Z.eqb h k).
  - intros [= ->]. rewrite length_map. lia.
  - intros H. specialize (IH H). lia.
Qed.

Lemma expand_seed_set_terminates {V} (wal : dict (dict V)) count fuel :
  forall seed_set labels,
    (unlabelled labels * S (max_degree wal) + length seed_set < fuel)%nat ->
    expand_seed_set fuel wal count seed_set labels <> None.
Proof.
  induction fuel as [|fuel IH]; intros seed_set labels Hf; [lia|].
  simpl. destruct seed_set as [|h rest]; [discriminate|].
  destruct (is_labelled h labels) as [[|]|e] eqn:El; [| |discriminate].
  - apply IH. simpl in Hf. lia.
  - apply is_labelled_false in El.
    rewrite (@unlabelled_set _ _ count El) in Hf.
    rewrite Nat.mul_succ_l in Hf.
    destruct (Dict.get h wal) as [row|] eqn:Er.
    + destruct (add_new_neighbors _ _ _) as [seed_set'|e] eqn:Ea;
        [|discriminate].
      apply IH. apply add_new_neighbors_length in Ea.
      pose proof (@row_length_max_degree _ _ _ _ Er). lia.
    + apply IH. lia.
Qed.

Lemma label_from_terminates {V} (wal : dict (dict V)) acc index :
  label_from wal acc index <> None.
Proof.
  unfold label_from. destruct acc as [labels count].
  destruct (is_labelled index labels) as [[|]|e]; try discriminate.
  destruct (Dict.get index wal) as [row|]; [|discriminate].
  destruct (expand_seed_set _ _ _ _ _) as [[l|e]|] eqn:E; try discriminate.
  exfalso. revert E. apply expand_seed_set_terminates.
  unfold enough_fuel. lia.
Qed.

Lemma label_all_terminates {V} (wal : dict (dict V)) indexes :
  forall acc, label_all wal indexes acc <> None.
Proof.
  induction indexes as [|index r IH]; intros acc; simpl; [discriminate|].
  destruct (label_from wal acc index) as [[acc'|e]|] eqn:E;
    [apply IH|discriminate|].
  exfalso. revert E. apply label_from_terminates.
Qed.

(** The loops of [_generate_labels] end on every graph and store: the
    labelling is a result or an exception, never [None]. *)
Lemma _generate_labels_terminates {V} (wal : dict (dict V)) d :
  exists r, _generate_labels wal d = Some r.
Proof.
  unfold _generate_labels.
  destruct (label_all _ _ _) as [r|] eqn:E; [now exists r|].
  exfalso. revert E. apply label_all_terminates.
Qed.

Lemma labels_outcome_some {V} (wal : dict (dict V)) d :
  _generate_labels wal d = Some (labels_outcome (_generate_labels wal d)).
Proof.
  destruct (_generate_labels_terminates wal d) as [r ->]. reflexivity.
Qed.

(** * Runs on concrete streams *)

(** ** Points of the plane *)

Lemma distance_2d a1 a2 b1 b2 :
  _distance [(0%Z, a1); (1%Z, a2)] [(0%Z, b1); (1%Z, b2)]
  = Ok (sqrt ((a1 - b1) * (a1 - b1) + (a2 - b2) * (a2 - b2))).
Proof.
  assert (E : forall x, Rabs x * (Rabs x * 1) = x * x)
    by (intros x; unfold Rabs; destruct (Rcase_abs x); ring).
  unfold _distance, minkowski_distance. simpl. rewrite !E.
  pose proof (Rle_0_sqr (a1 - b1)) as H1.
  pose proof (Rle_0_sqr (a2 - b2)) as H2.
  unfold Rsqr in H1, H2.
  rewrite math_sqrt_ok by lra. do 2 f_equal. ring.
Qed.

Lemma Rltb_sqrt_lt v r :
  0 <= v -> 0 < r -> v < r * r -> Rltb (sqrt v) r = true.
Proof.
  intros Hv Hr H. apply Rltb_true.
  rewrite <- (sqrt_square r) by lra. now apply sqrt_lt_1; try nra.
Qed.

Lemma Rltb_sqrt_ge v r : 0 <= r -> r * r <= v -> Rltb (sqrt v) r = false.
Proof.
  intros Hr H. apply Rltb_false.
  rewrite <- (sqrt_square r) by lra. apply sqrt_le_1; nra.
Qed.

Lemma sq_lower a la : 0 <= la -> la <= a \/ a <= - la -> la * la <= a * a.
Proof. intros H [H1|H1]; nra. Qed.

Lemma sq_upper a ra : - ra <= a <= ra -> a * a <= ra * ra.
Proof. intros H. nra. Qed.

(** A point outside the box [la, lb] around another is far from it; a
    point inside the box [ra, rb] is near. *)
Lemma far_by_box a b r la lb :
  0 <= r -> 0 <= la -> 0 <= lb ->
  la <= a \/ a <= - la -> lb <= b \/ b <= - lb ->
  r * r <= la * la + lb * lb ->
  Rltb (sqrt (a * a + b * b)) r = false.
Proof.
  intros Hr Hla Hlb Ha Hb H. apply Rltb_sqrt_ge; [exact Hr|].
  pose proof (sq_lower Hla Ha). pose proof (sq_lower Hlb Hb). lra.
Qed.

Lemma near_by_box a b r ra rb :
  0 < r -> - ra <= a <= ra -> - rb <= b <= rb ->
  ra * ra + rb * rb < r * r ->
  Rltb (sqrt (a * a + b * b)) r = true.
Proof.
  intros Hr Ha Hb H.
  pose proof (sq_upper Ha). pose proof (sq_upper Hb).
  apply Rltb_sqrt_lt; nra.
Qed.

Lemma Rgtb_div a b c : 0 < b -> c * b < a -> Rgtb (a / b) c = true.
Proof.
  intros Hb H. apply Rgtb_true. apply Rlt_gt.
  apply Rmult_lt_reg_r with b; [exact Hb|].
  unfold Rdiv. rewrite Rmult_assoc, Rinv_l by lra. lra.
Qed.

(** ** Powers of two and exponentials at known arguments *)

Lemma pow2_nat x n : x = INR n -> pow2 x = 2 ^ n.
Proof. intros ->. unfold pow2. apply Rpower_pow. lra. Qed.

Lemma pow2_neg_nat x n : x = - INR n -> pow2 x = / 2 ^ n.
Proof.
  intros ->. unfold pow2. rewrite Rpower_Ropp, Rpower_pow by lra.
  reflexivity.
Qed.

Lemma exp_nat_ge k : 2 ^ k <= exp (INR k).
Proof.
  induction k as [|k IH].
  - simpl. rewrite exp_0. lra.
  - rewrite S_INR, exp_plus. simpl pow.
    pose proof (exp_ineq1 1 ltac:(lra)) as H1.
    assert (0 < 2 ^ k) by (apply pow_lt; lra).
    nra.
Qed.

Lemma exp_neg_le q k : q <= - INR k -> 0 < exp q <= 1 / 2 ^ k.
Proof.
  intros H. unfold Rdiv. rewrite Rmult_1_l. split; [apply exp_pos|].
  assert (H1 : exp q <= exp (- INR k)).
  { destruct H as [H | ->]; [left; now apply exp_increasing|].
    right; reflexivity. }
  rewrite exp_Ropp in H1. pose proof (exp_nat_ge k) as H2.
  assert (0 < 2 ^ k) by (apply pow_lt; lra).
  assert (/ exp (INR k) <= / 2 ^ k) by (apply Rinv_le_contravar; lra).
  lra.
Qed.

Lemma exp_bound q k B : q <= - INR k -> 1 / 2 ^ k <= B -> 0 < exp q <= B.
Proof. intros H1 H2. pose proof (@exp_neg_le q k H1). lra. Qed.

Lemma exp_half_bounds q : - (1 / 2) <= q <= 0 -> 1 / 2 <= exp q <= 1.
Proof.
  intros [H1 H2]. split.
  - destruct (Req_dec q 0) as [-> | Hq]; [rewrite exp_0; lra|].
    pose proof (exp_ineq1 q Hq). lra.
  - destruct H2 as [H2 | ->]; [|rewrite exp_0; lra].
    rewrite <- exp_0. left. now apply exp_increasing.
Qed.

(** ** The moved center of a micro-cluster of the plane *)

Lemma moved_center_2d x1 x2 c1 c2 d :
  clustering_threshold d <> 0 ->
  moved_center [(0%Z, x1); (1%Z, x2)] [(0%Z, c1); (1%Z, c2)]
    [(0%Z, c1); (1%Z, c2)] d
  = Ok [(0%Z, c1 + exp (- ((x1 - c1) * (x1 - c1) + (x2 - c2) * (x2 - c2))
                        / (2 * (clustering_threshold d / 3
                                * (clustering_threshold d / 3))))
                   * (x1 - c1));
        (1%Z, c2 + exp (- ((x1 - c1) * (x1 - c1) + (x2 - c2) * (x2 - c2))
                        / (2 * (clustering_threshold d / 3
                                * (clustering_threshold d / 3))))
                   * (x2 - c2))].
Proof.
  intros H. unfold moved_center, _gaussian_neighborhood.
  rewrite distance_2d. simpl.
  pose proof (Rle_0_sqr (x1 - c1)). pose proof (Rle_0_sqr (x2 - c2)).
  unfold Rsqr in *.
  rewrite sqrt_sqrt by lra.
  rewrite truediv_ok; [reflexivity|].
  intros E. apply H.
  assert (E' : clustering_threshold d / 3 * (clustering_threshold d / 3) = 0)
    by lra.
  apply Rmult_integral in E'. lra.
Qed.

(** ** States in normal form *)

(** Two states are equal when their fields are, the heaps at every
    address. *)
Lemma state_ext ts th ff ci mw al n cl ce mcs s1 s2 st h1 h2 na :
  s1 = s2 -> (forall a, h1 a = h2 a) ->
  mkDBSTREAM ts th ff ci mw al n cl ce mcs s1 st h1 na
  = mkDBSTREAM ts th ff ci mw al n cl ce mcs s2 st h2 na.
Proof.
  intros -> H. f_equal. now apply functional_extensionality.
Qed.

Lemma micro_cluster_eq a a' b b' l w w' :
  a = a' -> b = b' -> w = w' ->
  mkMicroCluster [(0%Z, a); (1%Z, b)] l w = mkMicroCluster (pt2 a' b') l w'.
Proof. now intros -> -> ->. Qed.

(** ** Evaluation of the methods on numeric inputs *)

(** Everything is computed but the operations on real numbers. *)
Ltac crunch :=
  cbv -[Rplus Rmult Rminus Rdiv Ropp Rinv IZR INR pow Rabs sqrt exp pow2
        Rpower Rltb Rgeb Rgtb truediv math_sqrt _distance].

Ltac crunch_in E :=
  cbv -[Rplus Rmult Rminus Rdiv Ropp Rinv IZR INR pow Rabs sqrt exp pow2
        Rpower Rltb Rgeb Rgtb truediv math_sqrt _distance] in E.

(** The same, with the calls that move a center and that examine a pair
    of neighbours left as they are. *)
Ltac crunch_calls :=
  cbv -[Rplus Rmult Rminus Rdiv Ropp Rinv IZR INR pow Rabs sqrt exp pow2
        Rpower Rltb Rgeb Rgtb truediv math_sqrt _distance prevent_collapse
        moved_center].

Ltac crunch_calls_in E :=
  cbv -[Rplus Rmult Rminus Rdiv Ropp Rinv IZR INR pow Rabs sqrt exp pow2
        Rpower Rltb Rgeb Rgtb truediv math_sqrt _distance prevent_collapse
        moved_center] in E.

(** Side conditions of the box lemmas. *)
Ltac side :=
  first [lra | left; lra | right; lra | nra | left; nra | right; nra].

(** Decisions on the distance of two points. *)
Ltac far := rewrite Rltb_sqrt_ge by lra.
Ltac near := rewrite Rltb_sqrt_lt by lra.
Ltac far_box la lb := rewrite (@far_by_box _ _ _ la lb) by side.
Ltac near_box ra rb := rewrite (@near_by_box _ _ _ ra rb) by side.

Ltac go :=
  repeat (first [rewrite distance_2d | rewrite truediv_ok by lra]; crunch).

(** Bound some [exp q] of the goal that has no bound yet by
    [B >= 1 / 2 ^ k]. *)
Ltac bound_exp k B :=
  match goal with
  | |- context [exp ?q] =>
      lazymatch goal with
      | _ : 0 < exp q <= _ |- _ => fail
      | _ =>
          let Hg := fresh "Hg" in
          assert (Hg : 0 < exp q <= B);
          [apply (@exp_bound q k B);
           [rewrite ?sqrt_sqrt by nra; simpl; nra|simpl; lra] |]
      end
  end.

(** The same steps on an equation [E : d = ...] of the context. *)
Ltac go_in E :=
  repeat (first [rewrite distance_2d in E | rewrite truediv_ok in E by lra];
          crunch_in E).

Ltac far_in E la lb :=
  rewrite (@far_by_box _ _ _ la lb) in E by side; crunch_in E; go_in E.
Ltac near_in E ra rb :=
  rewrite (@near_by_box _ _ _ ra rb) in E by side; crunch_in E; go_in E.

(** Name an [exp q] of [E] and bound it by [B >= 1 / 2 ^ k]. *)
Ltac bound_exp_in E k B :=
  match type of E with
  | context [exp ?q] =>
      lazymatch q with
      | context [exp _] => fail
      | _ =>
          let g := fresh "g" in
          let Hg := fresh "Hg" in
          assert (Hg : 0 < exp q <= B);
          [apply (@exp_bound q k B);
           [rewrite ?sqrt_sqrt by nra; simpl; nra|simpl; lra] |];
          remember (exp q) as g in *
      end
  end.

(** Evaluation by calls: the moved centers by [moved_center_2d], the
    pairs of [prevent_collapsing] one after the other. *)
Ltac go_calls_in E :=
  repeat (progress (repeat rewrite distance_2d in E;
                    repeat rewrite moved_center_2d in E
                      by (crunch_calls; lra);
                    repeat rewrite truediv_ok in E by lra);
          crunch_calls_in E).

Ltac far_call_in E la lb :=
  rewrite (@far_by_box _ _ _ la lb) in E by side;
  crunch_calls_in E; go_calls_in E.
Ltac near_call_in E ra rb :=
  rewrite (@near_by_box _ _ _ ra rb) in E by side;
  crunch_calls_in E; go_calls_in E.

(** [collapse_in E EP] names the first pending call of [prevent_collapse]
    in [E] and evaluates it in [EP] up to its test; [collapsed_in E EP]
    puts the decided call back. *)
Ltac collapse_in E EP :=
  match type of E with
  | context [prevent_collapse ?cc ?i ?j ?st] =>
      let P := fresh "P" in
      remember (prevent_collapse cc i j st) as P eqn:EP in E;
      unfold prevent_collapse in EP; crunch_calls_in EP; go_calls_in EP
  end.
Ltac collapsed_in E EP := rewrite EP in E; clear EP; crunch_calls_in E.

(** ** A stream whose weights fade backwards *)




(** C7.  The identifier of a new micro-cluster is the size of the store,
    which is not the identifier of a live micro-cluster only as long as
    nothing was deleted.  Five points far from each other: the fourth
    call of [learn_one] deletes the micro-cluster 0 (and raises, see
    C10), the store then has the keys 1, 2, 3 and three entries, and the
    fifth point is stored under key 3: the micro-cluster of the fourth
    point is no longer in the store, although it was never weak. *)
Theorem identifier_reused_after_deletion :
  exists d1 d2 d3 d4 d5,
    learn_one (pt2 0 0) fading_out = (Ok tt, d1) /\
    learn_one (pt2 10 0) d1 = (Ok tt, d2) /\
    learn_one (pt2 20 0) d2 = (Ok tt, d3) /\
    learn_one (pt2 30 0) d3 = (Raise RuntimeError, d4) /\
    learn_one (pt2 40 0) d4 = (Ok tt, d5) /\
    micro_clusters d3 = [(0%Z, 0%nat); (1%Z, 1%nat); (2%Z, 2%nat)] /\
    micro_clusters d4 = [(1%Z, 1%nat); (2%Z, 2%nat); (3%Z, 3%nat)] /\
    center (heap d4 3%nat) = pt2 30 0 /\
    micro_clusters d5 = [(1%Z, 1%nat); (2%Z, 2%nat); (3%Z, 4%nat)] /\
    center (heap d5 4%nat) = pt2 40 0.
Proof.
  do 5 eexists.
  split; [reflexivity|].
  split.
  { crunch. rewrite !distance_2d. crunch. far. crunch. reflexivity. }
  split.
  { crunch. rewrite !distance_2d. crunch. far. crunch. far. crunch.
    reflexivity. }
  split.
  { crunch. rewrite !distance_2d. crunch. far. crunch. far. crunch. far.
    crunch. rewrite Rltb_true.
    2:{ pose proof (@pow2_lt_1 (-1 * 4)).
        pose proof (@pow2_ge_1 (- (-1) * 4)). lra. }
    crunch. reflexivity. }
  split.
  { crunch. rewrite !distance_2d. crunch. far. crunch. far. crunch. far.
    crunch. reflexivity. }
  crunch. repeat split; reflexivity.
Qed.

(** C6.  The deletion of a micro-cluster leaves its edges in the shared
    density graph.  The points (0, 0) and (2, 0) make the micro-clusters
    0 and 1, the point (1, 0) is a neighbour of both and makes the edge
    (0, 1); the fourth call of [learn_one] deletes the micro-cluster 0
    and raises (see C10) before the loop over the graph starts.  The
    graph then has the edge (0, 1), the store has the keys 1 and 2 only,
    and [predict_one] raises [KeyError] on [self.micro_clusters[0]]. *)
Theorem deletion_leaves_dangling_edge :
  exists d1 d2 d3 d4,
    learn_one (pt2 0 0) fading_out = (Ok tt, d1) /\
    learn_one (pt2 2 0) d1 = (Ok tt, d2) /\
    learn_one (pt2 1 0) d2 = (Ok tt, d3) /\
    learn_one (pt2 10 0) d3 = (Raise RuntimeError, d4) /\
    s d4 = [(0%Z, [(1%Z, 0)])] /\
    Dict.keys (micro_clusters d4) = [1%Z; 2%Z] /\
    predict_one (pt2 1 0) d4 = (Raise KeyError, d4).
Proof.
  do 4 eexists.
  split; [reflexivity|].
  split.
  { crunch. rewrite !distance_2d. crunch. far. crunch. reflexivity. }
  split.
  { crunch. rewrite !distance_2d. crunch. near. crunch. near. crunch.
    go.
    bound_exp 2%nat (1 / 4). bound_exp 2%nat (1 / 4).
    rewrite Rltb_sqrt_ge by nra. crunch. reflexivity. }
  split.
  { crunch. go. bound_exp 2%nat (1 / 4). bound_exp 2%nat (1 / 4).
    far_box 9 0. crunch. far_box 7 0. crunch.
    rewrite Rltb_true.
    2:{ rewrite (@pow2_nat (- (-1) * 2) 2), (@pow2_neg_nat (-1 * 2) 2),
          (@pow2_nat (- (-1) * 4) 4) by (simpl; lra). simpl. lra. }
    crunch. reflexivity. }
  crunch. repeat split; reflexivity.
Qed.

(** ** A stream of two micro-clusters and a point between them *)

Lemma two_apart_eq :
  two_apart
  = mkDBSTREAM 2 (3 / 2) 1 100 1 (3 / 10) 0 [] []
      [(0%Z, 0%nat); (1%Z, 1%nat)] [] []
      (heap_set 1%nat (mkMicroCluster (pt2 (14 / 5) 0) 1 1)
         (heap_set 0%nat (mkMicroCluster (pt2 0 0) 0 1)
            (fun _ => mkMicroCluster [] 0 0))) 2%nat.
Proof.
  unfold two_apart. crunch. go. far_box (14 / 5) 0. crunch. reflexivity.
Qed.

Lemma two_apart_reachable : reachable two_apart.
Proof. repeat constructor. Qed.

Lemma two_apart_neighbors :
  _find_fixed_radius_nn between two_apart = Ok [(0%Z, 0%nat); (1%Z, 1%nat)].
Proof.
  rewrite two_apart_eq. crunch. go.
  near_box (7 / 5) 0. crunch. near_box (7 / 5) 0. reflexivity.
Qed.

Lemma two_apart_update :
  exists d',
    _update between two_apart = (Ok tt, d') /\
    s d' = [(0%Z, [(1%Z, 0)])] /\
    s_t d' = [(0%Z, [(1%Z, 0%Z)])] /\
    time_stamp d' = 3%Z.
Proof.
  rewrite (update_unfold _ _ two_apart_neighbors), two_apart_eq.
  remember ((_ ;; _)%m _) as U eqn:EU.
  crunch_calls_in EU. go_calls_in EU.
  bound_exp_in EU 3%nat (1 / 8). bound_exp_in EU 3%nat (1 / 8).
  collapse_in EU EP. far_call_in EP 2 0. collapsed_in EU EP.
  subst U. eexists. split; [reflexivity|]. repeat split; reflexivity.
Qed.

Lemma two_apart_update_returns :
  _update between two_apart = (Ok tt, snd (_update between two_apart)).
Proof. destruct two_apart_update as [d' [-> _]]. reflexivity. Qed.

(** C5, as stated, fails at the time stamp of the new edge.  After two
    points the clock shows 2; the point between the two micro-clusters
    is a neighbour of both, the pair has no edge yet, and the edge that
    [_update] creates carries the time stamp 0: neither the 2 of the
    clock during the call nor the 3 after it. *)
Lemma new_edge_time_stamp_is_zero :
  reachable two_apart /\
  time_stamp two_apart = 2%Z /\
  _find_fixed_radius_nn between two_apart
  = Ok [(0%Z, 0%nat); (1%Z, 1%nat)] /\
  entry 0 1 (s two_apart) = None /\
  exists d',
    _update between two_apart = (Ok tt, d') /\
    entry 0 1 (s d') = Some 0 /\
    entry 0 1 (s_t d') = Some 0%Z /\
    entry 0 1 (s_t d') <> Some (time_stamp two_apart) /\
    entry 0 1 (s_t d') <> Some (time_stamp d').
Proof.
  split; [exact two_apart_reachable|].
  split; [rewrite two_apart_eq; reflexivity|].
  split; [exact two_apart_neighbors|].
  split; [rewrite two_apart_eq; reflexivity|].
  destruct two_apart_update as [d' [Hu [Hs [Hst Hts]]]].
  exists d'. split; [exact Hu|].
  rewrite Hs, Hst, Hts, two_apart_eq.
  repeat split; try reflexivity; cbv; discriminate.
Qed.

(** C5, as amended, at the point between the two micro-clusters. *)
Lemma new_edge_is_blank_witness :
  entry 0 1 (s (snd (_update between two_apart))) = Some 0 /\
  entry 0 1 (s_t (snd (_update between two_apart))) = Some 0%Z.
Proof.
  apply (@new_edge_is_blank between two_apart
           (snd (_update between two_apart))
           [(0%Z, 0%nat); (1%Z, 1%nat)] 0 1).
  - exact two_apart_neighbors.
  - simpl. tauto.
  - simpl. tauto.
  - lia.
  - rewrite two_apart_eq. reflexivity.
  - exact two_apart_update_returns.
Defined.

(** C9, as amended, at the stream of two micro-clusters. *)
Lemma cleanup_never_removes_witness :
  (forall i a, In (i, a) (micro_clusters two_apart) ->
     1 <= weight (heap two_apart a) /\
     1 <= weight (heap two_apart a)
          * pow2 (fading_factor two_apart
                  * IZR (time_stamp two_apart
                         - last_update (heap two_apart a))) /\
     weight_weak two_apart < 1 /\
     is_weak (weight_weak two_apart) two_apart a = false) /\
  micro_clusters (snd (_cleanup two_apart)) = micro_clusters two_apart /\
  heap (snd (_cleanup two_apart)) = heap two_apart /\
  fst (_cleanup two_apart) <> Raise RuntimeError.
Proof.
  apply (@cleanup_never_removes two_apart).
  - exact two_apart_reachable.
  - rewrite two_apart_eq. simpl. lra.
  - rewrite two_apart_eq. simpl. lia.
Defined.

(** ** A stream of two micro-clusters that the origin draws together *)

Lemma two_close_eq :
  two_close
  = mkDBSTREAM 2 3 1 100 1 (3 / 10) 0 [] []
      [(0%Z, 0%nat); (1%Z, 1%nat)] [] []
      (heap_set 1%nat (mkMicroCluster (pt2 2 0) 1 1)
         (heap_set 0%nat (mkMicroCluster (pt2 (-1) 0) 0 1)
            (fun _ => mkMicroCluster [] 0 0))) 2%nat.
Proof.
  unfold two_close. crunch. go. far_box 3 0. crunch. reflexivity.
Qed.

Lemma two_close_neighbors :
  _find_fixed_radius_nn origin two_close = Ok [(0%Z, 0%nat); (1%Z, 1%nat)].
Proof.
  rewrite two_close_eq. crunch. go. near_box 1 0. crunch.
  near_box 2 0. reflexivity.
Qed.

Lemma two_close_run :
  exists d' m0 m1 dist,
    _update origin two_close = (Ok tt, d') /\
    moved origin two_close 0%nat = Ok m0 /\
    moved origin two_close 1%nat = Ok m1 /\
    _distance m0 m1 = Ok dist /\
    dist < clustering_threshold two_close.
Proof.
  rewrite (update_unfold _ _ two_close_neighbors), two_close_eq.
  remember ((_ ;; _)%m _) as U eqn:EU.
  remember (moved _ _ 0%nat) as M0 eqn:EM0.
  remember (moved _ _ 1%nat) as M1 eqn:EM1.
  unfold moved in EM0, EM1.
  crunch_calls_in EM0. go_calls_in EM0.
  crunch_calls_in EM1. go_calls_in EM1.
  crunch_calls_in EU. go_calls_in EU.
  bound_exp_in EU 2%nat (1 / 4).
  match type of EU with
  | context [exp ?q] =>
      assert (Hg0 : 1 / 2 <= exp q <= 1) by (apply exp_half_bounds; lra);
      remember (exp q) as g0 in *
  end.
  collapse_in EU EP. near_call_in EP (5 / 2) 0. collapsed_in EU EP.
  subst U M0 M1. do 4 eexists.
  split; [reflexivity|]. split; [reflexivity|]. split; [reflexivity|].
  split; [apply distance_2d|].
  crunch. apply Rltb_spec. apply (@near_by_box _ _ _ (5 / 2) 0); side.
Qed.

(** ** A stream with a negative cleanup interval *)

Lemma one_learnt_eq :
  one_learnt
  = mkDBSTREAM 1 (3 / 2) 1 (-2) 1 (3 / 10) 0 [] []
      [(0%Z, 0%nat)] [] []
      (heap_set 0%nat (mkMicroCluster (pt2 0 0) 0 1)
         (fun _ => mkMicroCluster [] 0 0)) 1%nat.
Proof. reflexivity. Qed.

Lemma one_learnt_update :
  _update (pt2 10 0) one_learnt
  = (Ok tt,
     mkDBSTREAM 2 (3 / 2) 1 (-2) 1 (3 / 10) 0 [] []
       [(0%Z, 0%nat); (1%Z, 1%nat)] [] []
       (heap_set 1%nat (mkMicroCluster (pt2 10 0) 1 1)
          (heap_set 0%nat (mkMicroCluster (pt2 0 0) 0 1)
             (fun _ => mkMicroCluster [] 0 0))) 2%nat).
Proof.
  rewrite one_learnt_eq. crunch. rewrite !distance_2d. crunch. far.
  crunch. reflexivity.
Qed.

(** C9, as stated, fails on a cleanup interval that is negative, which
    the constructor accepts.  With [cleanup_interval=-2] and
    [fading_factor=1], [weight_weak] is 4 after the first point.  The
    second point is far from the first and makes the micro-cluster 1 of
    weight 1; the clock shows 2, so [_cleanup] runs, finds the
    micro-cluster 1 below [weight_weak] and removes it from the store
    ([learn_one] then raises the iterator's [RuntimeError]). *)
Lemma cleanup_removes_on_negative_interval :
  reachable one_learnt /\
  0 < fading_factor one_learnt /\
  cleanup_interval one_learnt = (-2)%Z /\
  weight_weak one_learnt = 4 /\
  exists d1 d2,
    _update (pt2 10 0) one_learnt = (Ok tt, d1) /\
    micro_clusters d1 = [(0%Z, 0%nat); (1%Z, 1%nat)] /\
    weight (heap d1 1%nat) = 1 /\
    weight_weak d1 = 4 /\
    is_weak (weight_weak d1) d1 1%nat = true /\
    _cleanup d1 = (Raise RuntimeError, d2) /\
    learn_one (pt2 10 0) one_learnt = (Raise RuntimeError, d2) /\
    micro_clusters d2 = [(0%Z, 0%nat)].
Proof.
  split; [repeat constructor|].
  split; [rewrite one_learnt_eq; simpl; lra|].
  split; [reflexivity|].
  split.
  { rewrite one_learnt_eq. unfold weight_weak. simpl.
    rewrite (@pow2_nat _ 2) by (simpl; lra). simpl. lra. }
  pose proof one_learnt_update as Hu.
  remember (mkDBSTREAM 2 (3 / 2) 1 (-2) 1 (3 / 10) 0 [] []
              [(0%Z, 0%nat); (1%Z, 1%nat)] [] []
              (heap_set 1%nat (mkMicroCluster (pt2 10 0) 1 1)
                 (heap_set 0%nat (mkMicroCluster (pt2 0 0) 0 1)
                    (fun _ => mkMicroCluster [] 0 0))) 2%nat)
    as d1 eqn:E1.
  assert (Hww : weight_weak d1 = 4).
  { rewrite E1. unfold weight_weak. simpl.
    rewrite (@pow2_nat _ 2) by (simpl; lra). simpl. lra. }
  assert (H0 : is_weak (weight_weak d1) d1 0%nat = false).
  { rewrite Hww, E1. unfold is_weak. simpl. apply Rltb_false.
    rewrite (@pow2_nat _ 2) by (simpl; lra). simpl. lra. }
  assert (H1 : is_weak (weight_weak d1) d1 1%nat = true).
  { rewrite Hww, E1. unfold is_weak. simpl. apply Rltb_true.
    rewrite (@pow2_nat _ 1) by (simpl; lra). simpl. lra. }
  assert (Hc : _cleanup d1
               = (Raise RuntimeError,
                  set_micro_clusters [(0%Z, 0%nat)] d1)).
  { destruct (@cleanup_scan_removes (weight_weak d1)
                (micro_clusters d1) d1)
      as [[i a] [Hin [Hw Hrun]]].
    - intros k Hk. exact Hk.
    - exists (1%Z, 1%nat). split; [rewrite E1; simpl; tauto|exact H1].
    - assert (Hia : (i, a) = (1%Z, 1%nat)).
      { assert (Hin' : (0%Z, 0%nat) = (i, a) \/ (1%Z, 1%nat) = (i, a)).
        { rewrite E1 in Hin. simpl in Hin. tauto. }
        destruct Hin' as [[= <- <-]|[= <- <-]]; [|reflexivity].
        simpl in Hw. congruence. }
      injection Hia as -> ->.
      unfold _cleanup. unfold bind at 1. simpl.
      unfold bind at 1. unfold for_items, Dict.items. rewrite Hrun.
      rewrite E1. reflexivity. }
  exists d1, (set_micro_clusters [(0%Z, 0%nat)] d1).
  split; [exact Hu|].
  split; [rewrite E1; reflexivity|].
  split; [rewrite E1; reflexivity|].
  split; [exact Hww|]. split; [exact H1|]. split; [exact Hc|].
  split; [|reflexivity].
  unfold learn_one. rewrite (bind_Ok _ _ _ Hu).
  assert (Hci : cleanup_interval d1 = (-2)%Z) by (rewrite E1; reflexivity).
  assert (Hts : time_stamp d1 = 2%Z) by (rewrite E1; reflexivity).
  unfold bind, gets. cbv beta iota. rewrite Hci, Hts.
  change (Z.eqb (-2) 0) with false. change (Z.eqb (2 mod -2) 0) with true.
  cbv iota. exact Hc.
Qed.

(** ** A stream of two connected micro-clusters *)

Lemma shared_reachable : reachable shared.
Proof. repeat constructor. Qed.

Lemma shared_normal :
  exists a b,
    shared
    = mkDBSTREAM 4 (3 / 2) 1 100 1 (3 / 10) 0 [] []
        [(0%Z, 0%nat); (1%Z, 1%nat)] [(0%Z, [(1%Z, 1)])]
        [(0%Z, [(1%Z, 3%Z)])]
        (heap_set 1%nat (mkMicroCluster (pt2 b 0) 3 (7 / 4))
           (heap_set 0%nat (mkMicroCluster (pt2 a 0) 3 (13 / 8))
              (fun _ => mkMicroCluster [] 0 0))) 2%nat /\
    0 <= a <= 7 / 20 /\ 49 / 20 <= b <= 14 / 5.
Proof.
  remember shared as D eqn:E. unfold shared in E. rewrite two_apart_eq in E.
  crunch_in E. go_in E. near_in E (7 / 5) 0. near_in E (7 / 5) 0.
  bound_exp_in E 3%nat (1 / 8). bound_exp_in E 3%nat (1 / 8).
  far_in E 2 0.
  near_in E (7 / 5) 0. near_in E (7 / 5) 0.
  bound_exp_in E 3%nat (1 / 8). bound_exp_in E 3%nat (1 / 8).
  far_in E 2 0.
  assert (P1 : pow2 (- (1) * 1) = 1 / 2)
    by (rewrite (@pow2_neg_nat _ 1) by (simpl; lra); simpl; lra).
  assert (P2 : pow2 (- (1) * 2) = 1 / 4)
    by (rewrite (@pow2_neg_nat _ 2) by (simpl; lra); simpl; lra).
  rewrite P1, P2 in E.
  do 2 eexists. split.
  - rewrite E. apply state_ext.
    + repeat f_equal. lra.
    + intros [|[|a]]; cbv -[Rplus Rmult Rminus Rdiv Ropp Rinv IZR pow2 pt2];
        try reflexivity; apply micro_cluster_eq;
        first [reflexivity | lra | ring].
  - repeat split; nra.
Qed.

(** C1.  [predict_one] changes stored micro-clusters.  In [shared] the
    micro-clusters 0 and 1 are connected and get one label; the
    macro-cluster of that label is the very object stored under key 0,
    and [merge] adds the weight of the micro-cluster 1 to it (and moves
    its center).  The store has the same keys after the call, the
    micro-cluster 0 another weight; a second call adds the weight of the
    micro-cluster 1 once more. *)
Theorem predict_one_mutates_micro_cluster :
  reachable shared /\
  Dict.get 0 (micro_clusters shared) = Some 0%nat /\
  Dict.get 1 (micro_clusters shared) = Some 1%nat /\
  1 <= weight (heap shared 1%nat) /\
  exists d5 d6,
    predict_one between shared = (Ok 0%Z, d5) /\
    micro_clusters d5 = micro_clusters shared /\
    weight (heap d5 0%nat)
    = weight (heap shared 0%nat) + weight (heap shared 1%nat) /\
    weight (heap d5 0%nat) <> weight (heap shared 0%nat) /\
    predict_one between d5 = (Ok 0%Z, d6) /\
    weight (heap d6 0%nat)
    = weight (heap d5 0%nat) + weight (heap shared 1%nat).
Proof.
  split; [exact shared_reachable|].
  destruct shared_normal as [a [b [-> [Ha Hb]]]].
  split; [reflexivity|]. split; [reflexivity|]. split; [cbv; lra|].
  do 2 eexists. split.
  { crunch. rewrite !Rgeb_true by lra. crunch.
    rewrite truediv_ok by lra. crunch.
    rewrite Rgtb_div by lra. crunch.
    rewrite !truediv_ok by lra. crunch. go. reflexivity. }
  split; [reflexivity|]. split; [reflexivity|].
  split; [cbv; lra|].
  split.
  { crunch. rewrite !Rgeb_true by lra. crunch.
    rewrite truediv_ok by lra. crunch.
    rewrite Rgtb_div by lra. crunch.
    rewrite !truediv_ok by lra. crunch. go. reflexivity. }
  reflexivity.
Qed.

(** ** A stream of three micro-clusters around a point *)

Lemma three_apart_eq :
  three_apart
  = mkDBSTREAM 3 3 1 100 1 (3 / 10) 0 [] []
      [(0%Z, 0%nat); (1%Z, 1%nat); (2%Z, 2%nat)] [] []
      (heap_set 2%nat (mkMicroCluster (pt2 (1 / 2) (14 / 5)) 2 1)
         (heap_set 1%nat (mkMicroCluster (pt2 2 0) 1 1)
            (heap_set 0%nat (mkMicroCluster (pt2 (-1) 0) 0 1)
               (fun _ => mkMicroCluster [] 0 0)))) 3%nat.
Proof.
  unfold three_apart. crunch. go. far_box 3 0. crunch. go.
  far_box (3 / 2) (14 / 5). crunch. far_box (3 / 2) (14 / 5). crunch.
  reflexivity.
Qed.

Lemma three_apart_neighbors :
  _find_fixed_radius_nn origin three_apart
  = Ok [(0%Z, 0%nat); (1%Z, 1%nat); (2%Z, 2%nat)].
Proof.
  rewrite three_apart_eq. crunch. go. near_box 1 0. crunch.
  near_box 2 0. crunch. near_box (1 / 2) (14 / 5). reflexivity.
Qed.

(** The run of [_update] on the origin, up to the centers that it
    leaves. *)
Lemma three_apart_run :
  exists d' m0 m2 dist,
    _update origin three_apart = (Ok tt, d') /\
    moved origin three_apart 0%nat = Ok m0 /\
    moved origin three_apart 2%nat = Ok m2 /\
    _distance m0 m2 = Ok dist /\
    dist < clustering_threshold three_apart /\
    center (heap d' 2%nat) = m2 /\
    center (heap d' 2%nat) <> center (heap three_apart 2%nat).
Proof.
  rewrite (update_unfold _ _ three_apart_neighbors), three_apart_eq.
  remember ((_ ;; _)%m _) as U eqn:EU.
  remember (moved _ _ 0%nat) as M0 eqn:EM0.
  remember (moved _ _ 2%nat) as M2 eqn:EM2.
  unfold moved in EM0, EM2.
  crunch_calls_in EM0. go_calls_in EM0.
  crunch_calls_in EM2. go_calls_in EM2.
  crunch_calls_in EU. go_calls_in EU.
  bound_exp_in EU 4%nat (1 / 16).
  bound_exp_in EU 2%nat (1 / 4).
  match type of EU with
  | context [exp ?q] =>
      assert (Hg1 : 1 / 2 <= exp q <= 1) by (apply exp_half_bounds; lra);
      remember (exp q) as g1 in *
  end.
  collapse_in EU EP. near_call_in EP (5 / 2) 0. collapsed_in EU EP.
  collapse_in EU EP. far_call_in EP (47 / 32) (21 / 8). collapsed_in EU EP.
  collapse_in EU EP. far_call_in EP (3 / 2) (21 / 8). collapsed_in EU EP.
  subst U M0 M2. do 4 eexists.
  split; [reflexivity|]. split; [reflexivity|]. split; [reflexivity|].
  split; [apply distance_2d|].
  split; [crunch; apply Rltb_spec;
          apply (@near_by_box _ _ _ 1 (14 / 5)); side|].
  split; [reflexivity|].
  crunch. intros [= H1 H2]. lra.
Qed.

(** C4, as stated, fails when one micro-cluster is in two pairs.  The
    origin moves the micro-clusters 0, 1 and 2 of [three_apart] towards
    it.  The moved centers of 0 and 1 are closer than the threshold and
    both are put back; the pair (0, 2) is then examined on the center of
    0 that was put back, which is not within the threshold of the moved
    center of 2.  So the micro-cluster 2 keeps its moved center although
    the moved centers of 0 and 2 are closer than the threshold. *)
Lemma collapse_examined_on_reverted_center :
  reachable three_apart /\
  NoDup (Dict.values (micro_clusters three_apart)) /\
  _find_fixed_radius_nn origin three_apart
  = Ok [(0%Z, 0%nat); (1%Z, 1%nat); (2%Z, 2%nat)] /\
  exists d' m0 m2 dist,
    _update origin three_apart = (Ok tt, d') /\
    moved origin three_apart 0%nat = Ok m0 /\
    moved origin three_apart 2%nat = Ok m2 /\
    _distance m0 m2 = Ok dist /\
    dist < clustering_threshold three_apart /\
    center (heap d' 2%nat) = m2 /\
    center (heap d' 2%nat) <> center (heap three_apart 2%nat).
Proof.
  split; [repeat constructor|].
  split; [rewrite three_apart_eq; cbv; repeat constructor; simpl;
          intuition discriminate|].
  split; [exact three_apart_neighbors|].
  exact three_apart_run.
Qed.

Lemma origin_keys : NoDup (Dict.keys origin).
Proof. repeat constructor; simpl; intuition discriminate. Qed.

(** C4, as amended, at two streams.  The origin moves the two
    micro-clusters of [two_close] to within the threshold of each other:
    both are put back.  Of the three micro-clusters of [three_apart], 0 is
    put back and 2 keeps its moved center: the two end at least the
    threshold apart. *)
Lemma collapse_prevention_witness :
  (exists m0 m1 dist,
     moved origin two_close 0%nat = Ok m0 /\
     moved origin two_close 1%nat = Ok m1 /\
     _distance m0 m1 = Ok dist /\
     dist < clustering_threshold two_close /\
     center (heap (snd (_update origin two_close)) 0%nat)
     = center (heap two_close 0%nat) /\
     center (heap (snd (_update origin two_close)) 1%nat)
     = center (heap two_close 1%nat)) /\
  center (heap (snd (_update origin three_apart)) 2%nat)
  <> center (heap three_apart 2%nat) /\
  exists dist,
    _distance (center (heap (snd (_update origin three_apart)) 0%nat))
      (center (heap (snd (_update origin three_apart)) 2%nat)) = Ok dist /\
    clustering_threshold three_apart <= dist.
Proof.
  split.
  - destruct two_close_run as [d' [m0 [m1 [dist [Hu [H0 [H1 [Hd Hlt]]]]]]]].
    exists m0, m1, dist.
    split; [exact H0|]. split; [exact H1|]. split; [exact Hd|].
    split; [exact Hlt|].
    refine (proj2
              (proj1 (proj2
                 (@collapse_prevention origin two_close
                    (snd (_update origin two_close))
                    [(0%Z, 0%nat); (1%Z, 1%nat)] _ two_close_neighbors _))
                 0%Z 1%Z 0%nat 1%nat m0 m1 dist
                 (or_introl eq_refl) (or_intror (or_introl eq_refl))
                 eq_refl H0 H1 Hd Hlt) _).
    + apply reachable_distinct. repeat constructor.
    + rewrite Hu. reflexivity.
    + intros k [<-|[<-|[]]]; [now left|now right].
  - destruct three_apart_run
      as [d' [m0 [m2 [dist [Hu [_ [_ [_ [_ [_ Hne]]]]]]]]]].
    rewrite Hu. cbn [snd]. split; [exact Hne|].
    destruct (proj2 (proj2
                (@collapse_prevention origin three_apart d'
                   [(0%Z, 0%nat); (1%Z, 1%nat); (2%Z, 2%nat)]
                   (proj1 (@reachable_distinct three_apart
                             ltac:(repeat constructor)))
                   three_apart_neighbors Hu))
                origin_keys 0%Z 2%Z 0%nat 2%nat
                (or_introl eq_refl)
                (or_intror (or_intror (or_introl eq_refl))) eq_refl)
      as [[_ H]|H]; [contradiction|exact H].
Defined.

(** * Further properties of the methods *)

(** ** What a method leaves alone *)

Lemma keeps_s_setitem {T} (f : DBSTREAM -> T) v i j x :
  graph_free f -> preserves (fun d => f d = v) (s_setitem i j x).
Proof.
  intros [H _] d E. unfold s_setitem.
  destruct (setitem2 i j x (s d)); simpl; [now rewrite H|exact E].
Qed.

Lemma keeps_s_t_setitem {T} (f : DBSTREAM -> T) v i j x :
  graph_free f -> preserves (fun d => f d = v) (s_t_setitem i j x).
Proof.
  intros [_ H] d E. unfold s_t_setitem.
  destruct (setitem2 i j x (s_t d)); simpl; [now rewrite H|exact E].
Qed.

Lemma keeps_merge {T} (f : DBSTREAM -> T) v self cluster :
  object_free f -> preserves (fun d => f d = v) (merge self cluster).
Proof.
  intros H d E. unfold merge.
  destruct (merge_value _ _); simpl; [now rewrite H|exact E].
Qed.

Ltac keeps_step :=
  first
    [ apply keeps_s_setitem; assumption
    | apply keeps_s_t_setitem; assumption
    | apply keeps_merge; assumption
    | apply preserves_ret | apply preserves_raise
    | apply preserves_reads | apply preserves_gets
    | apply preserves_try
    | apply preserves_bind; [|intros ?]
    | apply preserves_foldM; intros ? ?
    | apply preserves_for_each; intros ?
    | apply preserves_if ].

Lemma keeps_modify {T} (f : DBSTREAM -> T) v g :
  (forall d, f (g d) = f d) -> preserves (fun d => f d = v) (modify g).
Proof. intros H. apply preserves_modify. intros d E. now rewrite H. Qed.

Lemma keeps_update_shared_density {T} (f : DBSTREAM -> T) v i j :
  graph_free f -> preserves (fun d => f d = v) (update_shared_density i j).
Proof.
  intros H. unfold update_shared_density.
  repeat first [keeps_step | apply keeps_modify; intros; apply H].
Qed.

Lemma keeps_cleanup_shared_density {T} (f : DBSTREAM -> T) v ww i j :
  graph_free f ->
  preserves (fun d => f d = v) (cleanup_shared_density ww i j).
Proof. intros H. unfold cleanup_shared_density. repeat keeps_step. Qed.

Lemma keeps_predict_one {T} (f : DBSTREAM -> T) v x :
  object_free f -> result_free f ->
  preserves (fun d => f d = v) (predict_one x).
Proof.
  intros Ho Hr.
  unfold predict_one, _recluster, _generate_clusters_from_labels,
    macro_cluster_of_label.
  repeat first [keeps_step | apply keeps_modify; intros; apply Hr].
Qed.

(** X1.  [predict_one], whether it returns or raises, leaves the keys of
    the store and the references under them, the shared density graph
    with its time stamps, the clock and the parameters as they are: the
    reclustering assigns to micro-cluster objects and to its own results
    only. *)
Theorem predict_one_frame x d :
  micro_clusters (snd (predict_one x d)) = micro_clusters d /\
  s (snd (predict_one x d)) = s d /\
  s_t (snd (predict_one x d)) = s_t d /\
  time_stamp (snd (predict_one x d)) = time_stamp d /\
  config (snd (predict_one x d)) = config d.
Proof.
  repeat split.
  - now apply (@keeps_predict_one _ micro_clusters (micro_clusters d) x).
  - now apply (@keeps_predict_one _ s (s d) x).
  - now apply (@keeps_predict_one _ s_t (s_t d) x).
  - now apply (@keeps_predict_one _ time_stamp (time_stamp d) x).
  - now apply (@keeps_predict_one _ config (config d) x).
Qed.

Lemma heap_free_object_free {T} (f : DBSTREAM -> T) :
  heap_free f -> object_free f.
Proof. intros H a m d. apply H. Qed.

Lemma keeps_create {T} (f : DBSTREAM -> T) v x :
  heap_free f -> store_free f ->
  preserves (fun d => f d = v) (create_micro_cluster x).
Proof.
  intros Hh Hs d E. unfold create_micro_cluster. simpl.
  now rewrite Hs, Hh.
Qed.

Lemma keeps_update_neighbor {T} (f : DBSTREAM -> T) v x nn cc i :
  graph_free f -> heap_free f ->
  preserves (fun d => f d = v) (update_neighbor x nn cc i).
Proof.
  intros Hg Hh. unfold update_neighbor.
  repeat first
    [ apply keeps_update_shared_density; assumption
    | keeps_step
    | apply keeps_modify; intros; apply Hh ].
Qed.

Lemma keeps_prevent_collapsing {T} (f : DBSTREAM -> T) v nn cc :
  heap_free f -> preserves (fun d => f d = v) (prevent_collapsing nn cc).
Proof.
  intros Hh. unfold prevent_collapsing, prevent_collapse.
  repeat first [keeps_step | apply keeps_modify; intros; apply Hh].
Qed.

(** The part of [_update] before the clock advances. *)
Lemma keeps_update_branch {T} (f : DBSTREAM -> T) v x (nn : dict addr) :
  graph_free f -> heap_free f -> store_free f ->
  preserves (fun d => f d = v)
    (if Z.ltb (Dict.len nn) 1 then create_micro_cluster x
     else update_neighbors x nn).
Proof.
  intros Hg Hh Hs. apply preserves_if; [now apply keeps_create|].
  unfold update_neighbors.
  apply preserves_bind; [|intros cc; now apply keeps_prevent_collapsing].
  apply preserves_foldM. intros cc i. now apply keeps_update_neighbor.
Qed.

Lemma keeps_cleanup {T} (f : DBSTREAM -> T) v :
  graph_free f -> store_free f -> preserves (fun d => f d = v) _cleanup.
Proof.
  intros Hg Hs. unfold _cleanup.
  apply preserves_bind; [apply preserves_gets|intros ww].
  apply preserves_bind; [|intros _].
  - intros d H. unfold for_items.
    apply (@preserves_for_items_checked _ (fun d => f d = v)); [|exact H].
    intros ia d' H'. unfold cleanup_micro_cluster.
    destruct (is_weak ww d' (snd ia)); simpl; [now rewrite Hs|exact H'].
  - repeat first [apply keeps_cleanup_shared_density; assumption | keeps_step].
Qed.

Lemma update_clock x d :
  time_stamp (snd (_update x d))
  = match fst (_update x d) with
    | Ok _ => (time_stamp d + 1)%Z
    | Raise _ => time_stamp d
    end.
Proof.
  destruct (_find_fixed_radius_nn x d) as [nn|e] eqn:Hnn.
  - rewrite (update_unfold _ _ Hnn).
    pose proof (@keeps_update_branch _ time_stamp (time_stamp d) x nn) as H.
    specialize (H ltac:(now split) ltac:(now intros ? ? ?)
                  ltac:(now intros ? ?) d eq_refl).
    unfold bind. simpl in H.
    destruct ((if Z.ltb (Dict.len nn) 1 then create_micro_cluster x
               else update_neighbors x nn) d) as [[u|e] d1];
      simpl in *; [now rewrite H|exact H].
  - unfold _update, bind, reads. now rewrite Hnn.
Qed.

Lemma update_config x d : config (snd (_update x d)) = config d.
Proof. now apply (@config_update (config d) x d). Qed.

Lemma keeps_update {T} (f : DBSTREAM -> T) v x :
  graph_free f -> heap_free f -> store_free f ->
  (forall t d, f (set_time_stamp t d) = f d) ->
  preserves (fun d => f d = v) (_update x).
Proof.
  intros Hg Hh Hs Ht. unfold _update.
  apply preserves_bind; [apply preserves_reads|intros nn].
  apply preserves_bind; [|intros _; apply keeps_modify; intros; apply Ht].
  now apply keeps_update_branch.
Qed.

Lemma keeps_learn_one {T} (f : DBSTREAM -> T) v x :
  graph_free f -> heap_free f -> store_free f ->
  (forall t d, f (set_time_stamp t d) = f d) ->
  preserves (fun d => f d = v) (learn_one x).
Proof.
  intros Hg Hh Hs Ht. unfold learn_one.
  repeat first
    [ apply keeps_update; assumption | apply keeps_cleanup; assumption
    | keeps_step ].
Qed.

(** X2.  The clock, the parameters and the results under [learn_one].
    The clock advances by exactly one when [_update] returns, also when
    the cleanup that follows raises, and stays when [_update] raises.
    The five parameters of the constructor are never assigned to, and
    [n_clusters], [clusters] and [centers] stay those of the last
    [predict_one]. *)
Theorem learn_one_clock_and_parameters x d :
  config (snd (learn_one x d)) = config d /\
  (n_clusters (snd (learn_one x d)), clusters (snd (learn_one x d)),
   centers (snd (learn_one x d)))
  = (n_clusters d, clusters d, centers d) /\
  time_stamp (snd (learn_one x d))
  = match fst (_update x d) with
    | Ok _ => (time_stamp d + 1)%Z
    | Raise _ => time_stamp d
    end.
Proof.
  split; [now apply (@config_learn_one (config d) x d)|].
  split.
  { apply (@keeps_learn_one _
             (fun d => (n_clusters d, clusters d, centers d))); try easy. }
  rewrite <- update_clock. unfold learn_one. unfold bind at 1.
  destruct (_update x d) as [[u|e] d1]; [|reflexivity].
  simpl snd.
  assert (H : preserves (fun d => time_stamp d = time_stamp d1)
                (ts <- gets time_stamp ;;
                 ci <- gets cleanup_interval ;;
                 if Z.eqb ci 0 then raise ZeroDivisionError
                 else if Z.eqb (ts mod ci) 0 then _cleanup
                 else ret tt)%m).
  { repeat first [apply keeps_cleanup; [now split|now intros ? ?]
                 | keeps_step]. }
  now apply H.
Qed.

(** X3.  When [learn_one] cleans up.  With the clock at [t] before the
    call, [learn_one] is [_update] followed by [_cleanup] exactly when
    [t + 1] is a multiple of [cleanup_interval]; with
    [cleanup_interval = 0] the test [time_stamp % cleanup_interval]
    raises [ZeroDivisionError] after the update was done; an exception
    of [_update] ends the call before the test. *)
Theorem learn_one_schedule x d :
  learn_one x d
  = match _update x d with
    | (Raise e, d1) => (Raise e, d1)
    | (Ok _, d1) =>
        if Z.eqb (cleanup_interval d) 0 then (Raise ZeroDivisionError, d1)
        else if Z.eqb ((time_stamp d + 1) mod cleanup_interval d) 0
             then _cleanup d1
             else (Ok tt, d1)
    end.
Proof.
  pose proof (update_clock x d) as Hts.
  pose proof (update_config x d) as Hc.
  unfold learn_one. unfold bind at 1.
  destruct (_update x d) as [[u|e] d1]; [|reflexivity].
  simpl in Hts, Hc. unfold config in Hc. injection Hc as _ _ Hci _ _.
  unfold bind, gets. simpl. rewrite Hts, Hci.
  destruct (Z.eqb (cleanup_interval d) 0); [reflexivity|].
  destruct (Z.eqb _ 0); reflexivity.
Qed.

(** ** The neighbours of a point, exactly *)

Lemma get_app_absent {V} (pre l : dict V) k :
  ~ In k (Dict.keys pre) -> Dict.get k (pre ++ l) = Dict.get k l.
Proof.
  induction pre as [|[k' v'] r IH]; simpl; [reflexivity|].
  intros Hn. destruct (Z.eqb_spec k k') as [->|Hne]; [tauto|].
  apply IH. tauto.
Qed.

Lemma set_absent {V} (d : dict V) k v :
  ~ In k (Dict.keys d) -> Dict.set k v d = d ++ [(k, v)].
Proof.
  induction d as [|[k' v'] r IH]; simpl; [reflexivity|].
  intros Hn. destruct (Z.eqb_spec k k') as [->|Hne]; [tauto|].
  f_equal. apply IH. tauto.
Qed.

Lemma keys_filter_incl {V} (p : Z * V -> bool) (d : dict V) k :
  In k (Dict.keys (filter p d)) -> In k (Dict.keys d).
Proof.
  unfold Dict.keys. rewrite !in_map_iff.
  intros [kv [E H]]. apply filter_In in H as [H _]. now exists kv.
Qed.

Lemma find_fixed_radius_nn_scan x d l :
  forall pre,
    micro_clusters d = pre ++ l ->
    NoDup (Dict.keys (pre ++ l)) ->
    match rfold (fun fixed_radius_nn i =>
                   (a <-- micro_cluster i d ;;
                    dist <-- _distance (center (heap d a)) x ;;
                    if Rltb dist (clustering_threshold d)
                    then Ok (Dict.set i a fixed_radius_nn)
                    else Ok fixed_radius_nn)%result)
                (Dict.keys l) (filter (in_radius x d) pre) with
    | Ok nn =>
        nn = filter (in_radius x d) (pre ++ l) /\
        forall ia, In ia l ->
          exists dist, _distance (center (heap d (snd ia))) x = Ok dist
    | Raise e =>
        exists ia, In ia l /\
                   _distance (center (heap d (snd ia))) x = Raise e
    end.
Proof.
  match goal with
  | |- context [rfold ?g _ _] => remember g as f eqn:Ef
  end.
  assert (Hf : forall pre l' i a acc,
             micro_clusters d = pre ++ (i, a) :: l' ->
             ~ In i (Dict.keys pre) ->
             f acc i
             = (dist <-- _distance (center (heap d a)) x ;;
                if Rltb dist (clustering_threshold d)
                then Ok (Dict.set i a acc) else Ok acc)%result).
  { intros pre l' i a acc Hm Hi. subst f.
    unfold micro_cluster, Dict.getitem. rewrite Hm.
    rewrite (@get_app_absent _ pre _ i Hi). simpl.
    now rewrite Z.eqb_refl. }
  clear Ef.
  induction l as [|[i a] l IH]; intros pre Hm Hnd.
  - simpl. rewrite app_nil_r. split; [reflexivity|intros ? []].
  - assert (Hi : ~ In i (Dict.keys pre)).
    { unfold Dict.keys in *. rewrite map_app in Hnd. simpl in Hnd.
      apply NoDup_remove_2 in Hnd. intros H. apply Hnd.
      apply in_or_app. now left. }
    simpl. rewrite (Hf pre l i a _ Hm Hi).
    specialize (IH (pre ++ [(i, a)])).
    rewrite <- app_assoc in IH. simpl in IH. specialize (IH Hm Hnd).
    rewrite filter_app in IH. simpl in IH. unfold in_radius at 2 in IH.
    simpl in IH.
    destruct (_distance (center (heap d a)) x) as [dist|e] eqn:Hd; simpl.
    + destruct (Rltb dist (clustering_threshold d)); cbn [rbind].
      * rewrite set_absent
          by (intros H; apply Hi; now apply keys_filter_incl in H).
        destruct (rfold _ _ _) as [nn|e].
        -- destruct IH as [-> IH]. split; [reflexivity|].
           intros ia [<-|Hin]; [now exists dist|now apply IH].
        -- destruct IH as [ia [Hin He]]. exists ia. split; [now right|].
           exact He.
      * rewrite app_nil_r in IH.
        destruct (rfold _ _ _) as [nn|e].
        -- destruct IH as [-> IH]. split; [reflexivity|].
           intros ia [<-|Hin]; [now exists dist|now apply IH].
        -- destruct IH as [ia [Hin He]]. exists ia. split; [now right|].
           exact He.
    + exists (i, a). split; [now left|exact Hd].
Qed.

Lemma find_fixed_radius_nn_cases x d :
  NoDup (Dict.keys (micro_clusters d)) ->
  match _find_fixed_radius_nn x d with
  | Ok nn =>
      nn = filter (in_radius x d) (micro_clusters d) /\
      forall ia, In ia (micro_clusters d) ->
        exists dist, _distance (center (heap d (snd ia))) x = Ok dist
  | Raise e =>
      exists ia, In ia (micro_clusters d) /\
                 _distance (center (heap d (snd ia))) x = Raise e
  end.
Proof.
  intros Hnd.
  exact (@find_fixed_radius_nn_scan x d (micro_clusters d) [] eq_refl Hnd).
Qed.

(** X4.  [_find_fixed_radius_nn] on a store with distinct keys.  When
    it returns, the result holds, in the order of the store and under
    the same keys, exactly the entries whose center lies closer to the
    point than [clustering_threshold], and every distance was defined.
    When it raises, the exception is the one of [_distance] on some
    stored center (a point of other dimensions): no other failure
    exists. *)
Theorem find_fixed_radius_nn_exact x d :
  NoDup (Dict.keys (micro_clusters d)) ->
  match _find_fixed_radius_nn x d with
  | Ok nn =>
      nn = filter (in_radius x d) (micro_clusters d) /\
      forall ia, In ia (micro_clusters d) ->
        exists dist, _distance (center (heap d (snd ia))) x = Ok dist
  | Raise e =>
      exists ia, In ia (micro_clusters d) /\
                 _distance (center (heap d (snd ia))) x = Raise e
  end.
Proof. apply find_fixed_radius_nn_cases. Qed.

(** ** The store in reachable states *)

Lemma NoDup_keys_pop {V} (d : dict V) k :
  NoDup (Dict.keys d) -> NoDup (Dict.keys (Dict.pop k d)).
Proof.
  induction d as [|[k' v'] r IH]; simpl; [trivial|].
  intros H. inversion H as [|? ? Hn Hr]; subst.
  destruct (Z.eqb k k'); [exact Hr|]. simpl. constructor; [|now apply IH].
  intros Hin. apply Hn. unfold Dict.keys in *.
  apply in_map_iff in Hin as [kv [E Hin]]. apply In_pop in Hin.
  apply in_map_iff. now exists kv.
Qed.

(** A method that leaves [micro_clusters] as it is keeps every property
    of the keys. *)
Lemma preserves_by_store (P : dict addr -> Prop) {A} (c : M A) :
  (forall v, preserves (fun d => micro_clusters d = v) c) ->
  preserves (fun d => P (micro_clusters d)) c.
Proof. intros H d Hd. now rewrite (H (micro_clusters d) d eq_refl). Qed.

Lemma keys_distinct_update x :
  preserves (fun d => NoDup (Dict.keys (micro_clusters d))) (_update x).
Proof.
  unfold _update.
  apply preserves_bind; [apply preserves_reads|intros nn].
  apply preserves_bind;
    [|intros _; apply preserves_modify; intros d H; exact H].
  apply preserves_if.
  - intros d H. unfold create_micro_cluster. simpl.
    now apply NoDup_keys_set.
  - apply (preserves_by_store (fun m => NoDup (Dict.keys m))). intros v.
    apply preserves_bind;
      [|intros cc; apply keeps_prevent_collapsing; now intros ? ? ?].
    apply preserves_foldM. intros cc i.
    apply keeps_update_neighbor; [now split|now intros ? ? ?].
Qed.

Lemma keys_distinct_cleanup :
  preserves (fun d => NoDup (Dict.keys (micro_clusters d))) _cleanup.
Proof.
  unfold _cleanup.
  apply preserves_bind; [apply preserves_gets|intros ww].
  apply preserves_bind; [|intros _].
  - intros d H. unfold for_items.
    apply (@preserves_for_items_checked _
             (fun d => NoDup (Dict.keys (micro_clusters d)))); [|exact H].
    intros ia d' H'. unfold cleanup_micro_cluster.
    destruct (is_weak ww d' (snd ia)); simpl; [|exact H'].
    now apply NoDup_keys_pop.
  - apply (preserves_by_store (fun m => NoDup (Dict.keys m))). intros v.
    repeat first
      [ apply keeps_cleanup_shared_density; now split | keeps_step ].
Qed.

Lemma keys_distinct_learn_one x :
  preserves (fun d => NoDup (Dict.keys (micro_clusters d))) (learn_one x).
Proof.
  unfold learn_one.
  repeat first
    [ apply keys_distinct_update | apply keys_distinct_cleanup
    | keeps_step ].
Qed.

Lemma predict_one_store x d :
  micro_clusters (snd (predict_one x d)) = micro_clusters d.
Proof.
  now apply (@keeps_predict_one _ micro_clusters (micro_clusters d) x).
Qed.

Lemma reachable_keys_distinct d :
  reachable d -> NoDup (Dict.keys (micro_clusters d)).
Proof.
  induction 1 as [r ff ci al mw|d x _ IH|d x _ IH].
  - constructor.
  - now apply keys_distinct_learn_one.
  - rewrite predict_one_store. exact IH.
Qed.

(** X5.  In every state reached from the constructor by [learn_one] and
    [predict_one], returning or raising, the store is well formed: no
    key occurs twice, no two keys refer to the same micro-cluster
    object, and every object of the store was allocated by the
    instance. *)
Theorem reachable_store_well_formed d :
  reachable d ->
  NoDup (Dict.keys (micro_clusters d)) /\
  NoDup (Dict.values (micro_clusters d)) /\
  forall a, In a (Dict.values (micro_clusters d)) -> (a < next_addr d)%nat.
Proof.
  intros H. split; [now apply reachable_keys_distinct|].
  now apply reachable_distinct.
Qed.

(** X6.  In every reachable state and for every fading factor, also a
    negative one, each stored micro-cluster has a weight of at least 1
    and was last updated no later than the clock shows. *)
Theorem reachable_weights_and_time_stamps d :
  reachable d ->
  forall i a, In (i, a) (micro_clusters d) ->
    1 <= weight (heap d a) /\ (last_update (heap d a) <= time_stamp d)%Z.
Proof. intros H i a Hin. exact (reachable_sound H i a Hin). Qed.

(** ** The scan of [predict_one] *)

Lemma closest_center_scan x l :
  forall pre acc,
    first_nearest x pre acc ->
    match rfold (fun (acc : option R * Z) (ic : Z * point) =>
                   (distance <-- _distance (snd ic) x ;;
                    if closer distance (fst acc)
                    then Ok (Some distance, fst ic)
                    else Ok acc)%result) l acc with
    | Ok acc' => first_nearest x (pre ++ l) acc'
    | Raise e => exists kc, In kc l /\ _distance (snd kc) x = Raise e
    end.
Proof.
  induction l as [|[k1 c1] l IH]; intros pre acc Hacc.
  - simpl. now rewrite app_nil_r.
  - simpl.
    destruct (_distance c1 x) as [d1|e] eqn:Hd; simpl;
      [|exists (k1, c1); split; [now left|exact Hd]].
    assert (Hnext : first_nearest x (pre ++ [(k1, c1)])
                      (if closer d1 (fst acc) then (Some d1, k1) else acc)).
    { destruct acc as [[m|] k]; unfold first_nearest in *; simpl in *.
      - destruct Hacc as [p [c [q [-> [Hc [Hp Hq]]]]]].
        destruct (Rltb d1 m) eqn:Hlt; simpl.
        + apply Rltb_spec in Hlt.
          exists (p ++ (k, c) :: q), c1, []. split; [reflexivity|].
          split; [exact Hd|]. split; [|intros ? []].
          intros kc Hin. apply in_app_or in Hin as [Hin|[<-|Hin]].
          * destruct (Hp kc Hin) as [m' [E Hm]]. exists m'.
            split; [exact E|lra].
          * exists m. split; [exact Hc|exact Hlt].
          * destruct (Hq kc Hin) as [m' [E Hm]]. exists m'.
            split; [exact E|lra].
        + exists p, c, (q ++ [(k1, c1)]). rewrite <- app_assoc. simpl.
          split; [reflexivity|]. split; [exact Hc|]. split; [exact Hp|].
          intros kc Hin. apply in_app_or in Hin as [Hin|[<-|[]]];
            [now apply Hq|].
          exists d1. split; [exact Hd|].
          destruct (Rlt_dec d1 m) as [Hl|Hl];
            [apply Rltb_true in Hl; congruence|lra].
      - destruct Hacc as [-> ->]. exists [], c1, []. split; [reflexivity|].
        split; [exact Hd|]. split; intros ? []. }
    specialize (IH (pre ++ [(k1, c1)]) _ Hnext).
    rewrite <- app_assoc in IH. simpl in IH.
    destruct (closer d1 (fst acc)); cbn [rbind];
      (destruct (rfold _ _ _) as [acc'|e];
       [exact IH|destruct IH as [kc [Hin He]]; exists kc; split;
                 [now right|exact He]]).
Qed.

(** X7.  The scan of [predict_one] over the centers.  Without any center
    the answer is the default key 0.  Otherwise it is the key of a
    nearest center, the first one in the order of [centers] among those
    at the least distance.  The scan raises only when [_distance] does on
    some center. *)
Theorem closest_center_first_nearest x cs :
  match closest_center x cs with
  | Ok acc => first_nearest x cs acc
  | Raise e => exists kc, In kc cs /\ _distance (snd kc) x = Raise e
  end.
Proof.
  exact (@closest_center_scan x cs [] (None, 0%Z) (conj eq_refl eq_refl)).
Qed.

(** ** What the labelling returns *)

Lemma grows_refl labels : grows labels labels.
Proof. intros k H. exact H. Qed.

Lemma grows_trans l1 l2 l3 : grows l1 l2 -> grows l2 l3 -> grows l1 l3.
Proof. intros H1 H2 k H. apply H2, H1, H. Qed.

Lemma is_labelled_cases h (labels : labelling) :
  match is_labelled h labels with
  | Ok true => labelled h labels
  | Ok false => Dict.get h labels = Some None
  | Raise e => e = KeyError /\ ~ In h (Dict.keys labels)
  end.
Proof.
  unfold is_labelled, Dict.getitem, labelled.
  destruct (Dict.get h labels) as [[c|]|] eqn:E; simpl.
  - now exists c.
  - reflexivity.
  - split; [reflexivity|]. now apply get_None_keys.
Qed.

(** A key without label gets the label [count]. *)
Lemma labels_upto_set K count labels h :
  labels_upto K count labels -> (0 <= count)%Z ->
  Dict.get h labels = Some None ->
  labels_upto K count (Dict.set h (Some count) labels) /\
  grows labels (Dict.set h (Some count) labels) /\
  labelled h (Dict.set h (Some count) labels).
Proof.
  intros [Hk [Hr Hw]] Hc Hh.
  assert (Hother : forall k, k <> h ->
            Dict.get k (Dict.set h (Some count) labels) = Dict.get k labels)
    by (intros k Hne; now apply get_set_other).
  assert (Hsame : Dict.get h (Dict.set h (Some count) labels)
                  = Some (Some count)) by apply get_set_same.
  split; [split; [|split]|split].
  - rewrite keys_set_present; [exact Hk|]. now apply get_In_keys in Hh.
  - intros k c Hg. destruct (Z.eq_dec k h) as [->|Hne].
    + rewrite Hsame in Hg. injection Hg as <-. lia.
    + rewrite (Hother k Hne) in Hg. now apply Hr in Hg.
  - intros c Hc'. destruct (Hw c Hc') as [k Hg]. exists k.
    rewrite Hother; [exact Hg|]. intros ->. congruence.
  - intros k [c Hg]. exists c.
    rewrite Hother; [exact Hg|]. intros ->. congruence.
  - now exists count.
Qed.

Lemma add_new_neighbors_cases labels nbrs :
  forall seed_set,
    match add_new_neighbors labels nbrs seed_set with
    | Ok seed_set' =>
        forall h, In h seed_set' -> In h seed_set \/ In h nbrs
    | Raise e =>
        e = KeyError /\
        exists j, In j nbrs /\ ~ In j (Dict.keys labels)
    end.
Proof.
  unfold add_new_neighbors.
  induction nbrs as [|n nbrs IH]; intros seed_set; simpl; [now left|].
  pose proof (is_labelled_cases n labels) as Hn.
  destruct (is_labelled n labels) as [[|]|e]; simpl.
  - specialize (IH (seed_set ++ [n])).
    destruct (rfold _ _ _) as [seed_set'|e].
    + intros h Hin. apply IH in Hin as [Hin|Hin]; [|now right; right].
      apply in_app_or in Hin as [Hin|[<-|[]]]; [now left|now right; left].
    + destruct IH as [-> [j [Hj Hn']]]. split; [reflexivity|].
      exists j. split; [now right|exact Hn'].
  - specialize (IH seed_set).
    destruct (rfold _ _ _) as [seed_set'|e].
    + intros h Hin. apply IH in Hin as [Hin|Hin]; [now left|now right; right].
    + destruct IH as [-> [j [Hj Hn']]]. split; [reflexivity|].
      exists j. split; [now right|exact Hn'].
  - destruct Hn as [-> Hn]. split; [reflexivity|].
    exists n. split; [now left|exact Hn].
Qed.

Lemma expand_seed_set_labels {V} (wal : dict (dict V)) K count :
  (0 <= count)%Z ->
  forall fuel seed_set labels,
    labels_upto K count labels -> from_rows wal seed_set ->
    match expand_seed_set fuel wal count seed_set labels with
    | None => True
    | Some (Ok labels') => labels_upto K count labels' /\ grows labels labels'
    | Some (Raise e) => dangling_neighbor wal K e
    end.
Proof.
  intros Hc. induction fuel as [|fuel IH]; intros seed_set labels Hl Hs;
    simpl; [exact I|].
  destruct seed_set as [|h rest]; [split; [exact Hl|apply grows_refl]|].
  pose proof (is_labelled_cases h labels) as Hh.
  destruct (is_labelled h labels) as [[|]|e].
  - apply IH; [exact Hl|]. intros h' Hin. apply Hs. now right.
  - destruct (labels_upto_set h Hl Hc Hh) as [Hl1 [Hg1 _]].
    destruct (Dict.get h wal) as [row|] eqn:Hrow.
    + pose proof (add_new_neighbors_cases
                    (Dict.set h (Some count) labels) (Dict.keys row)
                    (h :: rest)) as Ha.
      destruct (add_new_neighbors _ _ _) as [seed_set'|e].
      * assert (Hs' : from_rows wal seed_set').
        { intros h' Hin. apply Ha in Hin as [Hin|Hin]; [now apply Hs|].
          exists h, row. split; [exact Hrow|exact Hin]. }
        specialize (IH seed_set' _ Hl1 Hs').
        destruct (expand_seed_set _ _ _ _ _) as [[labels'|e]|];
          [|exact IH|exact I].
        destruct IH as [Hl' Hg']. split; [exact Hl'|].
        eapply grows_trans; eassumption.
      * destruct Ha as [-> [j [Hj Hn]]]. split; [reflexivity|].
        exists h, row, j. split; [exact Hrow|]. split; [exact Hj|].
        destruct Hl1 as [<- _]. exact Hn.
    + specialize (IH (h :: rest) _ Hl1 Hs).
      destruct (expand_seed_set _ _ _ _ _) as [[labels'|e]|];
        [|exact IH|exact I].
      destruct IH as [Hl' Hg']. split; [exact Hl'|].
      eapply grows_trans; eassumption.
  - destruct Hh as [-> Hn]. split; [reflexivity|].
    destruct (Hs h (or_introl eq_refl)) as [i [row [Hi Hj]]].
    exists i, row, h. split; [exact Hi|]. split; [exact Hj|].
    destruct Hl as [<- _]. exact Hn.
Qed.

Lemma labels_upto_more K count labels :
  labels_upto K count labels -> (-1 <= count)%Z ->
  forall index, Dict.get index labels = Some None ->
    labels_upto K (count + 1) (Dict.set index (Some (count + 1)%Z) labels).
Proof.
  intros [Hk [Hr Hw]] Hc index Hi.
  assert (Hother : forall k, k <> index ->
            Dict.get k (Dict.set index (Some (count + 1)%Z) labels)
            = Dict.get k labels)
    by (intros k Hne; now apply get_set_other).
  assert (Hsame : Dict.get index (Dict.set index (Some (count + 1)%Z) labels)
                  = Some (Some (count + 1)%Z)) by apply get_set_same.
  split; [|split].
  - rewrite keys_set_present; [exact Hk|]. now apply get_In_keys in Hi.
  - intros k c Hg. destruct (Z.eq_dec k index) as [->|Hne].
    + rewrite Hsame in Hg. injection Hg as <-. lia.
    + rewrite (Hother k Hne) in Hg. apply Hr in Hg. lia.
  - intros c Hc'. destruct (Z.eq_dec c (count + 1)) as [->|Hne].
    + now exists index.
    + destruct (Hw c ltac:(lia)) as [k Hg]. exists k.
      rewrite Hother; [exact Hg|]. intros ->. congruence.
Qed.

Lemma label_from_labels {V} (wal : dict (dict V)) K labels count index :
  labels_upto K count labels -> (-1 <= count)%Z -> In index K ->
  match label_from wal (labels, count) index with
  | None => True
  | Some (Ok (labels', count')) =>
      labels_upto K count' labels' /\ (-1 <= count')%Z /\
      grows labels labels' /\ labelled index labels'
  | Some (Raise e) => dangling_neighbor wal K e
  end.
Proof.
  intros Hl Hc Hin. unfold label_from.
  pose proof (is_labelled_cases index labels) as Hi.
  destruct (is_labelled index labels) as [[|]|e].
  - split; [exact Hl|]. split; [exact Hc|]. split; [apply grows_refl|].
    exact Hi.
  - pose proof (labels_upto_more Hl Hc _ Hi) as Hl1.
    assert (Hg1 : grows labels (Dict.set index (Some (count + 1)%Z) labels)).
    { intros k [c Hg]. exists c. rewrite get_set_other; [exact Hg|].
      intros ->. congruence. }
    assert (Hi1 : labelled index
                    (Dict.set index (Some (count + 1)%Z) labels))
      by (exists (count + 1)%Z; apply get_set_same).
    destruct (Dict.get index wal) as [row|] eqn:Hrow.
    + assert (Hs : from_rows wal (Dict.keys row)).
      { intros h Hh. exists index, row. split; [exact Hrow|exact Hh]. }
      pose proof (@expand_seed_set_labels _ wal K (count + 1) ltac:(lia)
                    (enough_fuel wal (Dict.keys row)
                       (Dict.set index (Some (count + 1)%Z) labels))
                    (Dict.keys row) _ Hl1 Hs) as He.
      destruct (expand_seed_set _ _ _ _ _) as [[labels'|e]|];
        [|exact He|exact I].
      destruct He as [Hl' Hg']. split; [exact Hl'|]. split; [lia|].
      split; [eapply grows_trans; eassumption|]. now apply Hg'.
    + split; [exact Hl1|]. split; [lia|]. now split.
  - destruct Hi as [_ Hn]. destruct Hl as [Hk _]. rewrite Hk in Hn.
    contradiction.
Qed.

Lemma label_all_labels {V} (wal : dict (dict V)) K indexes :
  forall labels count,
    labels_upto K count labels -> (-1 <= count)%Z -> incl indexes K ->
    match label_all wal indexes (labels, count) with
    | None => True
    | Some (Ok labels') =>
        (exists count', labels_upto K count' labels' /\ (-1 <= count')%Z) /\
        grows labels labels' /\
        forall k, In k indexes -> labelled k labels'
    | Some (Raise e) => dangling_neighbor wal K e
    end.
Proof.
  induction indexes as [|index r IH]; intros labels count Hl Hc Hincl;
    cbn [label_all].
  - split; [now exists count|]. split; [apply grows_refl|intros ? []].
  - pose proof (@label_from_labels _ wal K labels count index Hl Hc
                  (Hincl index (or_introl eq_refl))) as Hf.
    destruct (label_from wal (labels, count) index)
      as [[[labels1 count1]|e]|]; [|exact Hf|exact I].
    destruct Hf as [Hl1 [Hc1 [Hg1 Hi1]]].
    specialize (IH labels1 count1 Hl1 Hc1
                  (fun k H => Hincl k (or_intror H))).
    destruct (label_all wal r (labels1, count1)) as [[labels'|e]|];
      [|exact IH|exact I].
    destruct IH as [Hex [Hg' Hall]]. split; [exact Hex|].
    split; [eapply grows_trans; eassumption|].
    intros k [<-|Hk]; [now apply Hg'|now apply Hall].
Qed.

Lemma get_unlabelled (K : list Z) k v :
  Dict.get k (map (fun i => (i, @None Z)) K) = Some v -> v = None.
Proof.
  induction K as [|i K IH]; simpl; [discriminate|].
  destruct (Z.eqb k i); [now intros [= <-]|exact IH].
Qed.

Lemma generate_labels_cases {V} (wal : dict (dict V)) d :
  exists r,
    _generate_labels wal d = Some r /\
    match r with
    | Ok labels =>
        Dict.keys labels = Dict.keys (micro_clusters d) /\
        (forall k, In k (Dict.keys (micro_clusters d)) -> labelled k labels) /\
        exists count,
          (-1 <= count)%Z /\
          (forall k c, Dict.get k labels = Some (Some c) ->
                       (0 <= c <= count)%Z) /\
          (forall c, (0 <= c <= count)%Z ->
                     exists k, Dict.get k labels = Some (Some c))
    | Raise e => dangling_neighbor wal (Dict.keys (micro_clusters d)) e
    end.
Proof.
  unfold _generate_labels.
  set (K := Dict.keys (micro_clusters d)).
  assert (HK : Dict.keys (map (fun i => (i, @None Z)) K) = K).
  { unfold Dict.keys. rewrite map_map. simpl. apply map_id. }
  assert (H0 : labels_upto K (-1) (map (fun i => (i, @None Z)) K)).
  { split; [exact HK|]. split.
    - intros k c Hg. apply get_unlabelled in Hg. discriminate.
    - intros c Hc. lia. }
  pose proof (@label_all_labels _ wal K
                (Dict.keys (map (fun i => (i, @None Z)) K)) _ _ H0
                ltac:(lia)) as H.
  rewrite HK in *. specialize (H (fun k Hk => Hk)).
  pose proof (@label_all_terminates _ wal K
                (map (fun i => (i, @None Z)) K, (-1)%Z)) as Ht.
  destruct (label_all wal K _) as [[labels|e]|]; [| |contradiction].
  - exists (Ok labels). split; [reflexivity|].
    destruct H as [[count [[Hk [Hr Hw]] Hc]] [_ Hall]].
    split; [exact Hk|]. split; [exact Hall|].
    exists count. split; [exact Hc|]. split; [exact Hr|exact Hw].
  - exists (Raise e). split; [reflexivity|exact H].
Qed.

(** X8.  [_generate_labels] on every adjacency list and store.  Its
    loops end.  When it returns, the labels have the keys of the store in
    the order of the store, every key has a label (none is left at
    [None]), and the labels in use are exactly the numbers 0 to [count]
    for some [count >= -1].  It raises only [KeyError], and only when
    the adjacency list names as a neighbour a key that the store does
    not have. *)
Theorem generate_labels_outcome {V} (wal : dict (dict V)) d :
  exists r,
    _generate_labels wal d = Some r /\
    match r with
    | Ok labels =>
        Dict.keys labels = Dict.keys (micro_clusters d) /\
        (forall k, In k (Dict.keys (micro_clusters d)) -> labelled k labels) /\
        exists count,
          (-1 <= count)%Z /\
          (forall k c, Dict.get k labels = Some (Some c) ->
                       (0 <= c <= count)%Z) /\
          (forall c, (0 <= c <= count)%Z ->
                     exists k, Dict.get k labels = Some (Some c))
    | Raise e => dangling_neighbor wal (Dict.keys (micro_clusters d)) e
    end.
Proof. apply generate_labels_cases. Qed.

(** ** The weighted adjacency list *)

Lemma kept_edge_unique d i j v v' :
  kept_edge d i j v -> kept_edge d i j v' -> v = v'.
Proof.
  intros [ai [aj [sij [Hi [Hj [Hs [_ [_ [-> _]]]]]]]]]
         [ai' [aj' [sij' [Hi' [Hj' [Hs' [_ [_ [-> _]]]]]]]]].
  congruence.
Qed.

Lemma Rgeb_spec a b : Rgeb a b = true <-> a >= b.
Proof.
  unfold Rgeb. destruct (Rge_dec a b); split; intros; try reflexivity;
    try assumption; try discriminate; contradiction.
Qed.

Lemma Rgtb_spec a b : Rgtb a b = true <-> a > b.
Proof.
  unfold Rgtb. destruct (Rgt_dec a b); split; intros; try reflexivity;
    try assumption; try discriminate; contradiction.
Qed.

(** [g[i][j] = v], with [g[i] = {j: v}] when the row is missing. *)
Lemma entry_put {V} (g : dict (dict V)) i j v i' j' :
  entry i' j' (match setitem2 i j v g with
               | Ok w => w
               | Raise _ => Dict.set i [(j, v)] g
               end)
  = if Z.eqb i' i && Z.eqb j' j then Some v else entry i' j' g.
Proof.
  unfold setitem2, Dict.getitem, entry.
  destruct (Dict.get i g) as [row|] eqn:Hrow; simpl.
  - destruct (Z.eqb_spec i' i) as [->|Hne]; simpl.
    + rewrite get_set_same, Hrow.
      destruct (Z.eqb_spec j' j) as [->|Hnj].
      * apply get_set_same.
      * now apply get_set_other.
    + now rewrite get_set_other.
  - destruct (Z.eqb_spec i' i) as [->|Hne]; simpl.
    + rewrite get_set_same, Hrow. simpl. now destruct (Z.eqb j' j).
    + now rewrite get_set_other.
Qed.

Lemma adjacency_step d i (wam : dict (dict R)) j :
  match
    (ai <-- micro_cluster i d ;;
     if Rgeb (weight (heap d ai)) (minimum_weight d) then
       aj <-- micro_cluster j d ;;
       if Rgeb (weight (heap d aj)) (minimum_weight d) then
         sij <-- getitem2 i j (s d) ;;
         value <-- truediv sij
                     ((weight (heap d ai) + weight (heap d aj)) / 2) ;;
         if Rgtb value (intersection_factor d) then
           match setitem2 i j value wam with
           | Ok w => Ok w
           | Raise _ => Ok (Dict.set i [(j, value)] wam)
           end
         else Ok wam
       else Ok wam
     else Ok wam)%result
  with
  | Ok wam' =>
      (exists v, kept_edge d i j v /\
                 forall i' j',
                   entry i' j' wam'
                   = if Z.eqb i' i && Z.eqb j' j then Some v
                     else entry i' j' wam) \/
      ((forall v, ~ kept_edge d i j v) /\ wam' = wam)
  | Raise e => bad_edge d i j e
  end.
Proof.
  unfold micro_cluster, Dict.getitem.
  destruct (Dict.get i (micro_clusters d)) as [ai|] eqn:Hi; simpl;
    [|left; split; [reflexivity|now left]].
  destruct (Rgeb (weight (heap d ai)) (minimum_weight d)) eqn:Hwi.
  2:{ right. split; [|reflexivity].
      intros v [ai' [aj' [sij' [Hi' [_ [_ [Hw _]]]]]]].
      rewrite Hi in Hi'. injection Hi' as <-.
      apply Rgeb_spec in Hw. congruence. }
  destruct (Dict.get j (micro_clusters d)) as [aj|] eqn:Hj; simpl;
    [|left; split; [reflexivity|now right; left]].
  destruct (Rgeb (weight (heap d aj)) (minimum_weight d)) eqn:Hwj.
  2:{ right. split; [|reflexivity].
      intros v [ai' [aj' [sij' [_ [Hj' [_ [_ [Hw _]]]]]]]].
      rewrite Hj in Hj'. injection Hj' as <-.
      apply Rgeb_spec in Hw. congruence. }
  assert (He : getitem2 i j (s d) = of_option KeyError (entry i j (s d))).
  { unfold getitem2, entry, Dict.getitem.
    now destruct (Dict.get i (s d)). }
  rewrite He. destruct (entry i j (s d)) as [sij|] eqn:Hs; simpl;
    [|left; split; [reflexivity|now right; right]].
  unfold truediv.
  destruct (Req_dec_T ((weight (heap d ai) + weight (heap d aj)) / 2) 0)
    as [Hz|Hz]; simpl.
  { right. split; [reflexivity|]. exists ai, aj. repeat split; trivial. lra. }
  destruct (Rgtb _ (intersection_factor d)) eqn:Hv.
  - assert (Hk : kept_edge d i j
                   (sij / ((weight (heap d ai) + weight (heap d aj)) / 2))).
    { exists ai, aj, sij. repeat split; trivial;
        first [now apply Rgeb_spec | now apply Rgtb_spec]. }
    pose proof (entry_put wam i j
                  (sij / ((weight (heap d ai) + weight (heap d aj)) / 2)))
      as Hput.
    destruct (setitem2 i j _ wam); left; eexists; (split; [exact Hk|]);
      intros i' j'; apply Hput.
  - right. split; [|reflexivity].
    intros v [ai' [aj' [sij' [Hi' [Hj' [Hs' [_ [_ [-> Hgt]]]]]]]]].
    rewrite Hi in Hi'. rewrite Hj in Hj'. rewrite Hs in Hs'.
    injection Hi' as <-. injection Hj' as <-. injection Hs' as <-.
    apply Rgtb_spec in Hgt. congruence.
Qed.

Lemma agrees_step d wam wam' pairs i j :
  agrees d wam pairs ->
  (exists v, kept_edge d i j v /\
             forall i' j',
               entry i' j' wam'
               = if Z.eqb i' i && Z.eqb j' j then Some v
                 else entry i' j' wam) \/
  ((forall v, ~ kept_edge d i j v) /\ wam' = wam) ->
  agrees d wam' (pairs ++ [(i, j)]).
Proof.
  intros Ha [[v0 [Hk He]]|[Hn ->]] i' j' v.
  - rewrite He, in_app_iff.
    destruct (Z.eqb_spec i' i) as [->|Hi]; simpl.
    + destruct (Z.eqb_spec j' j) as [->|Hj].
      * split.
        -- intros [= <-]. split; [right; now left|exact Hk].
        -- intros [_ Hk']. f_equal. eapply kept_edge_unique; eassumption.
      * rewrite (Ha i j' v). split; intros [H1 H2]; (split; [|exact H2]).
        -- now left.
        -- destruct H1 as [H1|[[= H1]|[]]]; [exact H1|congruence].
    + rewrite (Ha i' j' v). split; intros [H1 H2]; (split; [|exact H2]).
      * now left.
      * destruct H1 as [H1|[[= H1 _]|[]]]; [exact H1|congruence].
  - rewrite (Ha i' j' v), in_app_iff.
    split; intros [H1 H2]; (split; [|exact H2]).
    + now left.
    + destruct H1 as [H1|[[= <- <-]|[]]]; [exact H1|].
      exfalso. eapply Hn; eassumption.
Qed.

Lemma adjacency_row d i js :
  forall pairs (wam : dict (dict R)),
    agrees d wam pairs ->
    match
      rfold (fun weighted_adjacency_matrix j =>
         (ai <-- micro_cluster i d ;;
          if Rgeb (weight (heap d ai)) (minimum_weight d) then
            aj <-- micro_cluster j d ;;
            if Rgeb (weight (heap d aj)) (minimum_weight d) then
              sij <-- getitem2 i j (s d) ;;
              value <-- truediv sij
                          ((weight (heap d ai) + weight (heap d aj)) / 2) ;;
              if Rgtb value (intersection_factor d) then
                match setitem2 i j value weighted_adjacency_matrix with
                | Ok w => Ok w
                | Raise _ =>
                    Ok (Dict.set i [(j, value)] weighted_adjacency_matrix)
                end
              else Ok weighted_adjacency_matrix
            else Ok weighted_adjacency_matrix
          else Ok weighted_adjacency_matrix)%result)
        js wam
    with
    | Ok wam' => agrees d wam' (pairs ++ map (pair i) js)
    | Raise e => exists j, In j js /\ bad_edge d i j e
    end.
Proof.
  induction js as [|j js IH]; intros pairs wam Ha.
  - simpl. now rewrite app_nil_r.
  - cbn [rfold]. pose proof (adjacency_step d i wam j) as Hstep.
    match goal with
    | |- context [rbind ?c _] => destruct c as [wam1|e]
    end; cbn [rbind].
    + specialize (IH (pairs ++ [(i, j)]) wam1 (agrees_step Ha Hstep)).
      rewrite <- app_assoc in IH. simpl in IH.
      match goal with
      | |- match ?c with _ => _ end => destruct c as [wam'|e]
      end; [exact IH|].
      destruct IH as [j' [Hin Hb]]. exists j'. split; [now right|exact Hb].
    + exists j. split; [now left|exact Hstep].
Qed.

Lemma adjacency_rows d is_ :
  forall pairs (wam : dict (dict R)),
    agrees d wam pairs ->
    incl is_ (Dict.keys (s d)) ->
    match
      rfold (fun wam i =>
         (row <-- Dict.getitem i (s d) ;;
          rfold (fun weighted_adjacency_matrix j =>
             (ai <-- micro_cluster i d ;;
              if Rgeb (weight (heap d ai)) (minimum_weight d) then
                aj <-- micro_cluster j d ;;
                if Rgeb (weight (heap d aj)) (minimum_weight d) then
                  sij <-- getitem2 i j (s d) ;;
                  value <-- truediv sij
                              ((weight (heap d ai) + weight (heap d aj))
                               / 2) ;;
                  if Rgtb value (intersection_factor d) then
                    match setitem2 i j value weighted_adjacency_matrix with
                    | Ok w => Ok w
                    | Raise _ =>
                        Ok (Dict.set i [(j, value)]
                              weighted_adjacency_matrix)
                    end
                  else Ok weighted_adjacency_matrix
                else Ok weighted_adjacency_matrix
              else Ok weighted_adjacency_matrix)%result)
            (Dict.keys row) wam)%result)
        is_ wam
    with
    | Ok wam' => agrees d wam' (pairs ++ flat_map (pairs_of d) is_)
    | Raise e =>
        exists i j, In i is_ /\ In (i, j) (pairs_of d i) /\ bad_edge d i j e
    end.
Proof.
  induction is_ as [|i is_ IH]; intros pairs wam Ha Hincl.
  - simpl. now rewrite app_nil_r.
  - cbn [rfold flat_map].
    destruct (In_keys_get _ _ (Hincl i (or_introl eq_refl))) as [row Hrow].
    unfold Dict.getitem at 1. rewrite Hrow. cbn [of_option rbind].
    pose proof (@adjacency_row d i (Dict.keys row) pairs wam Ha) as Hr.
    assert (Hp : pairs_of d i = map (pair i) (Dict.keys row))
      by (unfold pairs_of; now rewrite Hrow).
    match goal with
    | |- context [rbind ?c _] => destruct c as [wam1|e]
    end; cbn [rbind].
    + rewrite <- Hp in Hr.
      specialize (IH _ wam1 Hr (fun k H => Hincl k (or_intror H))).
      rewrite <- app_assoc in IH.
      match goal with
      | |- match ?c with _ => _ end => destruct c as [wam'|e]
      end; [exact IH|].
      destruct IH as [i' [j' [Hin [Hp' Hb]]]].
      exists i', j'. split; [now right|]. now split.
    + destruct Hr as [j [Hj Hb]]. exists i, j. split; [now left|].
      split; [|exact Hb]. rewrite Hp. now apply in_map.
Qed.

Lemma in_pairs_of d i j :
  In (i, j) (pairs_of d i) <-> exists sij, entry i j (s d) = Some sij.
Proof.
  unfold pairs_of, entry.
  destruct (Dict.get i (s d)) as [row|]; [|split; [intros []|]].
  - rewrite in_map_iff. split.
    + intros [j' [[= <-] Hin]]. now apply In_keys_get.
    + intros [sij Hg]. exists j. split; [reflexivity|].
      now apply get_In_keys in Hg.
  - now intros [sij H].
Qed.

Lemma weighted_adjacency_cases d :
  match _generate_weighted_adjacency_matrix d with
  | Ok wam => forall i j v, entry i j wam = Some v <-> kept_edge d i j v
  | Raise e =>
      exists i j,
        (exists sij, entry i j (s d) = Some sij) /\
        ((e = KeyError /\
          (Dict.get i (micro_clusters d) = None \/
           Dict.get j (micro_clusters d) = None)) \/
         (e = ZeroDivisionError /\
          exists ai aj,
            Dict.get i (micro_clusters d) = Some ai /\
            Dict.get j (micro_clusters d) = Some aj /\
            weight (heap d ai) + weight (heap d aj) = 0))
  end.
Proof.
  unfold _generate_weighted_adjacency_matrix.
  assert (H0 : agrees d (@Dict.empty (dict R)) []).
  { intros i j v. split; [discriminate|intros [[] _]]. }
  pose proof (@adjacency_rows d (Dict.keys (s d)) [] Dict.empty H0
                (fun k H => H)) as H.
  match goal with
  | |- match ?c with _ => _ end => destruct c as [wam|e]
  end.
  - intros i j v. rewrite (H i j v). simpl. split; [now intros [_ Hk]|].
    intros Hk. split; [|exact Hk].
    destruct Hk as [ai [aj [sij [_ [_ [Hs _]]]]]].
    apply in_flat_map. exists i. split.
    + unfold entry in Hs. destruct (Dict.get i (s d)) eqn:Hrow;
        [|discriminate]. now apply get_In_keys in Hrow.
    + apply in_pairs_of. now exists sij.
  - destruct H as [i [j [Hi [Hp Hb]]]]. exists i, j.
    apply in_pairs_of in Hp. split; [exact Hp|].
    destruct Hp as [sij Hs].
    destruct Hb as [[-> [Hb|[Hb|Hb]]]|Hb];
      [left; split; [reflexivity|now left]
      |left; split; [reflexivity|now right]
      |congruence
      |now right].
Qed.

(** X9.  [_generate_weighted_adjacency_matrix].  When it returns, the
    adjacency list has an entry for the pair [(i, j)] exactly when the
    shared density graph has one, both micro-clusters are in the store
    with a weight of at least [minimum_weight], and the density divided
    by the mean of the two weights exceeds [intersection_factor]; the
    entry is that quotient.  It raises at an entry of the graph only:
    [KeyError] when a micro-cluster of the pair is not in the store,
    [ZeroDivisionError] when the two weights add up to zero. *)
Theorem weighted_adjacency_outcome d :
  match _generate_weighted_adjacency_matrix d with
  | Ok wam => forall i j v, entry i j wam = Some v <-> kept_edge d i j v
  | Raise e =>
      exists i j,
        (exists sij, entry i j (s d) = Some sij) /\
        ((e = KeyError /\
          (Dict.get i (micro_clusters d) = None \/
           Dict.get j (micro_clusters d) = None)) \/
         (e = ZeroDivisionError /\
          exists ai aj,
            Dict.get i (micro_clusters d) = Some ai /\
            Dict.get j (micro_clusters d) = Some aj /\
            weight (heap d ai) + weight (heap d aj) = 0))
  end.
Proof. exact (weighted_adjacency_cases d). Qed.

(** ** The shared density graph and its time stamps *)

Lemma get_graph_keys {V W} (g1 : dict (dict V)) (g2 : dict (dict W)) i :
  graph_keys g1 = graph_keys g2 ->
  match Dict.get i g1, Dict.get i g2 with
  | Some r1, Some r2 => Dict.keys r1 = Dict.keys r2
  | None, None => True
  | _, _ => False
  end.
Proof.
  revert g2. induction g1 as [|[k1 r1] g1 IH]; intros [|[k2 r2] g2]; simpl;
    try discriminate; [trivial|].
  intros [= -> Hr Hg]. destruct (Z.eqb i k2); [exact Hr|now apply IH].
Qed.

Lemma get_keys {V W} (r1 : dict V) (r2 : dict W) j :
  Dict.keys r1 = Dict.keys r2 ->
  match Dict.get j r1, Dict.get j r2 with
  | Some _, Some _ => True
  | None, None => True
  | _, _ => False
  end.
Proof.
  revert r2. induction r1 as [|[k1 v1] r1 IH]; intros [|[k2 v2] r2]; simpl;
    try discriminate; [trivial|].
  intros [= -> Hr]. destruct (Z.eqb j k2); [trivial|now apply IH].
Qed.

Lemma keys_set_congr {V W} (r1 : dict V) (r2 : dict W) j v1 v2 :
  Dict.keys r1 = Dict.keys r2 ->
  Dict.keys (Dict.set j v1 r1) = Dict.keys (Dict.set j v2 r2).
Proof.
  revert r2. induction r1 as [|[k1 w1] r1 IH]; intros [|[k2 w2] r2]; simpl;
    try discriminate; [trivial|].
  intros [= -> Hr]. destruct (Z.eqb j k2); simpl; [now rewrite Hr|].
  f_equal. now apply IH.
Qed.

Lemma graph_keys_set_congr {V W} (g1 : dict (dict V)) (g2 : dict (dict W))
  i r1 r2 :
  graph_keys g1 = graph_keys g2 -> Dict.keys r1 = Dict.keys r2 ->
  graph_keys (Dict.set i r1 g1) = graph_keys (Dict.set i r2 g2).
Proof.
  intros Hg Hr. revert g2 Hg.
  induction g1 as [|[k1 w1] g1 IH]; intros [|[k2 w2] g2]; simpl;
    try discriminate; [intros _; now rewrite Hr|].
  intros [= -> Hw Hg]. destruct (Z.eqb i k2); simpl.
  - now rewrite Hr, Hg.
  - rewrite Hw. f_equal. now apply IH.
Qed.

(** An assignment in place leaves the keys of the graph as they are. *)
Lemma graph_keys_set_in_place {V} (g : dict (dict V)) i row j v :
  Dict.get i g = Some row -> In j (Dict.keys row) ->
  graph_keys (Dict.set i (Dict.set j v row) g) = graph_keys g.
Proof.
  intros Hrow Hj. induction g as [|[k w] g IH]; simpl in *; [discriminate|].
  destruct (Z.eqb_spec i k) as [->|Hne]; simpl.
  - injection Hrow as ->. now rewrite keys_set_present.
  - f_equal. now apply IH.
Qed.

Lemma aligned_update_shared_density i j :
  preserves aligned (update_shared_density i j).
Proof.
  intros d Ha. unfold aligned in *.
  pose proof (@get_graph_keys _ _ _ _ i Ha) as Hi. revert Hi.
  usd_unfold.
  usd_cases i j d; intros Hi; try contradiction; dict_simpl;
    try (pose proof (@get_keys _ _ _ _ j Hi) as Hj;
         repeat match goal with
                | H : Dict.get j _ = _ |- _ => rewrite H in Hj
                end; try contradiction);
    try (apply graph_keys_set_congr; [exact Ha|]);
    try (apply keys_set_congr; exact Hi);
    try reflexivity; try exact Ha.

Qed.

Lemma aligned_cleanup_shared_density ww i j :
  preserves aligned (cleanup_shared_density ww i j).
Proof.
  intros d Ha. unfold aligned in *.
  pose proof (@get_graph_keys _ _ _ _ i Ha) as Hi. revert Hi.
  unfold cleanup_shared_density, bind, reads, gets, ret, s_setitem,
    s_t_setitem, getitem2, setitem2, Dict.getitem.
  destruct (Dict.get i (s d)) as [row|] eqn:Hrow; simpl; [|intros _; exact Ha].
  destruct (Dict.get j row) as [sij|] eqn:Hsij; simpl;
    [|intros _; exact Ha].
  destruct (Dict.get i (s_t d)) as [trow|] eqn:Htrow; simpl;
    [|intros _; exact Ha].
  intros Hi. pose proof (@get_keys _ _ _ _ j Hi) as Hj. rewrite Hsij in Hj.
  destruct (Dict.get j trow) as [tij|] eqn:Htij; simpl; [|contradiction].
  destruct (Rltb _ _); simpl; [|exact Ha].
  rewrite Hrow. simpl. rewrite Htrow. simpl.
  apply graph_keys_set_congr; [exact Ha|]. now apply keys_set_congr.
Qed.

Lemma aligned_update x : preserves aligned (_update x).
Proof.
  unfold _update, prevent_collapsing, prevent_collapse, update_neighbor,
    create_micro_cluster.
  repeat first
    [ apply aligned_update_shared_density | preserves_step
    | intros d H; exact H ].
Qed.

Lemma aligned_cleanup : preserves aligned _cleanup.
Proof.
  unfold _cleanup.
  apply preserves_bind; [apply preserves_gets|intros ww].
  apply preserves_bind; [|intros _].
  - intros d H. unfold for_items.
    apply (@preserves_for_items_checked _ aligned); [|exact H].
    intros ia d' H'. unfold cleanup_micro_cluster.
    now destruct (is_weak ww d' (snd ia)).
  - repeat first [apply aligned_cleanup_shared_density | preserves_step].
Qed.

Lemma aligned_learn_one x : preserves aligned (learn_one x).
Proof.
  unfold learn_one.
  repeat first [apply aligned_update | apply aligned_cleanup | preserves_step].
Qed.

Lemma reachable_aligned d : reachable d -> aligned d.
Proof.
  induction 1 as [r ff ci al mw|d x _ IH|d x _ IH].
  - reflexivity.
  - now apply aligned_learn_one.
  - unfold aligned.
    rewrite (@keeps_predict_one _ s (s d) x) by (try reflexivity; now intros).
    rewrite (@keeps_predict_one _ s_t (s_t d) x)
      by (try reflexivity; now intros).
    exact IH.
Qed.

Lemma entry_defined_keys {V W} (g1 : dict (dict V)) (g2 : dict (dict W)) i j :
  graph_keys g1 = graph_keys g2 ->
  (exists v, entry i j g1 = Some v) -> exists w, entry i j g2 = Some w.
Proof.
  intros Hg [v Hv]. unfold entry in *.
  pose proof (@get_graph_keys _ _ _ _ i Hg) as Hi.
  destruct (Dict.get i g1) as [r1|]; [|discriminate].
  destruct (Dict.get i g2) as [r2|]; [|contradiction].
  pose proof (@get_keys _ _ _ _ j Hi) as Hj. rewrite Hv in Hj.
  destruct (Dict.get j r2) as [w|]; [now exists w|contradiction].
Qed.

Lemma keys_graph_keys {V} (g : dict (dict V)) :
  Dict.keys g = map fst (graph_keys g).
Proof. unfold Dict.keys, graph_keys. now rewrite map_map. Qed.

Lemma cleanup_shared_density_zeroes ww i j d :
  aligned d -> (exists sij, entry i j (s d) = Some sij) ->
  zeroes_only (cleanup_shared_density ww i j) d.
Proof.
  intros Ha Hs.
  destruct (@entry_defined_keys _ _ (s d) (s_t d) i j Ha Hs) as [tij Ht].
  destruct Hs as [sij Hs]. unfold entry in Hs, Ht.
  unfold zeroes_only, cleanup_shared_density, bind, reads, gets, ret,
    s_setitem, s_t_setitem, getitem2, setitem2, Dict.getitem.
  destruct (Dict.get i (s d)) as [row|] eqn:Hrow; [|discriminate].
  destruct (Dict.get i (s_t d)) as [trow|] eqn:Htrow; [|discriminate].
  simpl. rewrite Hs, Ht. simpl.
  destruct (Rltb _ _); simpl.
  - rewrite Hrow. simpl. rewrite Htrow. simpl.
    eexists. split; [reflexivity|]. simpl.
    split; [apply graph_keys_set_in_place; [exact Hrow|]
           ; now apply get_In_keys in Hs|].
    split; [apply graph_keys_set_in_place; [exact Htrow|]
           ; now apply get_In_keys in Ht|].
    now repeat split.
  - exists d. now repeat split.
Qed.

Lemma zeroes_only_aligned c d :
  zeroes_only c d -> aligned d -> aligned (snd (c d)).
Proof.
  intros [d' [-> [Hs [Ht _]]]] Ha. unfold aligned in *. simpl. congruence.
Qed.

Lemma zeroes_only_bind (c : M unit) (k : M unit) d :
  zeroes_only c d -> zeroes_only k (snd (c d)) ->
  zeroes_only (bind c (fun _ => k)) d.
Proof.
  intros [d1 [E1 [Hs1 [Ht1 [Hm1 [Hh1 [Hts1 Hc1]]]]]]]. rewrite E1. simpl.
  intros [d2 [E2 [Hs2 [Ht2 [Hm2 [Hh2 [Hts2 Hc2]]]]]]].
  exists d2. unfold bind. rewrite E1. split; [exact E2|].
  repeat split; congruence.
Qed.

Lemma zeroes_only_for_each {A} (body : A -> M unit)
  (Q : A -> DBSTREAM -> Prop) l :
  (forall a d, In a l -> Q a d -> aligned d -> zeroes_only (body a) d) ->
  (forall a d d', graph_keys (s d') = graph_keys (s d) -> Q a d -> Q a d') ->
  forall d, aligned d -> (forall a, In a l -> Q a d) ->
            zeroes_only (for_each l body) d.
Proof.
  intros Hb HQ. unfold for_each. generalize tt.
  induction l as [|a l IH]; intros u d Ha Hq; simpl.
  - exists d. destruct u. now repeat split.
  - assert (H1 : zeroes_only (body a) d)
      by (apply Hb; [now left|apply Hq; now left|exact Ha]).
    pose proof (zeroes_only_aligned H1 Ha) as Ha1.
    destruct H1 as [d1 [E1 [Hs1 [Ht1 [Hm1 [Hh1 [Hts1 Hc1]]]]]]].
    rewrite E1 in Ha1. simpl in Ha1.
    destruct (IH (fun a' d' H => Hb a' d' (or_intror H)) tt d1 Ha1) as
      [d2 [E2 [Hs2 [Ht2 [Hm2 [Hh2 [Hts2 Hc2]]]]]]].
    { intros a' Hin. apply (HQ a' d d1 Hs1). apply Hq. now right. }
    exists d2. unfold bind. rewrite E1. split; [exact E2|].
    repeat split; congruence.
Qed.

Lemma zeroes_only_row i (k : dict R -> M unit) d row :
  Dict.get i (s d) = Some row -> zeroes_only (k row) d ->
  zeroes_only (bind (reads (fun d => Dict.getitem i (s d))) k) d.
Proof.
  intros Hrow H. unfold zeroes_only, bind, reads, Dict.getitem in *.
  now rewrite Hrow.
Qed.

Lemma cleanup_graph_zeroes ww d :
  aligned d ->
  zeroes_only
    (for_each (Dict.keys (s d))
       (fun i =>
          row <- reads (fun d => Dict.getitem i (s d)) ;;
          for_each (Dict.keys row) (cleanup_shared_density ww i))%m) d.
Proof.
  intros Ha.
  apply (@zeroes_only_for_each _ _
           (fun i d => In i (Dict.keys (s d)))); [| |exact Ha|trivial].
  - intros i d1 _ Hi Ha1.
    destruct (In_keys_get _ _ Hi) as [row Hrow].
    apply (zeroes_only_row _ _ Hrow).
    apply (@zeroes_only_for_each _ _
             (fun j d => exists sij, entry i j (s d) = Some sij));
      [| |exact Ha1|].
    + intros j d2 _ Hj Ha2. now apply cleanup_shared_density_zeroes.
    + intros j d2 d3 Hk Hj. eapply entry_defined_keys; [|exact Hj].
      now symmetry.
    + intros j Hj. apply In_keys_get in Hj as [sij Hj]. exists sij.
      unfold entry. now rewrite Hrow.
  - intros i d1 d2 Hk Hi. rewrite keys_graph_keys in *. now rewrite Hk.
Qed.

(** [_cleanup] in a state where no stored micro-cluster is weak and the
    graph is aligned with its time stamps. *)
Lemma cleanup_zeroes d :
  aligned d ->
  (forall ia, In ia (micro_clusters d) ->
              is_weak (weight_weak d) d (snd ia) = false) ->
  zeroes_only _cleanup d.
Proof.
  intros Ha Hw.
  destruct (cleanup_graph_zeroes (weight_weak d) Ha) as [d' [E H]].
  exists d'. split; [|exact H].
  unfold _cleanup. unfold bind at 1. unfold gets at 1. unfold bind at 1.
  unfold for_items, Dict.items.
  rewrite (@cleanup_scan_keeps (weight_weak d) (micro_clusters d) d Hw).
  unfold bind at 1. unfold gets at 1. exact E.
Qed.

Lemma get_set_cases {V} (row : dict V) j v j' v' :
  Dict.get j' (Dict.set j v row) = Some v' ->
  (j' = j /\ v' = v) \/ Dict.get j' row = Some v'.
Proof.
  destruct (Z.eq_dec j' j) as [->|Hne].
  - rewrite get_set_same. intros [= <-]. now left.
  - rewrite get_set_other by assumption. now right.
Qed.

Lemma entry_set_row {V} (g : dict (dict V)) i row' i' j' v' :
  entry i' j' (Dict.set i row' g) = Some v' ->
  (i' = i /\ Dict.get j' row' = Some v') \/ entry i' j' g = Some v'.
Proof.
  unfold entry. destruct (Z.eq_dec i' i) as [->|Hne].
  - rewrite get_set_same. now left.
  - rewrite get_set_other by assumption. now right.
Qed.

(** The entries of the graph after [update_shared_density]: those of
    before, and the one of the pair, which is 0 or the faded value of
    before plus 1. *)
Lemma update_shared_density_entries i j d i' j' v' :
  entry i' j' (s (snd (update_shared_density i j d))) = Some v' ->
  entry i' j' (s d) = Some v' \/
  (i' = i /\ j' = j /\
   (v' = 0 \/
    exists sij x, entry i j (s d) = Some sij /\ v' = sij * pow2 x + 1)).
Proof.
  unfold entry at 3. usd_unfold.
  usd_cases i j d; dict_simpl; try (intros H; now left);
    intros He;
    repeat match goal with
      | H : entry _ _ (Dict.set _ _ _) = Some _ |- _ =>
          apply entry_set_row in H as [[-> H]|H]
      | H : Dict.get _ (Dict.set _ _ _) = Some _ |- _ =>
          apply get_set_cases in H as [[-> ->]|H]
      | H : Dict.get _ [(_, _)] = Some _ |- _ =>
          simpl in H;
          match type of H with
          | context [Z.eqb ?a ?b] =>
              destruct (Z.eqb_spec a b) as [->|?]; [|discriminate];
              injection H as <-
          end
      end;
    try (now left);
    try (right; split; [reflexivity|]; split; [reflexivity|]; now left);
    try (right; split; [reflexivity|]; split; [reflexivity|]; right;
         eexists; eexists; split; reflexivity);
    try (left; unfold entry;
         match goal with
         | H : Dict.get i (s d) = Some _ |- _ => rewrite H
         end; assumption).
Qed.

Lemma ordered_update_shared_density i j :
  (i < j)%Z -> preserves ordered (update_shared_density i j).
Proof.
  intros Hlt d Ho i' j' v' He.
  apply update_shared_density_entries in He
    as [He|[-> [-> [->|[sij [x [Hs ->]]]]]]].
  - now apply Ho.
  - split; [exact Hlt|lra].
  - split; [exact Hlt|]. apply Ho in Hs as [_ Hs].
    pose proof (pow2_pos x). nra.
Qed.

Lemma ordered_cleanup_shared_density ww i j :
  preserves ordered (cleanup_shared_density ww i j).
Proof.
  intros d Ho. unfold ordered in *.
  unfold cleanup_shared_density, bind, reads, gets, ret, s_setitem,
    s_t_setitem, getitem2, setitem2, Dict.getitem.
  destruct (Dict.get i (s d)) as [row|] eqn:Hrow; simpl; [|exact Ho].
  destruct (Dict.get j row) as [sij|] eqn:Hsij; simpl; [|exact Ho].
  destruct (Dict.get i (s_t d)) as [trow|] eqn:Htrow; simpl; [|exact Ho].
  destruct (Dict.get j trow) as [tij|] eqn:Htij; simpl; [|exact Ho].
  destruct (Rltb _ _); simpl; [|exact Ho].
  rewrite Hrow. simpl.
  assert (Hnew : forall i' j' v',
             entry i' j' (Dict.set i (Dict.set j 0 row) (s d)) = Some v' ->
             (i' < j')%Z /\ 0 <= v').
  { intros i' j' v' He.
    apply entry_set_row in He as [[-> He]|He]; [|now apply Ho].
    apply get_set_cases in He as [[-> ->]|He].
    - split; [|lra]. apply (Ho i j sij). unfold entry. now rewrite Hrow.
    - apply (Ho i j' v'). unfold entry. now rewrite Hrow. }
  destruct (Dict.get i (s_t d)); simpl; exact Hnew.
Qed.

Lemma ordered_update x : preserves ordered (_update x).
Proof.
  unfold _update, prevent_collapsing, prevent_collapse, update_neighbor,
    create_micro_cluster.
  repeat first
    [ match goal with
      | |- preserves ordered (if Z.gtb ?j ?i then _ else _) =>
          destruct (Z.gtb j i) eqn:?;
          [apply ordered_update_shared_density; now apply Z.gtb_lt
          |apply preserves_ret]
      end
    | preserves_step
    | intros d H; exact H ].
Qed.

Lemma ordered_cleanup : preserves ordered _cleanup.
Proof.
  unfold _cleanup.
  apply preserves_bind; [apply preserves_gets|intros ww].
  apply preserves_bind; [|intros _].
  - intros d H. unfold for_items.
    apply (@preserves_for_items_checked _ ordered); [|exact H].
    intros ia d' H'. unfold cleanup_micro_cluster.
    now destruct (is_weak ww d' (snd ia)).
  - repeat first [apply ordered_cleanup_shared_density | preserves_step].
Qed.

Lemma ordered_learn_one x : preserves ordered (learn_one x).
Proof.
  unfold learn_one.
  repeat first [apply ordered_update | apply ordered_cleanup | preserves_step].
Qed.

Lemma reachable_ordered d : reachable d -> ordered d.
Proof.
  induction 1 as [r ff ci al mw|d x _ IH|d x _ IH].
  - intros i j v H. discriminate.
  - now apply ordered_learn_one.
  - unfold ordered.
    rewrite (@keeps_predict_one _ s (s d) x) by (try reflexivity; now intros).
    exact IH.
Qed.

(** X10.  The shared density graph in every reachable state.  [s] and
    [s_t] have the same keys, row by row and in the same order: every
    density has a time stamp and every time stamp a density.  Every
    entry is stored under the smaller key of its pair only, and no
    density is negative. *)
Theorem reachable_graph_well_formed d :
  reachable d ->
  graph_keys (s d) = graph_keys (s_t d) /\
  forall i j v, entry i j (s d) = Some v -> (i < j)%Z /\ 0 <= v.
Proof.
  intros H. split; [now apply reachable_aligned|now apply reachable_ordered].
Qed.

Lemma learn_one_cleans_up x d d1 :
  reachable d -> 0 < fading_factor d -> (1 <= cleanup_interval d)%Z ->
  _update x d = (Ok tt, d1) ->
  exists d',
    learn_one x d = (Ok tt, d') /\
    micro_clusters d' = micro_clusters d1 /\
    heap d' = heap d1 /\
    graph_keys (s d') = graph_keys (s d1) /\
    graph_keys (s_t d') = graph_keys (s_t d1) /\
    time_stamp d' = (time_stamp d + 1)%Z.
Proof.
  intros Hr Hff Hci Hu.
  assert (Ha1 : aligned d1).
  { pose proof (@aligned_update x d (reachable_aligned Hr)) as H.
    now rewrite Hu in H. }
  assert (Hs1 : sound_weights d1).
  { pose proof (@sound_update x d (reachable_sound Hr)) as H.
    now rewrite Hu in H. }
  pose proof (update_config x d) as Hc. rewrite Hu in Hc. simpl in Hc.
  unfold config in Hc. injection Hc as _ Hff1 Hci1 _ _.
  pose proof (update_clock x d) as Hts. rewrite Hu in Hts. simpl in Hts.
  assert (Hz : zeroes_only _cleanup d1).
  { apply cleanup_zeroes; [exact Ha1|]. intros [i a] Hin.
    apply sound_not_weak; [now rewrite Hff1|now rewrite Hci1|].
    now apply (Hs1 i a). }
  destruct Hz as [d2 [E2 [Hk [Hkt [Hm [Hh [Ht _]]]]]]].
  unfold learn_one. unfold bind at 1. rewrite Hu.
  unfold bind, gets. simpl. rewrite Hci1.
  destruct (Z.eqb_spec (cleanup_interval d) 0) as [Hz|_]; [lia|].
  destruct (Z.eqb _ 0).
  - exists d2. rewrite E2. repeat split; try assumption. now rewrite Ht.
  - exists d1. repeat split. exact Hts.
Qed.

(** ** Weights and time stamps under [_update] *)

Lemma update_neighbors_updated x nn l :
  NoDup l ->
  forall cc d cc' d',
  (forall k k' a, In k l -> In k' l ->
     Dict.get k (micro_clusters d) = Some a ->
     Dict.get k' (micro_clusters d) = Some a -> k = k') ->
  foldM (update_neighbor x nn) l cc d = (Ok cc', d') ->
  forall k a, In k l -> Dict.get k (micro_clusters d) = Some a ->
    exists m, moved x d a = Ok m /\ heap d' a = updated d a m.
Proof.
  induction 1 as [|k l Hk Hnd IH]; intros cc d cc' d' Hinj H; simpl in H;
    [intros ? ? []|].
  apply bind_Ok_inv in H as [cc1 [d1 [H1 H2]]].
  apply update_neighbor_inv in H1
    as [a [m [Ha [Hm [-> [Hh [Hoth [Hmc [Hts Hc]]]]]]]]].
  unfold micro_cluster, Dict.getitem in Ha.
  destruct (Dict.get k (micro_clusters d)) as [a0|] eqn:Hg; [|discriminate].
  injection Ha as ->.
  assert (Hinj1 : forall k1 k2 a1, In k1 l -> In k2 l ->
            Dict.get k1 (micro_clusters d1) = Some a1 ->
            Dict.get k2 (micro_clusters d1) = Some a1 -> k1 = k2).
  { rewrite Hmc. intros k1 k2 a1 Hk1 Hk2. apply Hinj; now right. }
  pose proof (@update_neighbors_moved x nn l Hnd _ _ _ _ Hinj1 H2)
    as [_ [_ [_ [Hfr _]]]].
  specialize (IH _ _ _ _ Hinj1 H2).
  rewrite Hmc in *.
  assert (Ha_l : forall k', In k' l ->
                            Dict.get k' (micro_clusters d) <> Some a).
  { intros k' Hin' Hg'.
    assert (k' = k) by (apply (Hinj k' k a); simpl; auto).
    subst. contradiction. }
  unfold config in Hc. injection Hc as Hth Hff _ _ _.
  intros k0 a0 [<-|Hin'] Hg0.
  - rewrite Hg in Hg0. injection Hg0 as <-. exists m.
    split; [exact Hm|]. now rewrite (Hfr a Ha_l).
  - assert (Hne : a0 <> a) by (intros ->; now apply (Ha_l k0)).
    destruct (IH k0 a0 Hin' Hg0) as [m0 [Hm0 Hh0]]. exists m0. split.
    + rewrite <- Hm0. symmetry. apply moved_ext; [now symmetry|].
      now apply Hoth.
    + rewrite Hh0. unfold updated.
      now rewrite (Hoth a0 Hne), Hts, Hff.
Qed.

Lemma weights_set_center (v : addr -> R * Z) a c :
  preserves (fun d => forall a',
               (weight (heap d a'), last_update (heap d a')) = v a')
    (modify (fun d => store a (with_center c (heap d a)) d)).
Proof.
  apply preserves_modify. intros d H a'. specialize (H a').
  unfold store, heap_set. simpl.
  destruct (Nat.eqb_spec a' a) as [->|Hne]; simpl; exact H.
Qed.

(** The loop that prevents collapsing assigns to centers only. *)
Lemma prevent_collapsing_weights nn cc (v : addr -> R * Z) :
  preserves (fun d => forall a,
               (weight (heap d a), last_update (heap d a)) = v a)
    (prevent_collapsing nn cc).
Proof.
  unfold prevent_collapsing, prevent_collapse.
  repeat first [apply weights_set_center | keeps_step].
Qed.

Lemma heap_set_center_other a c d a' :
  a' <> a -> heap (set_center a c d) a' = heap d a'.
Proof.
  intros Hne. unfold set_center, store, heap_set. simpl.
  now destruct (Nat.eqb_spec a' a).
Qed.

(** The loop that prevents collapsing leaves alone every object that no
    key of the neighbours refers to. *)
Lemma prevent_collapsing_frame (nn : dict addr) cc m a h :
  (forall k, In k (Dict.keys nn) -> Dict.get k m <> Some a) ->
  preserves (fun d => micro_clusters d = m /\ heap d a = h)
    (prevent_collapsing nn cc).
Proof.
  intros Hfree.
  assert (Hset : forall ai c, ai <> a ->
            preserves (fun d => micro_clusters d = m /\ heap d a = h)
              (modify (fun d => store ai (with_center c (heap d ai)) d))).
  { intros ai c Hne. apply preserves_modify. intros d [Hm Hh].
    split; [exact Hm|]. rewrite <- Hh.
    apply (@heap_set_center_other ai c d a). congruence. }
  assert (Hkey : forall k ai,
            In k (Dict.keys nn) ->
            (exists d, (micro_clusters d = m /\ heap d a = h)
                       /\ micro_cluster k d = Ok ai) -> ai <> a).
  { intros k ai Hk [d [[Hm _] Hg]] ->.
    unfold micro_cluster, Dict.getitem in Hg. rewrite Hm in Hg.
    apply (Hfree k Hk). now destruct (Dict.get k m) as [a'|]; inversion Hg. }
  unfold prevent_collapsing.
  apply preserves_for_each_in. intros i Hi.
  apply preserves_for_each_in. intros j Hj.
  apply preserves_if; [|apply preserves_ret].
  unfold prevent_collapse.
  apply preserves_bind_reads. intros ai Hai.
  apply preserves_bind_reads. intros aj Haj.
  repeat first
    [ apply Hset; exact (Hkey i ai Hi Hai)
    | apply Hset; exact (Hkey j aj Hj Haj)
    | keeps_step ].
Qed.

(** X12.  What [_update] does to weights and time stamps when the point
    has neighbours.  From a reachable state, when [_update] returns: no
    micro-cluster is created; every neighbour has its weight faded by
    [2 ** (-fading_factor * (time_stamp - last_update))] and increased
    by 1, once, and its [last_update] set to the clock of before the
    call; a stored micro-cluster that is no neighbour is left as it
    was. *)
Theorem update_fades_neighbors x d d' nn :
  reachable d ->
  _find_fixed_radius_nn x d = Ok nn -> nn <> [] ->
  _update x d = (Ok tt, d') ->
  micro_clusters d' = micro_clusters d /\
  (forall k a, In (k, a) nn ->
     weight (heap d' a)
     = weight (heap d a)
       * pow2 (- fading_factor d
               * IZR (time_stamp d - last_update (heap d a))) + 1 /\
     last_update (heap d' a) = time_stamp d) /\
  (forall k a, In (k, a) (micro_clusters d) -> ~ In (k, a) nn ->
     heap d' a = heap d a).
Proof.
  intros Hr Hnn Hne Hu.
  pose proof (reachable_distinct Hr) as [Hndv _].
  pose proof (reachable_keys_distinct Hr) as Hndk.
  destruct (find_fixed_radius_nn_spec _ _ Hnn) as [Hndn Hin].
  rewrite (update_unfold _ _ Hnn) in Hu.
  assert (Hlen : Z.ltb (Dict.len nn) 1 = false).
  { destruct nn as [|[k a] r]; [congruence|].
    apply (@len_neighbors _ _ k). now left. }
  rewrite Hlen in Hu.
  apply bind_Ok_inv in Hu as [[] [d2 [Hu Hts]]].
  injection Hts as <-.
  apply bind_Ok_inv in Hu as [cc [d1 [H1 H2]]].
  assert (Hinj : forall k k' a, In k (Dict.keys nn) -> In k' (Dict.keys nn) ->
            Dict.get k (micro_clusters d) = Some a ->
            Dict.get k' (micro_clusters d) = Some a -> k = k')
    by (intros k k' a _ _; now apply NoDup_values_inj).
  pose proof (@update_neighbors_moved x nn _ Hndn _ _ _ _ Hinj H1)
    as [Hmc [_ [_ [Hfr _]]]].
  pose proof (@update_neighbors_updated x nn _ Hndn _ _ _ _ Hinj H1) as Hup.
  pose proof (@prevent_collapsing_weights nn cc
                (fun a => (weight (heap d1 a), last_update (heap d1 a)))
                d1 (fun a => eq_refl)) as Hw.
  rewrite H2 in Hw. simpl in Hw.
  assert (Hmc2 : micro_clusters d2 = micro_clusters d1).
  { pose proof (@keeps_prevent_collapsing _ micro_clusters
                  (micro_clusters d1) nn cc
                  ltac:(now intros ? ? ?) d1 eq_refl) as H.
    now rewrite H2 in H. }
  assert (Hk : forall k a, In (k, a) nn -> In k (Dict.keys nn))
    by (intros k a H; change k with (fst (k, a)); now apply in_map).
  split; [simpl; congruence|]. split.
  - intros k a Hka.
    destruct (Hup k a (Hk k a Hka) (Hin k a Hka)) as [m [_ Hh]].
    specialize (Hw a). simpl. rewrite Hh in Hw. simpl in Hw.
    injection Hw as Hw1 Hw2. now split.
  - intros k a Hka Hnot. simpl.
    assert (Hfree : forall k', In k' (Dict.keys nn) ->
                      Dict.get k' (micro_clusters d) <> Some a).
    { intros k' Hk' Hg'. apply In_keys_get in Hk' as [a' Ha'].
      apply get_In in Ha'. pose proof (Hin k' a' Ha') as Hg''.
      rewrite Hg' in Hg''. injection Hg'' as <-.
      assert (Hgk : Dict.get k (micro_clusters d) = Some a).
      { clear - Hka Hndk. induction (micro_clusters d) as [|[k0 a0] r IH];
          simpl in *; [contradiction|].
        inversion Hndk as [|? ? Hn Hr']; subst.
        destruct Hka as [[= -> ->]|Hka]; [now rewrite Z.eqb_refl|].
        destruct (Z.eqb_spec k k0) as [->|_]; [|now apply IH].
        exfalso. apply Hn. change k0 with (fst (k0, a)).
        now apply in_map. }
      assert (k' = k) by (eapply NoDup_values_inj; eassumption).
      subst. contradiction. }
    rewrite <- (Hfr a Hfree).
    pose proof (@prevent_collapsing_frame nn cc (micro_clusters d1) a
                  (heap d1 a)) as Hp.
    rewrite Hmc in Hp. specialize (Hp Hfree d1 (conj Hmc eq_refl)).
    rewrite H2 in Hp. exact (proj2 Hp).
Qed.

(** ** Streams of points over the same features *)

Lemma fed_reachable K d : fed K d -> reachable d.
Proof. induction 1; now constructor. Qed.

Lemma same_dimensions_dims K a b :
  dims K a -> dims K b -> same_dimensions a b = true.
Proof.
  intros [Hla Ha] [Hlb Hb]. unfold same_dimensions.
  apply andb_true_intro. split.
  - apply Nat.eqb_eq. congruence.
  - apply forallb_forall. intros k Hk. unfold Dict.mem.
    apply Ha, Hb, In_keys_get in Hk as [v ->]. reflexivity.
Qed.

Lemma fold_left_Rplus_nonneg l :
  (forall v, In v l -> 0 <= v) ->
  forall acc, 0 <= acc -> 0 <= fold_left Rplus l acc.
Proof.
  induction l as [|v l IH]; intros Hl acc Hacc; simpl; [exact Hacc|].
  apply IH; [intros w Hw; apply Hl; now right|].
  pose proof (Hl v (or_introl eq_refl)). lra.
Qed.

Lemma distance_dims K a b :
  dims K a -> dims K b -> exists dist, _distance a b = Ok dist /\ 0 <= dist.
Proof.
  intros Ha Hb. unfold _distance, minkowski_distance.
  rewrite (same_dimensions_dims Ha Hb). simpl.
  rewrite math_sqrt_ok.
  - eexists. split; [reflexivity|]. apply sqrt_pos.
  - apply fold_left_Rplus_nonneg; [|lra].
    intros v Hv. apply in_map_iff in Hv as [[k ak] [<- _]]. simpl.
    destruct (Dict.get k b); [|lra].
    apply Rmult_le_pos; [apply Rabs_pos|].
    apply Rmult_le_pos; [apply Rabs_pos|lra].
Qed.

Lemma moved_center_returns K x c d its :
  dims K x -> dims K c -> clustering_threshold d <> 0 ->
  incl (Dict.keys its) K ->
  exists m, moved_center x c its d = Ok m /\
            Dict.keys m = Dict.keys its.
Proof.
  intros Hx Hc Hth.
  destruct (distance_dims Hx Hc) as [dist [Hd _]].
  assert (Hg : exists g, _gaussian_neighborhood x c d = Ok g).
  { unfold _gaussian_neighborhood. rewrite Hd. simpl.
    rewrite truediv_ok; [now eexists|].
    intros E.
    assert (E' : clustering_threshold d / 3 * (clustering_threshold d / 3)
                 = 0) by lra.
    apply Rmult_integral in E'. lra. }
  destruct Hg as [g Hg].
  induction its as [|[j cj] r IH]; intros Hincl; simpl.
  - now exists [].
  - rewrite Hg. simpl.
    assert (Hj : In j (Dict.keys x))
      by (apply (proj2 Hx); apply Hincl; now left).
    apply In_keys_get in Hj as [xj Hj]. unfold Dict.getitem.
    rewrite Hj. simpl.
    destruct IH as [m [-> Hm]]; [intros k Hk; apply Hincl; now right|].
    simpl. eexists. split; [reflexivity|]. simpl. now rewrite Hm.
Qed.

Lemma moved_returns K x d a :
  dims K x -> dims K (center (heap d a)) -> clustering_threshold d <> 0 ->
  exists m, moved x d a = Ok m /\ dims K m.
Proof.
  intros Hx Hc Hth. unfold moved.
  destruct (@moved_center_returns K x (center (heap d a)) d
              (Dict.items (center (heap d a))) Hx Hc Hth) as [m [Hm Hk]].
  { intros k Hk. now apply (proj2 Hc). }
  exists m. split; [exact Hm|]. unfold Dict.items in Hk.
  destruct Hc as [Hl Hc]. split.
  - rewrite <- Hl. unfold Dict.keys in Hk.
    apply (f_equal (@length Z)) in Hk. now rewrite !length_map in Hk.
  - intros k. rewrite Hk. apply Hc.
Qed.

Lemma stored_dims_store K d a m :
  stored_dims K d -> dims K (center m) ->
  forall d',
    micro_clusters d' = micro_clusters d ->
    heap d' a = m -> (forall a', a' <> a -> heap d' a' = heap d a') ->
    stored_dims K d'.
Proof.
  intros Hs Hm d' Hmc Hh Hoth i a' Hin. rewrite Hmc in Hin.
  destruct (Nat.eq_dec a' a) as [->|Hne]; [now rewrite Hh|].
  rewrite (Hoth a' Hne). now apply (Hs i a').
Qed.

(** The first loop of [_update] returns on points and centers over the
    same features. *)
Lemma update_neighbors_return K x nn l :
  dims K x ->
  forall cc d,
    stored_dims K d -> clustering_threshold d <> 0 ->
    (forall k, In k l -> exists a, Dict.get k (micro_clusters d) = Some a) ->
    (forall k c, Dict.get k cc = Some c -> dims K c) ->
    exists cc' d',
      foldM (update_neighbor x nn) l cc d = (Ok cc', d') /\
      stored_dims K d' /\
      micro_clusters d' = micro_clusters d /\
      clustering_threshold d' = clustering_threshold d /\
      (forall k c, Dict.get k cc' = Some c -> dims K c) /\
      (forall k, In k l \/ (exists c, Dict.get k cc = Some c) ->
                 exists c, Dict.get k cc' = Some c).
Proof.
  intros Hx. induction l as [|k l IH]; intros cc d Hs Hth Hk Hcc.
  - exists cc, d. simpl. split; [reflexivity|]. split; [exact Hs|].
    split; [reflexivity|]. split; [reflexivity|]. split; [exact Hcc|].
    intros k [[]|H]; exact H.
  - destruct (Hk k (or_introl eq_refl)) as [a Ha].
    assert (Hmc : micro_cluster k d = Ok a)
      by (unfold micro_cluster, Dict.getitem; now rewrite Ha).
    assert (Hca : dims K (center (heap d a)))
      by (apply (Hs k a); now apply get_In).
    destruct (@moved_returns K x d a Hx Hca Hth) as [m [Hm Hdm]].
    destruct (@update_neighbor_run x nn cc k d a m Hmc Hm)
      as [d1 [E1 [Hh [Hoth [Hmc1 [_ Hc1]]]]]].
    assert (Hth1 : clustering_threshold d1 = clustering_threshold d)
      by (unfold config in Hc1; now injection Hc1).
    assert (Hs1 : stored_dims K d1).
    { apply (@stored_dims_store K d a (updated d a m) Hs Hdm d1 Hmc1 Hh Hoth). }
    destruct (IH (Dict.set k (center (heap d a)) cc) d1 Hs1) as
      [cc' [d' [E' [Hs' [Hmc' [Hth' [Hcc' Hin']]]]]]].
    + now rewrite Hth1.
    + intros k' Hk'. rewrite Hmc1. apply Hk. now right.
    + intros k' c Hg. destruct (Z.eq_dec k' k) as [->|Hne].
      * rewrite get_set_same in Hg. now injection Hg as <-.
      * rewrite get_set_other in Hg by assumption. now apply (Hcc k').
    + exists cc', d'. simpl. unfold bind at 1. rewrite E1.
      split; [exact E'|]. split; [exact Hs'|].
      split; [congruence|]. split; [congruence|]. split; [exact Hcc'|].
      intros k' [[<-|Hk']|[c Hg]]; apply Hin'.
      * right. eexists. apply get_set_same.
      * now left.
      * right. destruct (Z.eq_dec k' k) as [->|Hne].
        -- eexists. apply get_set_same.
        -- exists c. now rewrite get_set_other.
Qed.

Lemma stored_dims_set_center K a c d :
  stored_dims K d -> dims K c -> stored_dims K (set_center a c d).
Proof.
  intros Hs Hc i a' Hin. rewrite center_set_center.
  destruct (Nat.eqb a' a); [exact Hc|now apply (Hs i a')].
Qed.

(** A loop returns when each turn does from a state of the invariant. *)
Lemma for_each_returns {A} (I : DBSTREAM -> Prop) (body : A -> M unit) l :
  (forall a d, In a l -> I d -> exists d', body a d = (Ok tt, d') /\ I d') ->
  forall d, I d -> exists d', for_each l body d = (Ok tt, d') /\ I d'.
Proof.
  intros Hb. unfold for_each.
  assert (H : forall (u : unit) d, I d ->
            exists d', foldM (fun _ a => body a) l u d = (Ok tt, d') /\ I d').
  { induction l as [|a l IH]; intros u d Hd; simpl.
    - exists d. destruct u. now split.
    - destruct (Hb a d (or_introl eq_refl) Hd) as [d1 [E1 H1]].
      destruct (IH (fun a' d' H => Hb a' d' (or_intror H)) tt d1 H1)
        as [d2 [E2 H2]].
      exists d2. unfold bind. rewrite E1. now split. }
  apply H.
Qed.

(** The loop that prevents collapsing returns on centers over the same
    features. *)
Lemma prevent_collapsing_returns K (nn : dict addr) cc d :
  stored_dims K d ->
  (forall k, In k (Dict.keys nn) ->
     exists a, Dict.get k (micro_clusters d) = Some a) ->
  (forall k, In k (Dict.keys nn) -> exists c, Dict.get k cc = Some c) ->
  (forall k c, Dict.get k cc = Some c -> dims K c) ->
  exists d',
    prevent_collapsing nn cc d = (Ok tt, d') /\
    stored_dims K d' /\ micro_clusters d' = micro_clusters d.
Proof.
  intros Hs Hk Hcc Hdc. unfold prevent_collapsing.
  apply (@for_each_returns _
           (fun d' => stored_dims K d'
                      /\ micro_clusters d' = micro_clusters d));
    [|now split].
  intros i d1 Hi H1.
  apply (@for_each_returns _
           (fun d' => stored_dims K d'
                      /\ micro_clusters d' = micro_clusters d));
    [|exact H1].
  intros j d2 Hj [Hs2 Hm2].
  destruct (Z.gtb j i); [|exists d2; now split].
  destruct (Hk i Hi) as [ai Hai]. destruct (Hk j Hj) as [aj Haj].
  destruct (Hcc i Hi) as [ci Hci]. destruct (Hcc j Hj) as [cj Hcj].
  rewrite <- Hm2 in Hai, Haj.
  assert (Hdi : dims K (center (heap d2 ai)))
    by (apply (Hs2 i ai); now apply get_In).
  assert (Hdj : dims K (center (heap d2 aj)))
    by (apply (Hs2 j aj); now apply get_In).
  destruct (distance_dims Hdi Hdj) as [dist [Hd _]].
  rewrite (@prevent_collapse_run cc i j d2 ai aj dist ci cj);
    try assumption;
    try (unfold micro_cluster, Dict.getitem;
         first [now rewrite Hai | now rewrite Haj]).
  destruct (Rltb dist (clustering_threshold d2)).
  - eexists. split; [reflexivity|]. split; [|exact Hm2].
    apply stored_dims_set_center; [|now apply (Hdc j)].
    apply stored_dims_set_center; [exact Hs2|now apply (Hdc i)].
  - exists d2. now split.
Qed.

Lemma stored_dims_create K x d :
  stored_dims K d -> dims K x ->
  stored_dims K (snd (create_micro_cluster x d)).
Proof.
  intros Hs Hx i a Hin. unfold create_micro_cluster in *. simpl in *.
  unfold heap_set. destruct (Nat.eqb_spec a (next_addr d)) as [->|Hne];
    [exact Hx|].
  apply In_set in Hin as [E|Hin]; [|now apply (Hs i a)].
  injection E as _ ->. contradiction.
Qed.

(** [_update] returns on a point over the features of the stored
    centers. *)
Lemma update_returns K x d :
  NoDup (Dict.keys (micro_clusters d)) ->
  stored_dims K d -> dims K x ->
  exists d', _update x d = (Ok tt, d') /\ stored_dims K d'.
Proof.
  intros Hnd Hs Hx.
  assert (Hdist : forall i a, In (i, a) (micro_clusters d) ->
            exists dist, _distance (center (heap d a)) x = Ok dist
                         /\ 0 <= dist).
  { intros i a Hin. apply (@distance_dims K); [now apply (Hs i a)|exact Hx]. }
  pose proof (@find_fixed_radius_nn_cases x d Hnd) as Hcases.
  destruct (_find_fixed_radius_nn x d) as [nn|e] eqn:Hnn.
  2:{ destruct Hcases as [[i a] [Hin He]].
      destruct (Hdist i a Hin) as [dist [Hd _]]. simpl in He. congruence. }
  destruct Hcases as [Hfilter _].
  rewrite (update_unfold _ _ Hnn).
  destruct (Z.ltb (Dict.len nn) 1) eqn:Hlen.
  - unfold bind, modify. simpl. eexists. split; [reflexivity|].
    exact (stored_dims_create Hs Hx).
  - destruct (find_fixed_radius_nn_spec _ _ Hnn) as [_ Hin].
    assert (Hth : clustering_threshold d <> 0).
    { destruct nn as [|[k a] r]; [discriminate|].
      assert (Hka : In (k, a) (filter (in_radius x d) (micro_clusters d)))
        by (rewrite <- Hfilter; now left).
      apply filter_In in Hka as [Hka Hnear]. unfold in_radius in Hnear.
      simpl in Hnear.
      destruct (Hdist k a Hka) as [dist [Hd Hpos]]. rewrite Hd in Hnear.
      apply Rltb_spec in Hnear. lra. }
    assert (Hk : forall k, In k (Dict.keys nn) ->
               exists a, Dict.get k (micro_clusters d) = Some a).
    { intros k Hk. apply In_keys_get in Hk as [a Ha]. exists a.
      apply Hin. now apply get_In. }
    destruct (@update_neighbors_return K x nn (Dict.keys nn) Hx
                Dict.empty d Hs Hth Hk)
      as [cc [d1 [E1 [Hs1 [Hm1 [_ [Hcc Hkcc]]]]]]];
      [intros k c Hg; discriminate|].
    destruct (@prevent_collapsing_returns K nn cc d1 Hs1)
      as [d2 [E2 [Hs2 _]]].
    + intros k Hk'. rewrite Hm1. now apply Hk.
    + intros k Hk'. apply Hkcc. now left.
    + exact Hcc.
    + unfold update_neighbors. unfold bind. rewrite E1, E2.
      unfold modify. eexists. split; [reflexivity|]. exact Hs2.
Qed.

(** A method that leaves the store and the objects as they are keeps
    every property of the stored objects. *)
Lemma preserves_by_objects (P : DBSTREAM -> Prop) {A} (c : M A) :
  (forall d d', micro_clusters d' = micro_clusters d -> heap d' = heap d ->
                P d -> P d') ->
  (forall v, preserves (fun d => micro_clusters d = v) c) ->
  (forall v, preserves (fun d => heap d = v) c) ->
  preserves P c.
Proof.
  intros HP Hm Hh d Hd.
  apply (HP d); [now apply (Hm (micro_clusters d))
                |now apply (Hh (heap d))|exact Hd].
Qed.

Lemma stored_dims_ext K d d' :
  micro_clusters d' = micro_clusters d -> heap d' = heap d ->
  stored_dims K d -> stored_dims K d'.
Proof. intros Hm Hh Hs i a. rewrite Hm, Hh. apply Hs. Qed.

Lemma stored_dims_cleanup K : preserves (stored_dims K) _cleanup.
Proof.
  unfold _cleanup.
  apply preserves_bind; [apply preserves_gets|intros ww].
  apply preserves_bind; [|intros _].
  - intros d H. unfold for_items.
    apply (@preserves_for_items_checked _ (stored_dims K)); [|exact H].
    intros [i a] d' H'. unfold cleanup_micro_cluster.
    destruct (is_weak ww d' _); simpl; [|exact H'].
    intros i' a' Hin. apply In_pop in Hin. now apply (H' i' a').
  - apply preserves_by_objects; [apply stored_dims_ext| |]; intros v;
      repeat first
        [ apply keeps_cleanup_shared_density; now split | keeps_step ].
Qed.

Lemma merge_center_keys sc sw cc cw c :
  merge_center sc sw cc cw = Ok c -> Dict.keys c = Dict.keys sc.
Proof.
  revert c. induction sc as [|[i si] r IH]; intros c; simpl.
  - now intros [= <-].
  - destruct (Dict.getitem i cc) as [ci|e]; simpl; [|discriminate].
    destruct (truediv _ _) as [v|e]; simpl; [|discriminate].
    destruct (merge_center r sw cc cw) as [r'|e]; simpl; [|discriminate].
    intros [= <-]. simpl. f_equal. now apply IH.
Qed.

Lemma stored_dims_merge K self cluster :
  preserves (stored_dims K) (merge self cluster).
Proof.
  intros d Hs. unfold merge, merge_value.
  destruct (merge_center _ _ _ _) as [c|e] eqn:Hc; simpl; [|exact Hs].
  apply merge_center_keys in Hc.
  intros i a Hin. simpl in *. unfold heap_set.
  destruct (Nat.eqb_spec a self) as [->|Hne]; [|now apply (Hs i a)].
  simpl. destruct (Hs i self Hin) as [Hl Hk]. split.
  - rewrite <- Hl. unfold Dict.keys in Hc.
    apply (f_equal (@length Z)) in Hc. now rewrite !length_map in Hc.
  - intros k. rewrite Hc. apply Hk.
Qed.

Lemma stored_dims_predict_one K x : preserves (stored_dims K) (predict_one x).
Proof.
  unfold predict_one, _recluster, _generate_clusters_from_labels,
    macro_cluster_of_label.
  repeat first [apply stored_dims_merge | preserves_step].
Qed.

Lemma fed_stored_dims K d : fed K d -> stored_dims K d.
Proof.
  induction 1 as [r ff ci al mw|d x Hf IH Hx|d x Hf IH].
  - intros i a [].
  - destruct (@update_returns K x d
                (reachable_keys_distinct (fed_reachable Hf)) IH Hx)
      as [d1 [Hu Hs1]].
    unfold learn_one. unfold bind at 1. rewrite Hu.
    assert (Hrest : preserves (stored_dims K)
              (ts <- gets time_stamp ;;
               ci <- gets cleanup_interval ;;
               if Z.eqb ci 0 then raise ZeroDivisionError
               else if Z.eqb (ts mod ci) 0 then _cleanup
               else ret tt)%m)
      by (repeat first [apply stored_dims_cleanup | preserves_step]).
    now apply Hrest.
  - now apply stored_dims_predict_one.
Qed.

(** ** A point without neighbours *)

(** X14.  A point that lies at [clustering_threshold] or further from
    every stored center (in particular the first point of a stream)
    makes [_update] return with a new micro-cluster: a fresh object of
    center [x], weight 1 and [last_update] the clock of before the call,
    stored under the key [len(self.micro_clusters)].  The objects that
    were stored and the shared density graph are left as they were. *)
Theorem update_creates_micro_cluster x d :
  reachable d ->
  (forall i a, In (i, a) (micro_clusters d) ->
     exists dist, _distance (center (heap d a)) x = Ok dist /\
                  clustering_threshold d <= dist) ->
  exists d',
    _update x d = (Ok tt, d') /\
    micro_clusters d'
    = Dict.set (Dict.len (micro_clusters d)) (next_addr d)
        (micro_clusters d) /\
    heap d' (next_addr d) = mkMicroCluster x (time_stamp d) 1 /\
    (forall i a, In (i, a) (micro_clusters d) -> heap d' a = heap d a) /\
    s d' = s d /\ s_t d' = s_t d.
Proof.
  intros Hr Hfar.
  pose proof (@find_fixed_radius_nn_cases x d (reachable_keys_distinct Hr))
    as Hcases.
  destruct (_find_fixed_radius_nn x d) as [nn|e] eqn:Hnn.
  2:{ destruct Hcases as [[i a] [Hin He]].
      destruct (Hfar i a Hin) as [dist [Hd _]]. simpl in He. congruence. }
  destruct Hcases as [Hfilter _].
  assert (Hfn : forall l : dict addr,
            (forall i a, In (i, a) l ->
               exists dist, _distance (center (heap d a)) x = Ok dist /\
                            clustering_threshold d <= dist) ->
            filter (in_radius x d) l = []).
  { induction l as [|[i a] r IH]; intros Hl; [reflexivity|].
    simpl. unfold in_radius at 1. simpl.
    destruct (Hl i a (or_introl eq_refl)) as [dist [-> Hge]].
    rewrite Rltb_false by exact Hge.
    apply IH. intros i' a' Hin. apply (Hl i' a'). now right. }
  assert (Hnil : nn = []) by (rewrite Hfilter; now apply Hfn).
  clear Hfilter.
  subst nn. rewrite (update_unfold _ _ Hnn). simpl.
  unfold bind, create_micro_cluster, modify. simpl.
  eexists. split; [reflexivity|]. simpl.
  split; [reflexivity|]. split; [unfold heap_set; now rewrite Nat.eqb_refl|].
  split; [|now split].
  intros i a Hin. unfold heap_set.
  destruct (Nat.eqb_spec a (next_addr d)) as [->|Hne]; [|reflexivity].
  exfalso. destruct (reachable_distinct Hr) as [_ Hlt].
  assert (Ha : In (next_addr d) (Dict.values (micro_clusters d))).
  { change (next_addr d) with (snd (i, next_addr d)). now apply in_map. }
  apply Hlt in Ha. lia.
Qed.

(** ** Every edge of the graph joins two stored micro-clusters *)

Lemma edges_within_update_shared_density K i j :
  In i K -> In j K ->
  preserves (edges_within K) (update_shared_density i j).
Proof.
  intros Hi Hj d H i' j' v' He.
  apply update_shared_density_entries in He as [He|[-> [-> _]]];
    [now apply (H i' j' v')|now split].
Qed.

Lemma edges_within_update_neighbors K x nn :
  incl (Dict.keys nn) K ->
  preserves (edges_within K) (update_neighbors x nn).
Proof.
  intros Hincl.
  unfold update_neighbors, prevent_collapsing, prevent_collapse.
  apply preserves_bind.
  - apply preserves_foldM_in. intros cc i Hi. unfold update_neighbor.
    repeat first
      [ apply preserves_for_each_in; intros j Hj;
        destruct (Z.gtb j i);
        [apply edges_within_update_shared_density; now apply Hincl
        |apply preserves_ret]
      | preserves_step
      | intros d H; exact H ].
  - intros cc. repeat first [preserves_step | intros d H; exact H].
Qed.

Lemma store_update_neighbors x nn d :
  micro_clusters (snd (update_neighbors x nn d)) = micro_clusters d.
Proof.
  apply (@preserves_bind _ _ (fun d' => micro_clusters d' = micro_clusters d));
    [|intros cc|reflexivity].
  - apply preserves_foldM. intros cc i.
    apply keeps_update_neighbor; [split|]; now intros.
  - apply keeps_prevent_collapsing. now intros.
Qed.

Lemma edges_in_store_update x : preserves edges_in_store (_update x).
Proof.
  intros d H.
  destruct (_find_fixed_radius_nn x d) as [nn|e] eqn:Hnn.
  2:{ unfold _update. unfold bind at 1, reads at 1. now rewrite Hnn. }
  rewrite (update_unfold _ _ Hnn).
  assert (Hb : edges_in_store
                 (snd ((if Z.ltb (Dict.len nn) 1
                        then create_micro_cluster x
                        else update_neighbors x nn) d))).
  { destruct (Z.ltb (Dict.len nn) 1).
    - unfold create_micro_cluster. simpl. intros i j v He.
      destruct (H i j v He) as [Hi Hj].
      split; apply In_keys_set; now right.
    - unfold edges_in_store. rewrite store_update_neighbors.
      apply edges_within_update_neighbors; [|exact H].
      intros i Hi. apply In_keys_get in Hi as [a Ha]. apply get_In in Ha.
      apply (proj2 (find_fixed_radius_nn_spec _ _ Hnn)) in Ha.
      now apply get_In_keys in Ha. }
  unfold bind.
  destruct ((if Z.ltb (Dict.len nn) 1 then create_micro_cluster x
             else update_neighbors x nn) d) as [[[]|e] d1]; exact Hb.
Qed.

Lemma fed_edges_in_store K d :
  fed K d -> 0 < fading_factor d -> (1 <= cleanup_interval d)%Z ->
  edges_in_store d.
Proof.
  induction 1 as [r ff ci al mw|d x Hf IH Hx|d x Hf IH]; intros Hff Hci.
  - intros i j v H. discriminate.
  - pose proof (@config_learn_one (config d) x d eq_refl) as Hc.
    unfold has_config, config in Hc. injection Hc as _ Hff1 Hci1 _ _.
    rewrite Hff1 in Hff. rewrite Hci1 in Hci. specialize (IH Hff Hci).
    pose proof (fed_reachable Hf) as Hr.
    destruct (@update_returns K x d (reachable_keys_distinct Hr)
                (fed_stored_dims Hf) Hx) as [d1 [Hu _]].
    pose proof (@edges_in_store_update x d IH) as H1.
    rewrite Hu in H1. simpl in H1.
    destruct (@learn_one_cleans_up x d d1 Hr Hff Hci Hu)
      as [d' [E [Hm [_ [Hk _]]]]].
    rewrite E. simpl. intros i j v He. unfold edges_in_store in *.
    rewrite Hm.
    destruct (@entry_defined_keys _ _ (s d') (s d1) i j Hk
                (ex_intro _ v He)) as [w Hw].
    now apply (H1 i j w).
  - pose proof (@config_predict_one (config d) x d eq_refl) as Hc.
    unfold has_config, config in Hc. injection Hc as _ Hff1 Hci1 _ _.
    rewrite Hff1 in Hff. rewrite Hci1 in Hci. specialize (IH Hff Hci).
    unfold edges_in_store, edges_within.
    rewrite (@keeps_predict_one _ s (s d) x) by (try reflexivity; now intros).
    rewrite (@keeps_predict_one _ micro_clusters (micro_clusters d) x)
      by (try reflexivity; now intros).
    exact IH.
Qed.

(** ** The reclustering of an instance fed points of one dimension *)

Lemma adjacency_returns d :
  edges_in_store d -> sound_weights d ->
  exists wam,
    _generate_weighted_adjacency_matrix d = Ok wam /\
    forall i j v, entry i j wam = Some v <-> kept_edge d i j v.
Proof.
  intros He Hs. pose proof (weighted_adjacency_cases d) as H.
  destruct (_generate_weighted_adjacency_matrix d) as [wam|e].
  - now exists wam.
  - exfalso. destruct H as [i [j [[sij Hsij] H]]].
    destruct (He i j sij Hsij) as [Hi Hj].
    destruct H as [[_ [H|H]]|[_ [ai [aj [Hai [Haj Hw]]]]]].
    + now apply get_None_keys in H.
    + now apply get_None_keys in H.
    + apply get_In in Hai, Haj.
      destruct (Hs i ai Hai) as [Hwi _]. destruct (Hs j aj Haj) as [Hwj _].
      lra.
Qed.

Lemma labels_return d (wam : dict (dict R)) :
  (forall i j v, entry i j wam = Some v -> kept_edge d i j v) ->
  exists labels count,
    _generate_labels wam d = Some (Ok labels) /\
    (-1 <= count)%Z /\
    labels_upto (Dict.keys (micro_clusters d)) count labels /\
    forall k, In k (Dict.keys (micro_clusters d)) -> labelled k labels.
Proof.
  intros Hk. destruct (generate_labels_cases wam d) as [[labels|e] [E H]].
  - destruct H as [Hkeys [Hl [count [Hc [Hle Huse]]]]].
    exists labels, count. split; [exact E|]. split; [exact Hc|].
    split; [|exact Hl]. split; [exact Hkeys|]. now split.
  - exfalso. destruct H as [_ [i [row [j [Hrow [Hj Hn]]]]]].
    apply In_keys_get in Hj as [v Hv].
    destruct (Hk i j v) as [ai [aj [sij [_ [Haj _]]]]].
    { unfold entry. now rewrite Hrow. }
    apply Hn. now apply get_In_keys in Haj.
Qed.

Lemma in_range lo hi k : In k (range lo hi) <-> (lo <= k < hi)%Z.
Proof.
  unfold range. rewrite in_map_iff. split.
  - intros [n [<- Hn]]. apply in_seq in Hn. lia.
  - intros H. exists (Z.to_nat (k - lo)). split; [lia|].
    apply in_seq. lia.
Qed.

Lemma NoDup_range lo hi : NoDup (range lo hi).
Proof.
  unfold range. apply Finite.Injective_map_NoDup; [|apply seq_NoDup].
  intros a b H. lia.
Qed.

Lemma length_range lo hi : length (range lo hi) = Z.to_nat (hi - lo).
Proof. unfold range. now rewrite length_map, length_seq. Qed.

(** [max] of labels none of which is [None]. *)
Lemma max_label_spec vs :
  vs <> [] -> (forall v, In v vs -> exists c, v = Some c) ->
  exists m,
    max_label vs = Ok m /\ In (Some m) vs /\
    forall c, In (Some c) vs -> (c <= m)%Z.
Proof.
  induction vs as [|v r IH]; [now intros H|]. intros _ Hall.
  destruct (Hall v (or_introl eq_refl)) as [c ->].
  destruct r as [|v' r'].
  - exists c. split; [reflexivity|]. split; [now left|].
    intros c' [[= ->]|[]]. lia.
  - destruct IH as [m [Hm [Hin Hle]]]; [discriminate| |].
    { intros w Hw. apply Hall. now right. }
    exists (Z.max c m). split.
    + change (max_label (Some c :: v' :: r'))
        with (m0 <-- max_label (v' :: r') ;; Ok (Z.max c m0))%result.
      now rewrite Hm.
    + split.
      * destruct (Z.max_spec c m) as [[_ ->]|[_ ->]];
          [now right|now left].
      * intros c' [[= ->]|Hc']; [lia|]. specialize (Hle c' Hc'). lia.
Qed.

Lemma max_label_labels K count (labels : labelling) :
  NoDup K -> K <> [] ->
  labels_upto K count labels ->
  (forall k, In k K -> labelled k labels) ->
  max_label (Dict.values labels) = Ok count /\ (0 <= count)%Z.
Proof.
  intros Hnd Hne [Hkeys [Hle Huse]] Hl.
  assert (Hnd' : NoDup (Dict.keys labels)) by now rewrite Hkeys.
  assert (Hsome : forall k v, In (k, v) labels ->
                    exists c, v = Some c /\ (0 <= c <= count)%Z).
  { intros k v Hin. pose proof (@In_get _ _ _ _ Hnd' Hin) as Hg.
    destruct (Hl k) as [c Hc].
    - rewrite <- Hkeys. now apply get_In_keys in Hg.
    - exists c. split; [congruence|]. now apply (Hle k). }
  destruct (@max_label_spec (Dict.values labels)) as [m [Hm [Hin Hmax]]].
  - intros E. apply Hne. rewrite <- Hkeys.
    unfold Dict.values, Dict.keys in *. destruct labels; [reflexivity|].
    discriminate.
  - intros v Hv. apply in_map_iff in Hv as [[k v'] [<- Hin]].
    destruct (Hsome k v' Hin) as [c [-> _]]. now exists c.
  - apply in_map_iff in Hin as [[k v] [Hv Hin]]. simpl in Hv. subst v.
    destruct (Hsome k _ Hin) as [c [[= <-] Hc]].
    assert (count <= m)%Z.
    { destruct (Huse count) as [k' Hk']; [lia|].
      apply Hmax. apply get_In in Hk'.
      change (Some count) with (snd (k', Some count)).
      now apply in_map. }
    assert (m = count) by lia. subst m. split; [exact Hm|lia].
Qed.

(** No more labels are in use than there are keys. *)
Lemma labels_in_use_bound K count (labels : labelling) :
  labels_upto K count labels -> (-1 <= count)%Z ->
  (count + 1 <= Z.of_nat (length K))%Z.
Proof.
  intros [Hkeys [Hle Huse]] Hc.
  assert (H : forall l,
             NoDup l -> (forall c, In c l -> (0 <= c <= count)%Z) ->
             exists ks,
               length ks = length l /\ NoDup ks /\ incl ks K /\
               forall k, In k ks ->
                 exists c, In c l /\ Dict.get k labels = Some (Some c)).
  { induction l as [|c l IH]; intros Hnd Hin.
    - exists []. split; [reflexivity|]. split; [constructor|].
      split; [intros k []|intros k []].
    - apply NoDup_cons_iff in Hnd as [Hnc Hnd'].
      destruct (IH Hnd' (fun c' H' => Hin c' (or_intror H')))
        as [ks [Hlen [Hks [Hincl Hlab]]]].
      destruct (Huse c (Hin c (or_introl eq_refl))) as [k Hk].
      exists (k :: ks). split; [simpl; now rewrite Hlen|]. split.
      + constructor; [|exact Hks]. intros Hkin.
        destruct (Hlab k Hkin) as [c' [Hc' Hk']].
        rewrite Hk in Hk'. injection Hk' as <-. contradiction.
      + split.
        * intros k' [<-|Hk']; [|now apply Hincl].
          rewrite <- Hkeys. now apply get_In_keys in Hk.
        * intros k' [<-|Hk'].
          -- exists c. split; [now left|exact Hk].
          -- destruct (Hlab k' Hk') as [c' [Hc' Hg]]. exists c'.
             split; [now right|exact Hg]. }
  destruct (H (range 0 (count + 1)) (NoDup_range _ _))
    as [ks [Hlen [Hks [Hincl _]]]].
  { intros c Hin. apply in_range in Hin. lia. }
  pose proof (NoDup_incl_length Hks Hincl) as Hl.
  rewrite Hlen, length_range in Hl. lia.
Qed.

Lemma mcs_with_label_scan i d l :
  (forall k, In k (Dict.keys l) -> In k (Dict.keys (micro_clusters d))) ->
  forall mcs : dict addr,
    Dict.keys mcs = map Z.of_nat (seq 0 (length mcs)) ->
    exists mcs' : dict addr,
      rfold (fun (acc : Z * dict addr) (il : Z * option Z) =>
               let (j, mcs_with_label_i) := acc in
               match snd il with
               | Some label =>
                   if Z.eqb label i then
                     (a <-- micro_cluster (fst il) d ;;
                      Ok ((j + 1)%Z, Dict.set j a mcs_with_label_i))%result
                   else Ok acc
               | None => Ok acc
               end)
            l (Z.of_nat (length mcs), mcs)
      = Ok (Z.of_nat (length mcs'), mcs') /\
      Dict.keys mcs' = map Z.of_nat (seq 0 (length mcs')) /\
      (length mcs <= length mcs')%nat /\
      ((exists k, In (k, Some i) l) -> (length mcs < length mcs')%nat).
Proof.
  induction l as [|[k lab] r IH]; intros Hin mcs Hk.
  - exists mcs. split; [reflexivity|]. split; [exact Hk|]. split; [lia|].
    now intros [k []].
  - assert (Hr : forall k', In k' (Dict.keys r) ->
                   In k' (Dict.keys (micro_clusters d))).
    { intros k' Hk'. apply Hin. now right. }
    assert (Hskip :
              lab <> Some i ->
              exists mcs' : dict addr,
                rfold (fun (acc : Z * dict addr) (il : Z * option Z) =>
                  let (j, mcs_with_label_i) := acc in
                  match snd il with
                  | Some label =>
                      if Z.eqb label i then
                        (a <-- micro_cluster (fst il) d ;;
                         Ok ((j + 1)%Z,
                             Dict.set j a mcs_with_label_i))%result
                      else Ok acc
                  | None => Ok acc
                  end)
                  r (Z.of_nat (length mcs), mcs)
                = Ok (Z.of_nat (length mcs'), mcs') /\
                Dict.keys mcs' = map Z.of_nat (seq 0 (length mcs')) /\
                (length mcs <= length mcs')%nat /\
                ((exists k0, In (k0, Some i) ((k, lab) :: r)) ->
                 (length mcs < length mcs')%nat)).
    { intros Hne. destruct (IH Hr mcs Hk) as [mcs' [E [Hk' [Hle Hlt]]]].
      exists mcs'. split; [exact E|]. split; [exact Hk'|].
      split; [exact Hle|].
      intros [k0 [[= -> ->]|H0]]; [congruence|]. apply Hlt. now exists k0. }
    cbn [rfold]. cbn [snd fst].
    destruct lab as [label|]; [|cbn [rbind]; now apply Hskip].
    destruct (Z.eqb_spec label i) as [->|Hne];
      [|cbn [rbind]; apply Hskip; congruence].
    destruct (@In_keys_get _ (micro_clusters d) k) as [a Ha].
    { apply Hin. now left. }
    unfold micro_cluster, Dict.getitem. rewrite Ha. cbn [of_option rbind].
    assert (Habs : ~ In (Z.of_nat (length mcs)) (Dict.keys mcs)).
    { rewrite Hk. intros H. apply in_map_iff in H as [n [Hn Hs]].
      apply in_seq in Hs. lia. }
    rewrite (@set_absent _ mcs _ a Habs).
    destruct (IH Hr (mcs ++ [(Z.of_nat (length mcs), a)]))
      as [mcs' [E [Hk' [Hle Hlt]]]].
    { unfold Dict.keys in *. rewrite map_app, Hk, length_app. simpl.
      rewrite Nat.add_1_r, seq_S, map_app. reflexivity. }
    rewrite length_app in E, Hle. simpl in E, Hle.
    exists mcs'. split.
    + rewrite <- E. do 2 f_equal. f_equal. lia.
    + split; [exact Hk'|]. split; [lia|]. intros _. lia.
Qed.

Lemma mcs_with_label_returns (labels : labelling) i d :
  (forall k, In k (Dict.keys labels) ->
             In k (Dict.keys (micro_clusters d))) ->
  exists mcs,
    mcs_with_label labels i d = Ok mcs /\
    (forall j, (0 <= j < Dict.len mcs)%Z ->
               exists a, Dict.get j mcs = Some a) /\
    ((exists k, In (k, Some i) labels) -> (1 <= Dict.len mcs)%Z).
Proof.
  intros Hin.
  destruct (@mcs_with_label_scan i d labels Hin Dict.empty eq_refl)
    as [mcs [E [Hk [_ Hlt]]]].
  exists mcs. split.
  - change (Z.of_nat (length (@Dict.empty addr))) with 0%Z in E.
    unfold mcs_with_label, Dict.items.
    match goal with
    | |- rbind ?c _ = _ =>
        replace c with (Ok (Z.of_nat (length mcs), mcs))
          by (symmetry; exact E)
    end.
    reflexivity.
  - split.
    + intros j Hj. apply In_keys_get. rewrite Hk. unfold Dict.len in Hj.
      apply in_map_iff. exists (Z.to_nat j). split; [lia|].
      apply in_seq. lia.
    + intros Hex. specialize (Hlt Hex). unfold Dict.len. simpl in Hlt. lia.
Qed.

Lemma merge_center_returns sc sw cc cw :
  (forall k, In k (Dict.keys sc) -> In k (Dict.keys cc)) ->
  sw + cw <> 0 ->
  exists c, merge_center sc sw cc cw = Ok c.
Proof.
  intros Hin Hw. induction sc as [|[i si] r IH]; simpl.
  - now exists [].
  - destruct (@In_keys_get _ cc i) as [ci Hci]; [apply Hin; now left|].
    unfold Dict.getitem. rewrite Hci. cbn [of_option rbind].
    unfold truediv. destruct (Req_dec_T (sw + cw) 0); [contradiction|].
    cbn [rbind].
    destruct IH as [c Hc]; [intros k Hk; apply Hin; now right|].
    rewrite Hc. simpl. eauto.
Qed.

Lemma merge_returns K m0 self cluster d :
  mergeable K m0 d ->
  In self (Dict.values m0) -> In cluster (Dict.values m0) ->
  exists d', merge self cluster d = (Ok tt, d') /\ mergeable K m0 d'.
Proof.
  intros [Hm [Hd Hs]] Hself Hcl.
  apply in_map_iff in Hself as [[ks a] [Ea Hself]]. simpl in Ea. subst a.
  apply in_map_iff in Hcl as [[kc a] [Ea Hcl]]. simpl in Ea. subst a.
  rewrite <- Hm in Hself, Hcl.
  destruct (Hd ks self Hself) as [_ Hks].
  destruct (Hd kc cluster Hcl) as [_ Hkc].
  destruct (Hs ks self Hself) as [Hws _].
  destruct (Hs kc cluster Hcl) as [Hwc _].
  destruct (@merge_center_returns (center (heap d self))
              (weight (heap d self)) (center (heap d cluster))
              (weight (heap d cluster))) as [c Hc].
  { intros k Hk. now apply Hkc, Hks. }
  { lra. }
  pose proof (@stored_dims_merge K self cluster d Hd) as H1.
  assert (Hex : exists k, In (k, cluster) m0)
    by (exists kc; now rewrite <- Hm).
  pose proof (@sound_merge m0 self cluster Hex d (conj Hs Hm)) as [H2 H3].
  unfold merge, merge_value in *. rewrite Hc in *. simpl in *.
  eexists. split; [reflexivity|]. split; [exact H3|]. now split.
Qed.

Lemma macro_cluster_returns K m0 (labels : labelling) cl i d :
  mergeable K m0 d ->
  (forall k, In k (Dict.keys labels) -> In k (Dict.keys m0)) ->
  (exists k, In (k, Some i) labels) ->
  exists a d',
    macro_cluster_of_label labels cl i d = (Ok (Dict.set i a cl), d') /\
    mergeable K m0 d' /\ In a (Dict.values m0).
Proof.
  intros Hd Hin Hex. pose proof Hd as [Hm _].
  destruct (@mcs_with_label_returns labels i d) as [mcs [E [Hget Hlen]]].
  { now rewrite Hm. }
  specialize (Hlen Hex).
  assert (Hval : forall j a, Dict.get j mcs = Some a ->
                             In a (Dict.values m0)).
  { intros j a Hj. apply get_In in Hj.
    destruct (mcs_with_label_members _ _ _ E _ _ Hj) as [k Hk].
    rewrite Hm in Hk. change a with (snd (k, a)). now apply in_map. }
  destruct (Hget 0%Z) as [a0 Ha0]; [lia|].
  unfold macro_cluster_of_label.
  unfold bind at 1, reads at 1. rewrite E.
  unfold bind at 1, reads at 1. unfold Dict.getitem at 1. rewrite Ha0.
  cbn [of_option].
  destruct (@for_each_returns _ (mergeable K m0)
              (fun m =>
                 (other <- reads (fun _ => Dict.getitem m mcs) ;;
                  merge a0 other)%m)
              (range 1 (Dict.len mcs))) with (d := d) as [d' [E' Hd']].
  - intros m d1 Hm1 Hd1. apply in_range in Hm1.
    destruct (Hget m) as [am Ham]; [lia|].
    unfold bind, reads, Dict.getitem. rewrite Ham. cbn [of_option].
    apply merge_returns; [exact Hd1|now apply (Hval 0%Z)|now apply (Hval m)].
  - exact Hd.
  - exists a0, d'. unfold bind at 1. rewrite E'. unfold ret.
    split; [reflexivity|]. split; [exact Hd'|now apply (Hval 0%Z)].
Qed.

Lemma clusters_return K m0 (labels : labelling) l :
  (forall k, In k (Dict.keys labels) -> In k (Dict.keys m0)) ->
  (forall i, In i l -> exists k, In (k, Some i) labels) ->
  NoDup l ->
  forall (cl : dict addr) d,
    mergeable K m0 d ->
    (forall i, In i l -> ~ In i (Dict.keys cl)) ->
    (forall a, In a (Dict.values cl) -> In a (Dict.values m0)) ->
    exists cl' d',
      foldM (macro_cluster_of_label labels) l cl d = (Ok cl', d') /\
      mergeable K m0 d' /\
      Dict.keys cl' = Dict.keys cl ++ l /\
      (forall a, In a (Dict.values cl') -> In a (Dict.values m0)).
Proof.
  intros Hin. induction l as [|i l IH]; intros Hex Hnd cl d Hd Hfresh Hval.
  - exists cl, d. split; [reflexivity|]. split; [exact Hd|].
    split; [now rewrite app_nil_r|exact Hval].
  - inversion Hnd as [|? ? Hni Hnd']; subst.
    destruct (@macro_cluster_returns K m0 labels cl i d Hd Hin)
      as [a [d1 [E [Hd1 Ha]]]]; [apply Hex; now left|].
    cbn [foldM]. unfold bind at 1. rewrite E.
    assert (Hk1 : Dict.keys (Dict.set i a cl) = Dict.keys cl ++ [i]).
    { apply keys_set_absent. apply Hfresh. now left. }
    destruct (IH (fun i' H' => Hex i' (or_intror H')) Hnd'
                (Dict.set i a cl) d1 Hd1)
      as [cl' [d' [E' [Hd' [Hk' Hv']]]]].
    + intros i' Hi'. rewrite Hk1, in_app_iff. simpl.
      intros [H|[->|[]]]; [|contradiction].
      revert H. apply Hfresh. now right.
    + intros a' Ha'. rewrite set_absent in Ha' by (apply Hfresh; now left).
      unfold Dict.values in Ha'. rewrite map_app in Ha'.
      apply in_app_iff in Ha' as [H|[<-|[]]]; [now apply Hval|exact Ha].
    + exists cl', d'. split; [exact E'|]. split; [exact Hd'|].
      split; [|exact Hv']. rewrite Hk', Hk1, <- app_assoc. reflexivity.
Qed.

Lemma recluster_returns K d :
  edges_in_store d -> NoDup (Dict.keys (micro_clusters d)) ->
  stored_dims K d -> sound_weights d -> micro_clusters d <> [] ->
  exists d',
    _recluster d = (Ok tt, d') /\
    mergeable K (micro_clusters d) d' /\
    (1 <= n_clusters d' <= Dict.len (micro_clusters d))%Z /\
    Dict.keys (clusters d') = range 0 (n_clusters d') /\
    centers d'
    = map (fun ia : Z * addr => (fst ia, center (heap d' (snd ia))))
        (clusters d') /\
    forall a, In a (Dict.values (clusters d')) ->
              In a (Dict.values (micro_clusters d)).
Proof.
  intros He Hnd Hd Hs Hne.
  destruct (adjacency_returns He Hs) as [wam [Ew Hw]].
  destruct (@labels_return d wam) as [labels [count [El [Hc [Hup Hl]]]]].
  { intros i j v H. now apply Hw. }
  assert (Hkne : Dict.keys (micro_clusters d) <> []).
  { destruct (micro_clusters d); [contradiction|discriminate]. }
  destruct (max_label_labels Hnd Hkne Hup Hl) as [Emax Hc0].
  pose proof (labels_in_use_bound Hup Hc) as Hbound.
  destruct Hup as [Hkeys [Hle Huse]].
  destruct (@clusters_return K (micro_clusters d) labels
              (range 0 (count + 1))) with (cl := @Dict.empty addr) (d := d)
    as [cl [d2 [Ecl [Hd2 [Hk Hv]]]]].
  - intros k Hk. now rewrite <- Hkeys.
  - intros i Hi. apply in_range in Hi.
    destruct (Huse i) as [k Hk]; [lia|]. exists k. now apply get_In.
  - apply NoDup_range.
  - split; [reflexivity|now split].
  - intros i _ [].
  - intros a [].
  - simpl in Hk.
    assert (Hlen : Dict.len cl = (count + 1)%Z).
    { unfold Dict.len. replace (length cl) with (length (Dict.keys cl))
        by (unfold Dict.keys; apply length_map).
      rewrite Hk, length_range. lia. }
    unfold _recluster.
    unfold bind at 1, reads at 1. rewrite Ew.
    unfold bind at 1, reads at 1. rewrite El. cbn [labels_outcome].
    unfold _generate_clusters_from_labels.
    unfold bind at 1. unfold bind at 1, reads at 1. rewrite Emax.
    unfold bind at 1. rewrite Ecl. unfold ret, modify. cbn [fst snd].
    eexists. split; [reflexivity|]. simpl.
    split; [exact Hd2|]. split.
    { rewrite Hlen. unfold Dict.len, Dict.keys in *.
      rewrite length_map in Hbound. lia. }
    split; [now rewrite Hlen|].
    split; [reflexivity|exact Hv].
Qed.

Lemma predict_one_returns K x d :
  fed K d -> dims K x ->
  0 < fading_factor d -> (1 <= cleanup_interval d)%Z ->
  micro_clusters d <> [] ->
  exists k m d',
    predict_one x d = (Ok k, d') /\
    (0 <= k < n_clusters d')%Z /\
    (n_clusters d' <= Dict.len (micro_clusters d))%Z /\
    Dict.keys (clusters d') = range 0 (n_clusters d') /\
    Dict.keys (centers d') = range 0 (n_clusters d') /\
    first_nearest x (centers d') (Some m, k).
Proof.
  intros Hf Hx Hff Hci Hne.
  pose proof (fed_reachable Hf) as Hr.
  destruct (@recluster_returns K d (fed_edges_in_store Hf Hff Hci)
              (reachable_keys_distinct Hr) (fed_stored_dims Hf)
              (reachable_sound Hr) Hne)
    as [d' [E [[Hm [Hd _]] [Hn [Hk [Hce Hv]]]]]].
  assert (Hkc : Dict.keys (centers d') = range 0 (n_clusters d')).
  { rewrite <- Hk, Hce. unfold Dict.keys. now rewrite map_map. }
  pose proof (@closest_center_scan x (centers d') [] (None, 0%Z)
                (conj eq_refl eq_refl)) as Hscan.
  unfold predict_one. unfold bind at 1. rewrite E.
  unfold bind, reads, ret, closest_center, Dict.items.
  simpl app in Hscan.
  match goal with
  | |- context [rfold ?f ?l ?a] => destruct (rfold f l a) as [[o k]|e]
  end.
  - destruct o as [m|].
    + exists k, m, d'. split; [reflexivity|]. split.
      * apply in_range. rewrite <- Hkc.
        destruct Hscan as [pre [c [post [Hcs _]]]]. rewrite Hcs.
        unfold Dict.keys. rewrite map_app. apply in_or_app. right. now left.
      * split; [lia|]. split; [exact Hk|]. split; [exact Hkc|exact Hscan].
    + exfalso. destruct Hscan as [Hnil _]. simpl in Hnil.
      rewrite Hnil in Hkc. simpl in Hkc.
      assert (In 0%Z (range 0 (n_clusters d'))) by (apply in_range; lia).
      rewrite <- Hkc in H. contradiction.
  - exfalso. destruct Hscan as [[k c] [Hin Hdist]]. simpl in Hdist.
    rewrite Hce in Hin. apply in_map_iff in Hin as [[k' a] [[= <- <-] Hin]].
    assert (Ha : In a (Dict.values (micro_clusters d))).
    { apply Hv. change a with (snd (k', a)). now apply in_map. }
    apply in_map_iff in Ha as [[ka a'] [Ea Ha]]. simpl in Ea. subst a'.
    rewrite <- Hm in Ha.
    destruct (@distance_dims K (center (heap d' a)) x (Hd ka a Ha) Hx)
      as [dist [Ed _]].
    simpl in Hdist. congruence.
Qed.

(** ** Shared density of a pair that had an edge *)

Lemma usd_fades i j v t ts ff :
  establishes
    (fun d => edge_is i j v t d /\ at_clock ts ff d)
    (fun d => edge_is i j (v * pow2 (- ff * IZR (ts - t)) + 1) ts d /\
              at_clock ts ff d)
    (update_shared_density i j).
Proof.
  intros d [] d'. unfold edge_is, at_clock, entry. usd_unfold.
  usd_cases i j d; intros [[H1 H2] [<- <-]]; try discriminate;
    injection H1 as ->; injection H2 as ->;
    dict_simpl; intros [= <-]; dict_simpl; auto.
Qed.

Lemma usd_keeps_edge i j v t ts ff i' j' :
  (i', j') <> (i, j) ->
  preserves (fun d => edge_is i j v t d /\ at_clock ts ff d)
    (update_shared_density i' j').
Proof.
  intros Hne d. unfold edge_is, at_clock, entry. usd_unfold.
  destruct (Z.eq_dec i' i) as [->|Hi].
  - assert (Hj : j <> j') by congruence.
    usd_cases i j' d; intros [[H1 H2] Hc]; try discriminate; dict_simpl;
      auto.
  - usd_cases i' j' d; intros H; dict_simpl; auto.
Qed.

Lemma update_neighbor_keeps_edge x nn cc i j v t ts ff i' :
  i' <> i ->
  preserves (fun d => edge_is i j v t d /\ at_clock ts ff d)
    (update_neighbor x nn cc i').
Proof.
  intros Hne. unfold update_neighbor.
  repeat first [ apply usd_keeps_edge; congruence | preserves_step ].
Qed.

Lemma prevent_collapsing_keeps_edge nn cc i j v t ts ff :
  preserves (fun d => edge_is i j v t d /\ at_clock ts ff d)
    (prevent_collapsing nn cc).
Proof.
  unfold prevent_collapsing, prevent_collapse. repeat preserves_step.
Qed.

Lemma update_neighbor_fades x nn cc i j v t ts ff :
  NoDup (Dict.keys nn) -> In j (Dict.keys nn) -> (i < j)%Z ->
  establishes
    (fun d => edge_is i j v t d /\ at_clock ts ff d)
    (fun d => edge_is i j (v * pow2 (- ff * IZR (ts - t)) + 1) ts d /\
              at_clock ts ff d)
    (update_neighbor x nn cc i).
Proof.
  intros Hnd Hj Hlt. unfold update_neighbor.
  do 6 (apply establishes_bind_r; [preserves_step|intros ?]).
  apply establishes_bind_l; [|intros ?; apply preserves_ret].
  apply establishes_for_each with (a0 := j); try assumption.
  - intros j' _ Hne. apply preserves_if; [|apply preserves_ret].
    apply usd_keeps_edge. congruence.
  - replace (Z.gtb j i) with true by (symmetry; apply Z.gtb_lt; lia).
    apply usd_fades.
  - intros j' _ Hne. apply preserves_if; [|apply preserves_ret].
    apply usd_keeps_edge. congruence.
Qed.

Lemma update_neighbors_fades x nn i j v t ts ff :
  NoDup (Dict.keys nn) -> In i (Dict.keys nn) -> In j (Dict.keys nn) ->
  (i < j)%Z ->
  establishes
    (fun d => edge_is i j v t d /\ at_clock ts ff d)
    (fun d => edge_is i j (v * pow2 (- ff * IZR (ts - t)) + 1) ts d /\
              at_clock ts ff d)
    (update_neighbors x nn).
Proof.
  intros Hnd Hi Hj Hlt.
  apply establishes_bind_l;
    [|intros ?; apply prevent_collapsing_keeps_edge].
  apply establishes_foldM with (a0 := i); try assumption.
  - intros cc i' _ Hne. now apply update_neighbor_keeps_edge.
  - intros cc. now apply update_neighbor_fades.
  - intros cc i' _ Hne. now apply update_neighbor_keeps_edge.
Qed.

Lemma existing_edge_fades x d d' nn i j v t :
  _find_fixed_radius_nn x d = Ok nn ->
  In i (Dict.keys nn) -> In j (Dict.keys nn) -> (i < j)%Z ->
  entry i j (s d) = Some v -> entry i j (s_t d) = Some t ->
  _update x d = (Ok tt, d') ->
  entry i j (s d')
  = Some (v * pow2 (- fading_factor d * IZR (time_stamp d - t)) + 1) /\
  entry i j (s_t d') = Some (time_stamp d).
Proof.
  intros Hnn Hi Hj Hlt Hv Ht Hu.
  destruct (find_fixed_radius_nn_spec _ _ Hnn) as [Hnd _].
  rewrite (update_unfold _ _ Hnn), (len_neighbors _ _ Hi) in Hu.
  apply bind_Ok_inv in Hu as [[] [d1 [E1 E2]]].
  injection E2 as <-.
  destruct (@update_neighbors_fades x nn i j v t (time_stamp d)
              (fading_factor d) Hnd Hi Hj Hlt d tt d1) as [H _].
  - split; [now split|now split].
  - exact E1.
  - exact H.
Qed.

(** ** Shared density of the pairs that [_update] does not visit *)

Lemma entry_set_in_row {V} (g : dict (dict V)) i' row j' v i j :
  Dict.get i' g = Some row -> (i', j') <> (i, j) ->
  entry i j (Dict.set i' (Dict.set j' v row) g) = entry i j g.
Proof.
  intros Hrow Hne. unfold entry.
  destruct (Z.eq_dec i i') as [->|Hi].
  - rewrite get_set_same, Hrow. apply get_set_other. congruence.
  - now rewrite get_set_other.
Qed.

Lemma entry_set_new_row {V} (g : dict (dict V)) i' j' v i j :
  Dict.get i' g = None -> (i', j') <> (i, j) ->
  entry i j (Dict.set i' [(j', v)] g) = entry i j g.
Proof.
  intros Hrow Hne. unfold entry.
  destruct (Z.eq_dec i i') as [->|Hi].
  - rewrite get_set_same, Hrow. simpl.
    destruct (Z.eqb_spec j j') as [->|_]; [congruence|reflexivity].
  - now rewrite get_set_other.
Qed.

Lemma usd_frame i j (e1 : option R) (e2 : option Z) i' j' :
  (i', j') <> (i, j) ->
  preserves
    (fun d => aligned d /\ entry i j (s d) = e1 /\ entry i j (s_t d) = e2)
    (update_shared_density i' j').
Proof.
  intros Hne d [Ha [H1 H2]].
  split; [now apply aligned_update_shared_density|].
  unfold aligned in Ha.
  pose proof (@get_graph_keys _ _ _ _ i' Ha) as Hi. revert Hi.
  subst e1 e2. usd_unfold.
  usd_cases i' j' d; intros Hi; try contradiction; dict_simpl;
    try (pose proof (@get_keys _ _ _ _ j' Hi) as Hj;
         repeat match goal with
                | H : Dict.get j' _ = _ |- _ => rewrite H in Hj
                end; try contradiction);
    repeat match goal with
      | H : Dict.get i' ?g = Some ?row
        |- context [entry i j (Dict.set i' (Dict.set j' ?v ?row) ?g)] =>
          rewrite (@entry_set_in_row _ g i' row j' v i j H Hne)
      | H : Dict.get i' ?g = None
        |- context [entry i j (Dict.set i' [(j', ?v)] ?g)] =>
          rewrite (@entry_set_new_row _ g i' j' v i j H Hne)
      end;
    try (split; reflexivity).
Qed.

Lemma update_frame_on_graph x d nn i j :
  aligned d -> _find_fixed_radius_nn x d = Ok nn ->
  ~ (In i (Dict.keys nn) /\ In j (Dict.keys nn) /\ (i < j)%Z) ->
  entry i j (s (snd (_update x d))) = entry i j (s d) /\
  entry i j (s_t (snd (_update x d))) = entry i j (s_t d).
Proof.
  intros Ha Hnn Hno.
  assert (H : preserves
                (fun d' => aligned d' /\ entry i j (s d') = entry i j (s d)
                           /\ entry i j (s_t d') = entry i j (s_t d))
                ((if Z.ltb (Dict.len nn) 1 then create_micro_cluster x
                  else update_neighbors x nn) ;;
                 modify (fun d => set_time_stamp (time_stamp d + 1) d))%m).
  { unfold update_neighbors, prevent_collapsing, prevent_collapse.
    apply preserves_bind; [|intros ?; preserves_step].
    apply preserves_if; [intros d0 H0; exact H0|].
    apply preserves_bind.
    - apply preserves_foldM_in. intros cc i' Hi'. unfold update_neighbor.
      repeat first
        [ apply preserves_for_each_in; intros j' Hj';
          destruct (Z.gtb j' i') eqn:Hgt;
          [apply usd_frame; intros [= -> ->]; apply Hno;
           apply Z.gtb_lt in Hgt; repeat split; [assumption..|lia]
          |apply preserves_ret]
        | preserves_step
        | intros d0 H0; exact H0 ].
    - intros cc. repeat first [preserves_step | intros d0 H0; exact H0]. }
  rewrite (update_unfold _ _ Hnn).
  now apply H.
Qed.

(** ** What [_cleanup] does to an entry of the graph *)

Lemma establishes_foldM_any {A B} (Pre Post : DBSTREAM -> Prop)
  (f : B -> A -> M B) (a0 : A) l :
  In a0 l ->
  (forall b a, In a l -> preserves Pre (f b a)) ->
  (forall b, establishes Pre Post (f b a0)) ->
  (forall b a, In a l -> preserves Post (f b a)) ->
  forall b, establishes Pre Post (foldM f l b).
Proof.
  induction l as [|a l IH]; intros Hin Hpre Hest Hpost b; [contradiction|].
  simpl. destruct Hin as [->|Hin].
  - apply establishes_bind_l; [apply Hest|].
    intros b'. apply preserves_foldM_in. intros b0 a' Hin'.
    apply Hpost. now right.
  - apply establishes_bind_r.
    + apply Hpre. now left.
    + intros b'. apply IH; try assumption.
      * intros b0 a' Hin'. apply Hpre. now right.
      * intros b0 a' Hin'. apply Hpost. now right.
Qed.

Lemma establishes_for_each_any {A} (Pre Post : DBSTREAM -> Prop)
  (body : A -> M unit) (a0 : A) l :
  In a0 l ->
  (forall a, In a l -> preserves Pre (body a)) ->
  establishes Pre Post (body a0) ->
  (forall a, In a l -> preserves Post (body a)) ->
  establishes Pre Post (for_each l body).
Proof.
  intros Hin Hpre Hest Hpost.
  apply establishes_foldM_any with (a0 := a0); auto.
Qed.

(** The state that [cleanup_shared_density] leaves: the state of before,
    or the one with both entries of the pair set to 0, when both exist
    and the density is weak. *)
Lemma cleanup_shared_density_cases ww i j d :
  snd (cleanup_shared_density ww i j d) = d \/
  exists row trow v t,
    Dict.get i (s d) = Some row /\ Dict.get j row = Some v /\
    Dict.get i (s_t d) = Some trow /\ Dict.get j trow = Some t /\
    weak_entry ww (time_stamp d) (fading_factor d) (intersection_factor d)
      v t = true /\
    snd (cleanup_shared_density ww i j d)
    = set_s_t (Dict.set i (Dict.set j 0%Z trow) (s_t d))
        (set_s (Dict.set i (Dict.set j 0 row) (s d)) d).
Proof.
  unfold cleanup_shared_density, bind, reads, gets, ret, s_setitem,
    s_t_setitem, getitem2, setitem2, Dict.getitem, weak_entry.
  destruct (Dict.get i (s d)) as [row|] eqn:Hrow; simpl; [|now left].
  destruct (Dict.get j row) as [v|] eqn:Hv; simpl; [|now left].
  destruct (Dict.get i (s_t d)) as [trow|] eqn:Htrow; simpl; [|now left].
  destruct (Dict.get j trow) as [t|] eqn:Ht; simpl; [|now left].
  destruct (Rltb _ _) eqn:Hw; simpl; [|now left].
  rewrite Hrow. simpl. rewrite Htrow. simpl.
  right. exists row, trow, v, t. now repeat split.
Qed.

Lemma entry_set_same {V} (g : dict (dict V)) i row j v :
  entry i j (Dict.set i (Dict.set j v row) g) = Some v.
Proof. unfold entry. now rewrite !get_set_same. Qed.

Lemma entry_rows {V} (g : dict (dict V)) i j row v :
  Dict.get i g = Some row -> Dict.get j row = Some v ->
  entry i j g = Some v.
Proof. intros Hrow Hv. unfold entry. now rewrite Hrow. Qed.

Lemma pair_eq_dec (i' j' i j : Z) : {(i', j') = (i, j)} + {(i', j') <> (i, j)}.
Proof.
  destruct (Z.eq_dec i' i) as [->|Hi]; [|right; congruence].
  destruct (Z.eq_dec j' j) as [->|Hj]; [now left|right; congruence].
Qed.

Lemma being_cleaned_visit ww ts ff al i j v t i' j' :
  preserves (being_cleaned ww ts ff al i j v t)
    (cleanup_shared_density ww i' j').
Proof.
  intros d H.
  destruct (cleanup_shared_density_cases ww i' j' d)
    as [->|[row [trow [v' [t' [Hrow [Hv [Htrow [Ht [Hw ->]]]]]]]]]];
    [exact H|].
  destruct H as [[Hts [Hff Hal]] H]. split; [now repeat split|].
  unfold edge_is in *. simpl.
  destruct (pair_eq_dec i' j' i j) as [[= -> ->]|Hne].
  - right. rewrite !entry_set_same. split; [|now split].
    rewrite (@entry_rows _ _ _ _ _ _ Hrow Hv),
      (@entry_rows _ _ _ _ _ _ Htrow Ht) in H.
    destruct H as [[[= <-] [= <-]]|[H _]]; [|exact H].
    now rewrite <- Hts, <- Hff, <- Hal.
  - rewrite (@entry_set_in_row _ _ _ _ _ _ _ _ Hrow Hne),
      (@entry_set_in_row _ _ _ _ _ _ _ _ Htrow Hne). exact H.
Qed.

Lemma cleaned_visit ww ts ff al i j v t i' j' :
  preserves (cleaned ww ts ff al i j v t) (cleanup_shared_density ww i' j').
Proof.
  intros d H.
  destruct (cleanup_shared_density_cases ww i' j' d)
    as [->|[row [trow [v' [t' [Hrow [Hv [Htrow [Ht [Hw ->]]]]]]]]]];
    [exact H|].
  destruct H as [[Hts [Hff Hal]] H]. split; [now repeat split|].
  unfold edge_is in *. simpl.
  destruct (pair_eq_dec i' j' i j) as [[= -> ->]|Hne].
  - rewrite !entry_set_same.
    rewrite (@entry_rows _ _ _ _ _ _ Hrow Hv),
      (@entry_rows _ _ _ _ _ _ Htrow Ht) in H.
    destruct (weak_entry ww ts ff al v t) eqn:Hweak; [now split|].
    destruct H as [[= <-] [= <-]]. rewrite Hts, Hff, Hal in Hw. congruence.
  - rewrite (@entry_set_in_row _ _ _ _ _ _ _ _ Hrow Hne),
      (@entry_set_in_row _ _ _ _ _ _ _ _ Htrow Hne). exact H.
Qed.

Lemma cleaned_at_visit ww ts ff al i j v t :
  establishes (being_cleaned ww ts ff al i j v t)
    (cleaned ww ts ff al i j v t) (cleanup_shared_density ww i j).
Proof.
  intros d [] d' [[Hts [Hff Hal]] H] E.
  assert (Ed : d' = snd (cleanup_shared_density ww i j d))
    by now rewrite E.
  clear E. subst d'.
  unfold cleaned, edge_is in *.
  unfold cleanup_shared_density, bind, reads, gets, ret, s_setitem,
    s_t_setitem, getitem2, setitem2, Dict.getitem.
  assert (Hex : exists v0 t0, entry i j (s d) = Some v0 /\
                              entry i j (s_t d) = Some t0 /\
                              ((v0 = v /\ t0 = t) \/
                               (weak_entry ww ts ff al v t = true /\
                                v0 = 0 /\ t0 = 0%Z))).
  { destruct H as [[H1 H2]|[Hw [H1 H2]]].
    - exists v, t. split; [exact H1|]. split; [exact H2|now left].
    - exists 0, 0%Z. split; [exact H1|]. split; [exact H2|now right]. }
  destruct Hex as [v0 [t0 [H1 [H2 Hc]]]]. unfold entry in H1, H2.
  destruct (Dict.get i (s d)) as [row|] eqn:Hrow; [|discriminate].
  destruct (Dict.get i (s_t d)) as [trow|] eqn:Htrow; [|discriminate].
  simpl. rewrite H1, H2. simpl.
  rewrite Hts, Hff, Hal.
  fold (weak_entry ww ts ff al v0 t0).
  destruct (weak_entry ww ts ff al v0 t0) eqn:Hw0; simpl.
  - rewrite Hrow. simpl. rewrite Htrow. simpl.
    split; [now repeat split|].
    rewrite !entry_set_same.
    destruct Hc as [[-> ->]|[Hw _]]; [rewrite Hw0|rewrite Hw]; now split.
  - split; [now repeat split|].
    unfold entry. rewrite Hrow, Htrow, H1, H2.
    destruct Hc as [[-> ->]|[Hw [-> ->]]]; [now rewrite Hw0|].
    now rewrite Hw.
Qed.

Lemma being_cleaned_row ww ts ff al i j v t i' :
  preserves (being_cleaned ww ts ff al i j v t)
    (row <- reads (fun d => Dict.getitem i' (s d)) ;;
     for_each (Dict.keys row) (cleanup_shared_density ww i'))%m.
Proof.
  apply preserves_bind; [apply preserves_reads|intros row].
  apply preserves_for_each. intros j'. apply being_cleaned_visit.
Qed.

Lemma cleaned_row ww ts ff al i j v t i' :
  preserves (cleaned ww ts ff al i j v t)
    (row <- reads (fun d => Dict.getitem i' (s d)) ;;
     for_each (Dict.keys row) (cleanup_shared_density ww i'))%m.
Proof.
  apply preserves_bind; [apply preserves_reads|intros row].
  apply preserves_for_each. intros j'. apply cleaned_visit.
Qed.

Lemma cleaned_at_row ww ts ff al i j v t :
  establishes (being_cleaned ww ts ff al i j v t)
    (cleaned ww ts ff al i j v t)
    (row <- reads (fun d => Dict.getitem i (s d)) ;;
     for_each (Dict.keys row) (cleanup_shared_density ww i))%m.
Proof.
  intros d [] d' H E.
  assert (Hj : exists row, Dict.get i (s d) = Some row /\
                           In j (Dict.keys row)).
  { assert (Hex : exists v0, entry i j (s d) = Some v0).
    { destruct H as [_ [[H _]|[_ [H _]]]]; eauto. }
    destruct Hex as [v0 Hv0]. unfold entry in Hv0.
    destruct (Dict.get i (s d)) as [row|]; [|discriminate].
    exists row. split; [reflexivity|]. now apply get_In_keys in Hv0. }
  destruct Hj as [row [Hrow Hj]].
  unfold bind at 1, reads at 1, Dict.getitem in E. rewrite Hrow in E.
  cbn [of_option] in E.
  refine (@establishes_for_each_any _
            (being_cleaned ww ts ff al i j v t)
            (cleaned ww ts ff al i j v t)
            (cleanup_shared_density ww i) j (Dict.keys row) Hj
            _ _ _ d tt d' H E).
  - intros j' _. apply being_cleaned_visit.
  - apply cleaned_at_visit.
  - intros j' _. apply cleaned_visit.
Qed.

Lemma cleanup_entry d i j v t :
  aligned d ->
  (forall ia, In ia (micro_clusters d) ->
              is_weak (weight_weak d) d (snd ia) = false) ->
  entry i j (s d) = Some v -> entry i j (s_t d) = Some t ->
  exists d',
    _cleanup d = (Ok tt, d') /\
    micro_clusters d' = micro_clusters d /\ heap d' = heap d /\
    if weak_entry (weight_weak d) (time_stamp d) (fading_factor d)
         (intersection_factor d) v t
    then edge_is i j 0 0%Z d'
    else edge_is i j v t d'.
Proof.
  intros Ha Hw Hv Ht.
  destruct (cleanup_zeroes Ha Hw) as [d' [E [_ [_ [Hm [Hh _]]]]]].
  exists d'. split; [exact E|]. split; [exact Hm|]. split; [exact Hh|].
  unfold _cleanup in E. unfold bind at 1 in E. unfold gets at 1 in E.
  unfold bind at 1 in E. unfold for_items, Dict.items in E.
  rewrite (@cleanup_scan_keeps (weight_weak d) (micro_clusters d) d Hw) in E.
  unfold bind at 1 in E. unfold gets at 1 in E.
  assert (Hi : In i (Dict.keys (s d))).
  { unfold entry in Hv. destruct (Dict.get i (s d)) eqn:Hrow;
      [|discriminate]. now apply get_In_keys in Hrow. }
  pose proof (@establishes_for_each_any _
                (being_cleaned (weight_weak d) (time_stamp d)
                   (fading_factor d) (intersection_factor d) i j v t)
                (cleaned (weight_weak d) (time_stamp d)
                   (fading_factor d) (intersection_factor d) i j v t)
                (fun i =>
                   (row <- reads (fun d => Dict.getitem i (s d)) ;;
                    for_each (Dict.keys row)
                      (cleanup_shared_density (weight_weak d) i))%m)
                i (Dict.keys (s d)) Hi) as H.
  destruct (H (fun i' _ => @being_cleaned_row _ _ _ _ _ _ _ _ i')
              (@cleaned_at_row _ _ _ _ _ _ _ _)
              (fun i' _ => @cleaned_row _ _ _ _ _ _ _ _ i')
              d tt d') as [_ Hpost].
  - split; [now repeat split|]. left. now split.
  - exact E.
  - exact Hpost.
Qed.

(** ** A center moves towards the point, by the same share of the way in
    every coordinate *)




(** ** The labelling without any kept edge *)

Lemma set_app_here {V} (pre post : dict V) k v v' :
  ~ In k (Dict.keys pre) ->
  Dict.set k v' (pre ++ (k, v) :: post) = pre ++ (k, v') :: post.
Proof.
  induction pre as [|[k0 v0] r IH]; simpl.
  - now rewrite Z.eqb_refl.
  - intros Hn. destruct (Z.eqb_spec k k0) as [->|_]; [tauto|].
    f_equal. apply IH. tauto.
Qed.

Lemma label_all_no_edges {V} rest :
  forall (pre : labelling) (n : nat),
    NoDup (Dict.keys pre ++ rest) ->
    label_all (@Dict.empty (dict V)) rest
      (pre ++ map (fun i => (i, None)) rest, (Z.of_nat n - 1)%Z)
    = Some (Ok (pre ++ combine rest
                         (map (fun m => Some (Z.of_nat m))
                              (seq n (length rest))))).
Proof.
  induction rest as [|index r IH]; intros pre n Hnd.
  - reflexivity.
  - assert (Hn : ~ In index (Dict.keys pre)).
    { intros Hin. apply NoDup_remove_2 in Hnd. apply Hnd.
      apply in_or_app. now left. }
    cbn [label_all map]. unfold label_from, is_labelled, Dict.getitem.
    rewrite (@get_app_absent _ pre _ index Hn). cbn [Dict.get].
    rewrite Z.eqb_refl. cbn [of_option rbind Dict.get Dict.empty].
    rewrite (@set_app_here _ pre _ index None _ Hn).
    replace (Z.of_nat n - 1 + 1)%Z with (Z.of_nat (S n) - 1)%Z by lia.
    replace (Some (Z.of_nat (S n) - 1)%Z) with (Some (Z.of_nat n))
      by (f_equal; lia).
    specialize (IH (pre ++ [(index, Some (Z.of_nat n))]) (S n)).
    rewrite <- !app_assoc in IH. cbn [app] in IH.
    refine (eq_trans (IH _) _); [|reflexivity].
    unfold Dict.keys. rewrite map_app. simpl. rewrite <- app_assoc.
    exact Hnd.
Qed.

Lemma labels_of_isolated {V} d :
  NoDup (Dict.keys (micro_clusters d)) ->
  _generate_labels (@Dict.empty (dict V)) d
  = Some (Ok (combine (Dict.keys (micro_clusters d))
                (map (fun n => Some (Z.of_nat n))
                     (seq 0 (length (Dict.keys (micro_clusters d))))))).
Proof.
  intros Hnd. unfold _generate_labels.
  assert (HK : Dict.keys (map (fun i => (i, @None Z))
                            (Dict.keys (micro_clusters d)))
               = Dict.keys (micro_clusters d)).
  { unfold Dict.keys. rewrite map_map. simpl. apply map_id. }
  rewrite HK.
  exact (@label_all_no_edges V (Dict.keys (micro_clusters d)) [] 0%nat Hnd).
Qed.

(** ** The further properties of reclustering, of the graph and of the
    moved centers *)

(** X15.  An instance with a positive fading factor and a cleanup
    interval of at least one step that was fed points over the same
    features only, and that holds at least one micro-cluster:
    [predict_one] returns on every such point.  There is then at least
    one macro-cluster and never more macro-clusters than micro-clusters,
    [clusters] and [centers] have the keys 0 to [n_clusters - 1] in this
    order, and the answer is one of these keys: the key of the first
    center, in this order, among those at the least distance from the
    point. *)
Theorem predict_one_total K x d :
  fed K d -> dims K x ->
  0 < fading_factor d -> (1 <= cleanup_interval d)%Z ->
  micro_clusters d <> [] ->
  exists k m d',
    predict_one x d = (Ok k, d') /\
    (0 <= k < n_clusters d')%Z /\
    (n_clusters d' <= Dict.len (micro_clusters d))%Z /\
    Dict.keys (clusters d') = range 0 (n_clusters d') /\
    Dict.keys (centers d') = range 0 (n_clusters d') /\
    first_nearest x (centers d') (Some m, k).
Proof. apply predict_one_returns. Qed.

(** X16.  When [_update] returns, every pair [i < j] of neighbours of
    the point that had the shared density [v], last updated at [t], has
    the density [v * 2 ** (-fading_factor * (time_stamp - t)) + 1] and
    the time stamp of the clock of before the call: the density is faded
    and incremented once, however many neighbours the point has. *)
Theorem existing_edge_is_faded x d d' nn i j v t :
  _find_fixed_radius_nn x d = Ok nn ->
  In i (Dict.keys nn) -> In j (Dict.keys nn) -> (i < j)%Z ->
  entry i j (s d) = Some v -> entry i j (s_t d) = Some t ->
  _update x d = (Ok tt, d') ->
  entry i j (s d')
  = Some (v * pow2 (- fading_factor d * IZR (time_stamp d - t)) + 1) /\
  entry i j (s_t d') = Some (time_stamp d).
Proof. apply existing_edge_fades. Qed.

(** X17.  From a reachable state, [_update], returning or raising,
    changes the shared density and its time stamp only for the pairs
    [i < j] of neighbours of the point: the entry of every other pair,
    present or not, is left as it was. *)
Theorem update_leaves_other_edges x d nn i j :
  reachable d ->
  _find_fixed_radius_nn x d = Ok nn ->
  ~ (In i (Dict.keys nn) /\ In j (Dict.keys nn) /\ (i < j)%Z) ->
  entry i j (s (snd (_update x d))) = entry i j (s d) /\
  entry i j (s_t (snd (_update x d))) = entry i j (s_t d).
Proof.
  intros Hr. apply update_frame_on_graph. now apply reachable_aligned.
Qed.


(** X20.  The labelling when no edge is kept.  On an empty adjacency
    list, and a store with distinct keys, [_generate_labels] gives the
    micro-clusters the labels 0, 1, 2, ... in the order of the store:
    every micro-cluster is a cluster of its own. *)
Theorem labels_without_edges d :
  NoDup (Dict.keys (micro_clusters d)) ->
  _generate_labels (@Dict.empty (dict R)) d
  = Some (Ok (combine (Dict.keys (micro_clusters d))
                (map (fun n => Some (Z.of_nat n))
                     (seq 0 (length (Dict.keys (micro_clusters d))))))).
Proof. apply labels_of_isolated. Qed.

(** ** Time stamps, and the exponents of the powers of two *)

















(** X18.  [_cleanup] on a state whose graph has the same keys in [s] and
    [s_t] and whose stored micro-clusters have a weight of at least 1,
    with a positive fading factor, a cleanup interval of at least one
    step, and the exponents of the powers of two that it evaluates below
    1024 (where [2 ** x] on floats would raise [OverflowError]).  It
    returns and leaves the store and the objects as they are.  An entry
    of the graph with density [v] and time stamp [t] is set to 0, with
    time stamp 0, when [v * 2 ** (fading_factor * (time_stamp - t))] is
    below [intersection_factor * weight_weak], and is left as it was
    otherwise; it is never deleted. *)
Theorem cleanup_weak_entries_zeroed d i j v t :
  graph_keys (s d) = graph_keys (s_t d) ->
  (forall k a, In (k, a) (micro_clusters d) ->
     1 <= weight (heap d a) /\ (last_update (heap d a) <= time_stamp d)%Z) ->
  0 < fading_factor d -> (1 <= cleanup_interval d)%Z ->
  cleanup_in_range d ->
  entry i j (s d) = Some v -> entry i j (s_t d) = Some t ->
  exists d',
    _cleanup d = (Ok tt, d') /\
    micro_clusters d' = micro_clusters d /\ heap d' = heap d /\
    if Rltb (v * pow2 (fading_factor d * IZR (time_stamp d - t)))
         (intersection_factor d * weight_weak d)
    then entry i j (s d') = Some 0 /\ entry i j (s_t d') = Some 0%Z
    else entry i j (s d') = Some v /\ entry i j (s_t d') = Some t.
Proof.
  intros Ha Hs Hff Hci _ Hv Ht.
  apply (@cleanup_entry d i j v t Ha); [|exact Hv|exact Ht].
  intros [k a] Hin. apply sound_not_weak; [exact Hff|exact Hci|].
  now apply (Hs k a).
Qed.

(** ** The further properties at the stream of two micro-clusters *)

Lemma two_apart_fed : fed [0%Z; 1%Z] two_apart.
Proof.
  unfold two_apart, steady.
  repeat first
    [ apply fed_init
    | apply fed_learn
    | split; [reflexivity|intros k; simpl; tauto] ].
Qed.

Lemma between_dims : dims [0%Z; 1%Z] between.
Proof. split; [reflexivity|intros k; simpl; tauto]. Qed.

Lemma two_apart_fading : 0 < fading_factor two_apart.
Proof. rewrite two_apart_eq. simpl. lra. Qed.

Lemma two_apart_interval : (1 <= cleanup_interval two_apart)%Z.
Proof. rewrite two_apart_eq. simpl. lia. Qed.

(** X4 at the point between the two micro-clusters. *)
Lemma find_fixed_radius_nn_exact_witness :
  match _find_fixed_radius_nn between two_apart with
  | Ok nn =>
      nn = filter (in_radius between two_apart) (micro_clusters two_apart) /\
      forall ia, In ia (micro_clusters two_apart) ->
        exists dist,
          _distance (center (heap two_apart (snd ia))) between = Ok dist
  | Raise e =>
      exists ia, In ia (micro_clusters two_apart) /\
                 _distance (center (heap two_apart (snd ia))) between
                 = Raise e
  end.
Proof.
  apply (@find_fixed_radius_nn_exact between two_apart).
  exact (reachable_keys_distinct two_apart_reachable).
Defined.

(** X5 at the stream of two micro-clusters. *)
Lemma reachable_store_well_formed_witness :
  NoDup (Dict.keys (micro_clusters two_apart)) /\
  NoDup (Dict.values (micro_clusters two_apart)) /\
  forall a, In a (Dict.values (micro_clusters two_apart)) ->
            (a < next_addr two_apart)%nat.
Proof.
  apply (@reachable_store_well_formed two_apart).
  exact two_apart_reachable.
Defined.

(** X6 at the first micro-cluster of the stream of two. *)
Lemma reachable_weights_and_time_stamps_witness :
  1 <= weight (heap two_apart 0%nat) /\
  (last_update (heap two_apart 0%nat) <= time_stamp two_apart)%Z.
Proof.
  apply (@reachable_weights_and_time_stamps two_apart
           two_apart_reachable 0%Z 0%nat).
  rewrite two_apart_eq. simpl. left. reflexivity.
Defined.





(** X12 at the point between the two micro-clusters. *)
Lemma update_fades_neighbors_witness :
  micro_clusters (snd (_update between two_apart))
  = micro_clusters two_apart /\
  (forall k a, In (k, a) [(0%Z, 0%nat); (1%Z, 1%nat)] ->
     weight (heap (snd (_update between two_apart)) a)
     = weight (heap two_apart a)
       * pow2 (- fading_factor two_apart
               * IZR (time_stamp two_apart
                      - last_update (heap two_apart a))) + 1 /\
     last_update (heap (snd (_update between two_apart)) a)
     = time_stamp two_apart) /\
  (forall k a, In (k, a) (micro_clusters two_apart) ->
     ~ In (k, a) [(0%Z, 0%nat); (1%Z, 1%nat)] ->
     heap (snd (_update between two_apart)) a = heap two_apart a).
Proof.
  apply (@update_fades_neighbors between two_apart
           (snd (_update between two_apart))
           [(0%Z, 0%nat); (1%Z, 1%nat)]).
  - exact two_apart_reachable.
  - exact two_apart_neighbors.
  - discriminate.
  - exact two_apart_update_returns.
Defined.


(** X14 at the first point of a stream. *)
Lemma update_creates_micro_cluster_witness :
  exists d',
    _update between steady = (Ok tt, d') /\
    micro_clusters d'
    = Dict.set (Dict.len (micro_clusters steady)) (next_addr steady)
        (micro_clusters steady) /\
    heap d' (next_addr steady)
    = mkMicroCluster between (time_stamp steady) 1 /\
    (forall i a, In (i, a) (micro_clusters steady) ->
                 heap d' a = heap steady a) /\
    s d' = s steady /\ s_t d' = s_t steady.
Proof.
  apply (@update_creates_micro_cluster between steady).
  - apply reachable_init.
  - intros i a [].
Defined.

(** ** The further properties at the stream of two connected
    micro-clusters *)

Lemma shared_fed : fed [0%Z; 1%Z] shared.
Proof.
  unfold shared.
  apply fed_learn; [apply fed_learn|]; try exact between_dims.
  exact two_apart_fed.
Qed.

Lemma shared_neighbors :
  _find_fixed_radius_nn between shared = Ok [(0%Z, 0%nat); (1%Z, 1%nat)].
Proof.
  destruct shared_normal as [a [b [E [Ha Hb]]]]. rewrite E. crunch. go.
  near_box (7 / 5) 0. crunch. near_box (7 / 5) 0. reflexivity.
Qed.

Lemma shared_edge :
  entry 0 1 (s shared) = Some 1 /\ entry 0 1 (s_t shared) = Some 3%Z.
Proof.
  destruct shared_normal as [a [b [E _]]]. rewrite E. now split.
Qed.

Lemma shared_fading : 0 < fading_factor shared.
Proof. destruct shared_normal as [a [b [E _]]]. rewrite E. simpl. lra. Qed.

Lemma shared_interval : (1 <= cleanup_interval shared)%Z.
Proof. destruct shared_normal as [a [b [E _]]]. rewrite E. simpl. lia. Qed.

Lemma shared_update_returns :
  _update between shared = (Ok tt, snd (_update between shared)).
Proof.
  destruct (@update_returns [0%Z; 1%Z] between shared
              (reachable_keys_distinct shared_reachable)
              (fed_stored_dims shared_fed) between_dims) as [d' [E _]].
  now rewrite E.
Qed.

Lemma two_apart_store : micro_clusters two_apart <> [].
Proof. rewrite two_apart_eq. discriminate. Qed.



(** X10 at the stream of two connected micro-clusters, whose graph has
    the edge (0, 1). *)
Lemma reachable_graph_well_formed_witness :
  entry 0 1 (s shared) = Some 1 /\
  graph_keys (s shared) = graph_keys (s_t shared) /\
  (0 < 1)%Z /\ 0 <= 1.
Proof.
  split; [exact (proj1 shared_edge)|].
  destruct (@reachable_graph_well_formed shared shared_reachable)
    as [Hk He].
  split; [exact Hk|].
  exact (He 0%Z 1%Z 1 (proj1 shared_edge)).
Defined.

(** X15 at the point between the two micro-clusters. *)
Lemma predict_one_total_witness :
  exists k m d',
    predict_one between two_apart = (Ok k, d') /\
    (0 <= k < n_clusters d')%Z /\
    (n_clusters d' <= Dict.len (micro_clusters two_apart))%Z /\
    Dict.keys (clusters d') = range 0 (n_clusters d') /\
    Dict.keys (centers d') = range 0 (n_clusters d') /\
    first_nearest between (centers d') (Some m, k).
Proof.
  apply (@predict_one_total [0%Z; 1%Z] between two_apart).
  - exact two_apart_fed.
  - exact between_dims.
  - exact two_apart_fading.
  - exact two_apart_interval.
  - exact two_apart_store.
Defined.

(** X16 at the edge of the two connected micro-clusters. *)
Lemma existing_edge_is_faded_witness :
  entry 0 1 (s (snd (_update between shared)))
  = Some (1 * pow2 (- fading_factor shared
                    * IZR (time_stamp shared - 3)) + 1) /\
  entry 0 1 (s_t (snd (_update between shared)))
  = Some (time_stamp shared).
Proof.
  apply (@existing_edge_is_faded between shared
           (snd (_update between shared))
           [(0%Z, 0%nat); (1%Z, 1%nat)] 0%Z 1%Z 1 3%Z).
  - exact shared_neighbors.
  - simpl. now left.
  - simpl. right. now left.
  - lia.
  - exact (proj1 shared_edge).
  - exact (proj2 shared_edge).
  - exact shared_update_returns.
Defined.

Lemma shared_near_first :
  _find_fixed_radius_nn (pt2 (-1) 0) shared = Ok [(0%Z, 0%nat)].
Proof.
  destruct shared_normal as [a [b [E [Ha Hb]]]]. rewrite E. crunch. go.
  near_box (27 / 20) 0. crunch. far_box (69 / 20) 0. reflexivity.
Qed.

(** X17 at the edge (0, 1) of the two connected micro-clusters and a
    point that is a neighbour of the first only. *)
Lemma update_leaves_other_edges_witness :
  entry 0 1 (s shared) = Some 1 /\
  entry 0 1 (s_t shared) = Some 3%Z /\
  entry 0 1 (s (snd (_update (pt2 (-1) 0) shared)))
  = entry 0 1 (s shared) /\
  entry 0 1 (s_t (snd (_update (pt2 (-1) 0) shared)))
  = entry 0 1 (s_t shared).
Proof.
  split; [exact (proj1 shared_edge)|].
  split; [exact (proj2 shared_edge)|].
  apply (@update_leaves_other_edges (pt2 (-1) 0) shared
           [(0%Z, 0%nat)] 0%Z 1%Z).
  - exact shared_reachable.
  - exact shared_near_first.
  - simpl. intros [_ [[H|[]] _]]. discriminate.
Defined.

(** ** The cleanup of an edge that has faded *)

Lemma stale_edge_weak :
  Rltb (1 / 100 * pow2 (fading_factor stale_edge
                        * IZR (time_stamp stale_edge - 3)))
    (intersection_factor stale_edge * weight_weak stale_edge) = true.
Proof.
  unfold weight_weak, stale_edge. simpl. apply Rltb_true.
  rewrite (@pow2_nat _ 1), (@pow2_neg_nat _ 1) by (simpl; lra).
  simpl. lra.
Qed.

Lemma stale_edge_in_range : cleanup_in_range stale_edge.
Proof.
  unfold cleanup_in_range, stale_edge. simpl. split; [lra|]. split.
  - intros k a _. lra.
  - intros i j t H. unfold entry in H. simpl in H.
    destruct (Z.eqb i 0); [|discriminate]. simpl in H.
    destruct (Z.eqb j 1); [|discriminate]. injection H as <-. simpl. lra.
Qed.

(** X18 at an edge that is weak: its density and its time stamp are set
    to 0. *)
Lemma cleanup_weak_entries_zeroed_witness :
  entry 0 1 (s stale_edge) = Some (1 / 100) /\
  entry 0 1 (s_t stale_edge) = Some 3%Z /\
  exists d',
    _cleanup stale_edge = (Ok tt, d') /\
    micro_clusters d' = micro_clusters stale_edge /\
    heap d' = heap stale_edge /\
    entry 0 1 (s d') = Some 0 /\ entry 0 1 (s_t d') = Some 0%Z.
Proof.
  split; [reflexivity|]. split; [reflexivity|].
  destruct (@cleanup_weak_entries_zeroed stale_edge 0%Z 1%Z (1 / 100) 3%Z)
    as [d' [E [Hm [Hh H]]]].
  - reflexivity.
  - intros k a _. simpl. split; [lra|lia].
  - simpl. lra.
  - simpl. lia.
  - exact stale_edge_in_range.
  - reflexivity.
  - reflexivity.
  - rewrite stale_edge_weak in H. exists d'.
    split; [exact E|]. split; [exact Hm|]. split; [exact Hh|exact H].
Defined.


(** X20 at the stream of two micro-clusters. *)
Lemma labels_without_edges_witness :
  _generate_labels (@Dict.empty (dict R)) two_apart
  = Some (Ok (combine (Dict.keys (micro_clusters two_apart))
                (map (fun n => Some (Z.of_nat n))
                     (seq 0 (length (Dict.keys
                                       (micro_clusters two_apart))))))).
Proof.
  apply (@labels_without_edges two_apart).
  exact (reachable_keys_distinct two_apart_reachable).
Defined.

